(** * VyPR: symbolic control-flow graphs and the monitoring event consumer

    A shallow embedding of [SCFG/construction.py] and of the consumer
    side of [init_verification.py].

    Python objects live in arenas: a vertex or an edge is referred to by
    its index in a store that only grows, which gives object identity
    and in-place mutation.  A call that can raise returns a [result];
    the exception is the one the Python interpreter raises at that
    point.  What the program does not fix is a parameter: the order
    in which a dict keyed by node objects hands out its values
    ([HashOrder]) and the answers of the verdict server
    ([verdict_server]). *)

From Stdlib Require Import ZArith String List Ascii Bool Lia.
From stdpp Require Import base option list strings pretty.

#[local] Open Scope string_scope.
#[local] Open Scope list_scope.
#[local] Set Default Proof Using "Type".

(** ** Python results *)

Module Py.

Inductive exn :=
| TypeError
| IndexError
| AttributeError
| KeyError
| ValueError
| UnboundLocalError
| SystemExit.

(** [Loops] is a call that never returns (a [while] that makes no
    progress). *)
Inductive result (A : Type) :=
| Ok (a : A)
| Exc (e : exn)
| Loops.

Arguments Ok {A} a.
Arguments Exc {A} e.
Arguments Loops {A}.

#[export] Instance result_ret : MRet result := @Ok.

#[export] Instance result_bind : MBind result := fun A B f m =>
  match m with
  | Ok a => f a
  | Exc e => Exc e
  | Loops => Loops
  end.

#[export] Instance exn_eq_dec : EqDecision exn.
Proof. solve_decision. Defined.

(** [for x in l: acc = f(acc, x)] where the body can raise. *)
Fixpoint for_each {A S : Type} (f : S -> A -> result S) (l : list A) (s : S)
  : result S :=
  match l with
  | [] => Ok s
  | x :: l' => s' ← f s x; for_each f l' s'
  end.

(** [map(f, l)] where [f] can raise (Python 2: an eager list). *)
Fixpoint map_each {A B : Type} (f : A -> result B) (l : list A)
  : result (list B) :=
  match l with
  | [] => Ok []
  | x :: l' => y ← f x; ys ← map_each f l'; Ok (y :: ys)
  end.

End Py.

Import Py.

(** ** The AST the builder consumes *)

Module Ast.

(** Expression-level nodes.  [Index] is the slice wrapper of a
    subscript and [Load] an expression context; both are nodes that
    [get_attr_name_string] can be handed.  [OtherExpr] stands for a
    node of any kind the module does not single out. *)
#[warnings="-register-all"]
Inductive expr :=
| Name (id : string)
| Attribute (value : expr) (attr : string)
| Subscript (value : expr) (slice : expr)
| Index (value : expr)
| Call (func : expr) (args : list expr)
| Num (n : Z)
| Str (s : string)
| Tuple (elts : list expr)
| Load
| OtherExpr (kind : string) (children : list expr).

(** Statements.  A [Try] keeps the bodies of its handlers
    ([ExceptHandler(body)]).  [OtherStmt] is a statement of any other
    kind ([AugAssign], [Break], [With], ...). *)
#[warnings="-register-all"]
Inductive stmt :=
| Assign (targets : list expr) (value : expr)
| Expr (value : expr)
| Return (value : option expr)
| Raise (type : option expr)
| Pass
| If (test : expr) (body orelse : list stmt)
| Try (body : list stmt) (handlers : list (list stmt))
| For (target iter : expr) (body : list stmt)
| While (test : expr) (body : list stmt)
| OtherStmt (kind : string).

(** [ast.iter_child_nodes], restricted to expressions. *)
Definition iter_child_nodes (e : expr) : list expr :=
  match e with
  | Attribute v _ => [v]
  | Subscript v s => [v; s]
  | Index v => [v]
  | Call f args => f :: args
  | Tuple elts => elts
  | OtherExpr _ ch => ch
  | Name _ | Num _ | Str _ | Load => []
  end.

Fixpoint height (e : expr) : nat :=
  let fix heights (l : list expr) : nat :=
    match l with
    | [] => 0
    | x :: r => Nat.max (S (height x)) (heights r)
    end in
  match e with
  | Attribute v _ => S (height v)
  | Subscript v s => S (Nat.max (height v) (height s))
  | Index v => S (height v)
  | Call f args => Nat.max (S (height f)) (heights args)
  | Tuple elts => heights elts
  | OtherExpr _ ch => heights ch
  | Name _ | Num _ | Str _ | Load => 0
  end.

(** The nodes at depth [d] below [e], left to right. *)
Fixpoint level (d : nat) (e : expr) : list expr :=
  match d with
  | 0 => [e]
  | S d' => flat_map (level d') (iter_child_nodes e)
  end.

(** [ast.walk]: breadth first, so level after level. *)
Definition walk (e : expr) : list expr :=
  flat_map (fun d => level d e) (seq 0 (S (height e))).

(** [ast.walk] of an [Assign] statement, without the statement node
    itself: its children are the targets, then the value. *)
Definition walk_assign (targets : list expr) (value : expr) : list expr :=
  walk (OtherExpr "Assign" (targets ++ [value])).

Definition is_call (e : expr) : bool :=
  match e with Call _ _ => true | _ => false end.

Definition is_tuple (e : expr) : bool :=
  match e with Tuple _ => true | _ => false end.

End Ast.

Import Ast.

(** ** SCFG/construction.py: name extraction *)

Module construction.

Definition dot : string := ".".

(** [".".join(l)] *)
Fixpoint join (sep : string) (l : list string) : string :=
  match l with
  | [] => ""
  | [x] => x
  | x :: r => x +:+ sep +:+ join sep r
  end.

(** The [while] of [get_function_name_strings] for one call: it walks
    the callee chain and appends the names met.  On a node of any
    other kind no branch applies and [current_item] never changes. *)
Fixpoint callee_chain (current_item : expr) : result (list string) :=
  match current_item with
  | Call func _ => callee_chain func
  | Attribute value attr => r ← callee_chain value; Ok (attr :: r)
  | Name id => Ok [id]
  | Str _ => Ok []
  | Subscript value _ => callee_chain value
  | _ => Loops
  end.

(** [full_names] is a dict keyed by the call nodes, objects that hash
    by their address: [full_names.values()] hands out the values in the
    order of the hash table, which is neither the order of insertion
    nor fixed by the AST.  [next_value] says which of the entries still
    to come is handed out next, counted in the order of insertion. *)
Class HashOrder := next_value : list (expr * list string) -> nat.

Fixpoint values_from `{HashOrder} (n : nat) (d : list (expr * list string))
  : list (list string) :=
  match n, d with
  | 0, _ | _, [] => []
  | _, [(_, v)] => [v]
  | S n', _ =>
      let i := next_value d mod length d in
      match d !! i with
      | Some (_, v) => v :: values_from n' (delete i d)
      | None => []
      end
  end.

(** [d.values()] *)
Definition values `{HashOrder} (d : list (expr * list string))
  : list (list string) :=
  values_from (length d) d.

(** The order of a dict that keeps the order of insertion. *)
Definition insertion_order : HashOrder := fun _ => 0.

Section names.

Context {order : HashOrder}.

(** The loop over [all_calls] fills [full_names] in the order of
    [ast.walk]. *)
Definition function_names_of (chain : list expr) : result (list string) :=
  let all_calls := List.filter is_call chain in
  full_names ← map_each (fun call => item ← callee_chain call; Ok (call, item))
                 all_calls;
  Ok (map (fun item => join dot (rev item)) (values full_names)).

Definition get_function_name_strings (obj : expr) : result (list string) :=
  function_names_of (walk obj).

(** [get_function_name_strings(entry)] for an [Assign] statement. *)
Definition get_function_name_strings_assign (targets : list expr) (value : expr)
  : result (list string) :=
  function_names_of (walk_assign targets value).

(** [node.value]: only some node kinds have the attribute. *)
Definition value_of (node : expr) : result expr :=
  match node with
  | Index v | Attribute v _ | Subscript v _ => Ok v
  | _ => Exc AttributeError
  end.

Definition dquote : string := String (ascii_of_nat 34) "".

(** [[x] + r] where [r] is the value of the recursive call: adding
    [None] to a list is a [TypeError]. *)
Definition cons_to (x : string) (r : option (list string))
  : result (option (list string)) :=
  match r with
  | Some l => Ok (Some (x :: l))
  | None => Exc TypeError
  end.

(** A Python function that falls off its end returns [None]. *)
Fixpoint get_reversed_string_list (obj : expr) (omit_subscripts : bool)
  : result (option (list string)) :=
  match obj with
  | Name id => Ok (Some [id])
  | Attribute value attr =>
      r ← get_reversed_string_list value omit_subscripts;
      cons_to attr r
  | Subscript value slice =>
      if omit_subscripts then
        (* the recursive call does not pass [omit_subscripts] on *)
        get_reversed_string_list value false
      else
        sv ← value_of slice;
        match sv with
        | Str s =>
            r ← get_reversed_string_list value omit_subscripts;
            cons_to ("[" +:+ dquote +:+ s +:+ dquote +:+ "]") r
        | Num n =>
            r ← get_reversed_string_list value omit_subscripts;
            cons_to ("[" +:+ pretty n +:+ "]") r
        | Name id =>
            r ← get_reversed_string_list value omit_subscripts;
            cons_to ("[" +:+ id +:+ "]") r
        | _ => Ok None
        end
  | Call _ _ => r ← get_function_name_strings obj; Ok (Some r)
  | Str s => Ok (Some [s])
  | _ => Ok None
  end.

Fixpoint contains (c : ascii) (s : string) : bool :=
  match s with
  | EmptyString => false
  | String c' s' => if decide (c = c') then true else contains c s'
  end.

(** The loop over [enumerate(result)]; [None] is the early
    [return None]. *)
Fixpoint attr_string_loop (len_result n : nat) (parts : list string)
    (attr_string : string) : result (option string) :=
  match parts with
  | [] => Ok (Some attr_string)
  | part :: rest =>
      if contains "."%char part && Nat.ltb 1 len_result then Ok None
      else
        match part with
        | EmptyString => Exc IndexError
        | String c _ =>
            if decide (c = "["%char) then
              attr_string_loop len_result (S n) rest (attr_string +:+ part)
            else
              attr_string_loop len_result (S n) rest
                (attr_string +:+ (if Nat.eqb n 0 then "" else dot) +:+ part)
        end
  end.

Definition get_attr_name_string (obj : expr) (omit_subscripts : bool)
  : result (option string) :=
  match obj with
  | Load | Index _ => Ok None
  | _ =>
      r ← get_reversed_string_list obj omit_subscripts;
      match r with
      | None => Exc TypeError     (* [None[::-1]] *)
      | Some l =>
          let result := rev l in
          attr_string_loop (length result) 0 result ""
      end
  end.

End names.


(** *** Graph objects *)

(** A reference to a vertex or to an edge: its index in the store. *)
Abbreviation vertex_ref := nat (only parsing).
Abbreviation edge_ref := nat (only parsing).

(** Conditions on edges.  [formula_tree.lnot] belongs to the formula
    module; it is kept as the constructor [LNot]. *)
Inductive formula :=
| Test (e : expr)
| LNot (e : expr)
| Tag (s : string).

Inductive edge_condition :=
| CondList (l : list formula)
| CondStr (s : string)
| CondFormula (f : formula).

Inductive instruction :=
| IStmt (s : stmt)
| IStr (s : string).

Inductive operates_on :=
| OnNames (l : list (option string))
| OnName (s : option string)
| OnInstruction (i : instruction).

(** [targets[0]] *)
Definition first_target (targets : list expr) : result expr :=
  match targets with
  | t :: _ => Ok t
  | [] => Exc IndexError
  end.

(** [entry.type.func.id] *)
Definition raised_name (type : option expr) : result string :=
  match type with
  | Some (Call (Name id) _) => Ok id
  | _ => Exc AttributeError
  end.

Section target_names.

Context {order : HashOrder}.

(** [map(get_attr_name_string, elts) + names] and
    [[get_attr_name_string(targets[0])] + names] *)
Definition target_names (target : expr) (names : result (list string))
  : result (list (option string)) :=
  match target with
  | Tuple elts =>
      l ← map_each (fun e => get_attr_name_string e false) elts;
      r ← names;
      Ok (l ++ map Some r)
  | _ =>
      a ← get_attr_name_string target false;
      r ← names;
      Ok (a :: map Some r)
  end.

End target_names.

Module CFGVertex.

Record t := mk {
  _name_changed : list (option string);
  _path_length : option nat;
  _structure_obj : option stmt;
  edges : list edge_ref;
  _previous_edge : option edge_ref;
  (** unset, [None] or a vertex *)
  post_conditional_vertex : option (option vertex_ref);
  post_try_catch_vertex : option (option vertex_ref)
}.

Section init.

Context {order : HashOrder}.

(** The names an entry changes.  The constructor is only called
    with no entry or with an entry of one of these kinds. *)
Definition name_changed_of (entry : option stmt)
    (reference_variables : list string) : result (list (option string)) :=
  match entry with
  | None => Ok []
  | Some (Assign targets (Call _ _ as value)) =>
      target ← first_target targets;
      target_names target (get_function_name_strings_assign targets value)
  | Some (Expr (Call _ args as value)) =>
      r ← get_function_name_strings value;
      Ok (map Some (r ++ (if Nat.ltb 0 (length args)
                          then reference_variables else [])))
  | Some (Assign targets _) =>
      target ← first_target targets;
      a ← get_attr_name_string target false;
      Ok [a]
  | Some (Return (Some (Call _ _ as value))) =>
      r ← get_function_name_strings value;
      Ok (map Some r)
  | Some (Return _) => Ok []
  | Some (Raise type) => id ← raised_name type; Ok [Some id]
  | Some Pass => Ok [Some "pass"]
  | Some _ => Ok []
  end.

Definition __init__ (entry : option stmt) (path_length : option nat)
    (structure_obj : option stmt) (reference_variables : list string)
  : result t :=
  names ← name_changed_of entry reference_variables;
  Ok {| _name_changed := names;
        _path_length := path_length;
        _structure_obj := structure_obj;
        edges := [];
        _previous_edge := None;
        post_conditional_vertex := None;
        post_try_catch_vertex := None |}.

End init.

(** [CFGVertex(structure_obj=...)] followed by
    [v._name_changed = name_changed]. *)
Definition synthetic (name_changed : list (option string))
    (structure_obj : option stmt) : t :=
  {| _name_changed := name_changed;
     _path_length := None;
     _structure_obj := structure_obj;
     edges := [];
     _previous_edge := None;
     post_conditional_vertex := None;
     post_try_catch_vertex := None |}.

Definition append_edge (e : edge_ref) (v : t) : t :=
  {| _name_changed := _name_changed v;
     _path_length := _path_length v;
     _structure_obj := _structure_obj v;
     edges := edges v ++ [e];
     _previous_edge := _previous_edge v;
     post_conditional_vertex := post_conditional_vertex v;
     post_try_catch_vertex := post_try_catch_vertex v |}.

Definition set_previous_edge (e : edge_ref) (v : t) : t :=
  {| _name_changed := _name_changed v;
     _path_length := _path_length v;
     _structure_obj := _structure_obj v;
     edges := edges v;
     _previous_edge := Some e;
     post_conditional_vertex := post_conditional_vertex v;
     post_try_catch_vertex := post_try_catch_vertex v |}.

Definition set_post_conditional_vertex (p : option vertex_ref) (v : t) : t :=
  {| _name_changed := _name_changed v;
     _path_length := _path_length v;
     _structure_obj := _structure_obj v;
     edges := edges v;
     _previous_edge := _previous_edge v;
     post_conditional_vertex := Some p;
     post_try_catch_vertex := post_try_catch_vertex v |}.

Definition set_post_try_catch_vertex (p : option vertex_ref) (v : t) : t :=
  {| _name_changed := _name_changed v;
     _path_length := _path_length v;
     _structure_obj := _structure_obj v;
     edges := edges v;
     _previous_edge := _previous_edge v;
     post_conditional_vertex := post_conditional_vertex v;
     post_try_catch_vertex := Some p |}.

End CFGVertex.

Module CFGEdge.

Record t := mk {
  _condition : edge_condition;
  _instruction : instruction;
  _source_state : option vertex_ref;
  _target_state : option vertex_ref;
  _input_variables : list string;
  _operates_on : operates_on
}.

Section init.

Context {order : HashOrder}.

Definition operates_on_of (instruction : instruction) : result operates_on :=
  match instruction with
  | IStmt (Assign targets (Call _ _ as value)) =>
      target ← first_target targets;
      l ← target_names target (get_function_name_strings value);
      Ok (OnNames l)
  | IStmt (Assign targets _) =>
      target ← first_target targets;
      a ← get_attr_name_string target false;
      Ok (OnName a)
  | IStmt (Expr (Call _ _ as value)) =>
      r ← get_function_name_strings value;
      Ok (OnNames (map Some r))
  | IStmt (Return (Some (Call _ _ as value))) =>
      r ← get_function_name_strings value;
      Ok (OnNames (map Some r))
  | IStmt (Raise type) => id ← raised_name type; Ok (OnNames [Some id])
  | IStmt Pass => Ok (OnNames [Some "pass"])
  | _ => Ok (OnInstruction instruction)
  end.

(** The condition is copied when it is a list; a value of the model
    is its own copy. *)
Definition __init__ (condition : edge_condition) (instruction : instruction)
    (input_variables : list string) : result t :=
  on ← operates_on_of instruction;
  Ok {| _condition := condition;
        _instruction := instruction;
        _source_state := None;
        _target_state := None;
        _input_variables := input_variables;
        _operates_on := on |}.

End init.

Definition set_source_state (v : vertex_ref) (e : t) : t :=
  {| _condition := _condition e;
     _instruction := _instruction e;
     _source_state := Some v;
     _target_state := _target_state e;
     _input_variables := _input_variables e;
     _operates_on := _operates_on e |}.

Definition set_target (v : vertex_ref) (e : t) : t :=
  {| _condition := _condition e;
     _instruction := _instruction e;
     _source_state := _source_state e;
     _target_state := Some v;
     _input_variables := _input_variables e;
     _operates_on := _operates_on e |}.

End CFGEdge.

(** Entries of [branch_initial_statements]. *)
Inductive branch_initial_statement :=
| BisPostConditional (entry : stmt)
| BisConditional (first : stmt) (n : nat)
| BisConditionalNoElse (entry : stmt) (n : nat)
| BisPostTryCatch (entry : stmt)
| BisTryCatch (first : stmt) (role : string)
| BisLoop (first : stmt) (entry : stmt).


(** *** The graph and its object store *)

Module CFG.

(** [vertex_store] and [edge_store] hold every vertex and edge
    object; the other fields are those of the Python class, with
    references into the stores. *)
Record t := mk {
  vertex_store : list CFGVertex.t;
  edge_store : list CFGEdge.t;
  vertices : list vertex_ref;
  edges : list edge_ref;
  starting_vertices : vertex_ref;
  return_statements : list vertex_ref;
  branch_initial_statements : list branch_initial_statement;
  reference_variables : list string
}.

Definition with_stores (vs : list CFGVertex.t) (es : list CFGEdge.t) (g : t) : t :=
  {| vertex_store := vs;
     edge_store := es;
     vertices := vertices g;
     edges := edges g;
     starting_vertices := starting_vertices g;
     return_statements := return_statements g;
     branch_initial_statements := branch_initial_statements g;
     reference_variables := reference_variables g |}.

Definition with_lists (vl : list vertex_ref) (el : list edge_ref)
    (rs : list vertex_ref) (bis : list branch_initial_statement) (g : t) : t :=
  {| vertex_store := vertex_store g;
     edge_store := edge_store g;
     vertices := vl;
     edges := el;
     starting_vertices := starting_vertices g;
     return_statements := rs;
     branch_initial_statements := bis;
     reference_variables := reference_variables g |}.

(** A new vertex object; its reference is its index. *)
Definition new_vertex (v : CFGVertex.t) (g : t) : vertex_ref * t :=
  (length (vertex_store g), with_stores (vertex_store g ++ [v]) (edge_store g) g).

Definition new_edge (e : CFGEdge.t) (g : t) : edge_ref * t :=
  (length (edge_store g), with_stores (vertex_store g) (edge_store g ++ [e]) g).

Definition update_vertex (f : CFGVertex.t -> CFGVertex.t) (v : vertex_ref) (g : t) : t :=
  with_stores (alter f v (vertex_store g)) (edge_store g) g.

Definition update_edge (f : CFGEdge.t -> CFGEdge.t) (e : edge_ref) (g : t) : t :=
  with_stores (vertex_store g) (alter f e (edge_store g)) g.

(** [vertex.add_outgoing_edge(edge)] *)
Definition add_outgoing_edge (vertex : vertex_ref) (edge : edge_ref) (g : t) : t :=
  update_vertex (CFGVertex.append_edge edge) vertex
    (update_edge (CFGEdge.set_source_state vertex) edge g).

(** [edge.set_target_state(state)] *)
Definition set_target_state (edge : edge_ref) (state : vertex_ref) (g : t) : t :=
  update_vertex (CFGVertex.set_previous_edge edge) state
    (update_edge (CFGEdge.set_target state) edge g).

(** [self.vertices.append(v)] *)
Definition append_vertex (v : vertex_ref) (g : t) : t :=
  with_lists (vertices g ++ [v]) (edges g) (return_statements g)
    (branch_initial_statements g) g.

(** [self.edges.append(e)] and [self.edges += es] *)
Definition append_edges (es : list edge_ref) (g : t) : t :=
  with_lists (vertices g) (edges g ++ es) (return_statements g)
    (branch_initial_statements g) g.

Definition append_return_statement (v : vertex_ref) (g : t) : t :=
  with_lists (vertices g) (edges g) (return_statements g ++ [v])
    (branch_initial_statements g) g.

Definition append_branch_initial_statement (b : branch_initial_statement) (g : t) : t :=
  with_lists (vertices g) (edges g) (return_statements g)
    (branch_initial_statements g ++ [b]) g.

(** [CFG(reference_variables)] *)
Definition __init__ (reference_variables : list string) : t :=
  {| vertex_store := [CFGVertex.synthetic [] None];
     edge_store := [];
     vertices := [0];
     edges := [];
     starting_vertices := 0;
     return_statements := [];
     branch_initial_statements := [];
     reference_variables := reference_variables |}.

End CFG.


(** *** [CFG.process_block] *)

(** The variables of one call of [process_block] that its loop over
    the block reads and updates.  [additional_input_variables] is
    only bound once a [for] with a name or tuple target was seen. *)
Record locals := mk_locals {
  condition : list formula;
  current_vertices : list vertex_ref;
  path_length : nat;
  additional_input_variables : option (list string)
}.

Definition state : Type := locals * CFG.t.

Section builder.

Context {order : HashOrder}.

(** One edge per current vertex, each attached to its source. *)
Definition new_edges_from (cond : edge_condition) (instr : instruction)
    (input_variables : list string) (sources : list vertex_ref) (g : CFG.t)
  : result (list edge_ref * CFG.t) :=
  for_each (fun '(new_edges, g) vertex =>
      new_edge ← CFGEdge.__init__ cond instr input_variables;
      let '(e, g) := CFG.new_edge new_edge g in
      Ok (new_edges ++ [e], CFG.add_outgoing_edge vertex e g))
    sources ([], g).

(** The statements that add one vertex: assignment, call expression,
    [pass], [return], [raise]. *)
Definition straight_line (entry : stmt) (reference_variables : list string)
    (input_variables_copy : list string) (st : state) : result state :=
  let '(ls, g) := st in
  let path_length := S (path_length ls) in
  '(new_edges, g) ← new_edges_from (CondList (condition ls)) (IStmt entry)
                       input_variables_copy (current_vertices ls) g;
  v ← CFGVertex.__init__ (Some entry) (Some path_length) None reference_variables;
  let '(new_vertex, g) := CFG.new_vertex v g in
  let g := CFG.append_vertex new_vertex g in
  let g := CFG.append_edges new_edges g in
  let g := foldl (fun g edge => CFG.set_target_state edge new_vertex g) g new_edges in
  Ok (mk_locals (condition ls) [new_vertex] path_length
        (additional_input_variables ls), g).

(** A synthetic edge from [source] to [target], recorded in
    [self.edges]. *)
Definition control_edge (cond : edge_condition) (instr : string)
    (source target : vertex_ref) (g : CFG.t) : result CFG.t :=
  new_edge ← CFGEdge.__init__ cond (IStr instr) [];
  let '(e, g) := CFG.new_edge new_edge g in
  let g := CFG.append_edges [e] g in
  let g := CFG.add_outgoing_edge source e g in
  Ok (CFG.set_target_state e target g).

(** The same with the target set before the source, as the merge
    steps do. *)
Definition merge_edge (cond : edge_condition) (instr : string)
    (source target : vertex_ref) (g : CFG.t) : result CFG.t :=
  new_edge ← CFGEdge.__init__ cond (IStr instr) [];
  let '(e, g) := CFG.new_edge new_edge g in
  let g := CFG.append_edges [e] g in
  let g := CFG.set_target_state e target g in
  Ok (CFG.add_outgoing_edge source e g).

(** Redirect all current vertices into a synthetic head. *)
Definition link_all (cond : edge_condition) (instr : string)
    (sources : list vertex_ref) (target : vertex_ref) (g : CFG.t) : result CFG.t :=
  for_each (fun g vertex => control_edge cond instr vertex target g) sources g.

Definition is_return_or_raise (i : instruction) : bool :=
  match i with
  | IStmt (Return _) | IStmt (Raise _) => true
  | _ => false
  end.

(** The filter after a conditional or a try: a vertex stays when it
    has no previous edge or when that edge is neither a return nor a
    raise.  References held by the graph are always valid; the last
    two cases are never met. *)
Definition falls_through (g : CFG.t) (vertex : vertex_ref) : bool :=
  match CFG.vertex_store g !! vertex with
  | Some v =>
      match CFGVertex._previous_edge v with
      | None => true
      | Some e =>
          match CFG.edge_store g !! e with
          | Some edge => negb (is_return_or_raise (CFGEdge._instruction edge))
          | None => true
          end
      end
  | None => true
  end.

(** [body[0]] *)
Definition first_statement (body : list stmt) : result stmt :=
  match body with
  | s :: _ => Ok s
  | [] => Exc IndexError
  end.

(** The head of an [if]: the log entry, the [conditional] vertex and
    the edges into it. *)
Definition conditional_head (entry : stmt) (is_last : bool) (ls : locals)
    (g : CFG.t) : result (vertex_ref * CFG.t) :=
  let g := if is_last then g
           else CFG.append_branch_initial_statement (BisPostConditional entry) g in
  let '(empty_conditional_vertex, g) :=
    CFG.new_vertex (CFGVertex.synthetic [Some "conditional"] (Some entry)) g in
  let g := CFG.append_vertex empty_conditional_vertex g in
  g ← link_all (CondStr "conditional") "control-flow" (current_vertices ls)
        empty_conditional_vertex g;
  Ok (empty_conditional_vertex, g).

(** The vertices a conditional hands to the filter. *)
Definition conditional_tails (head : vertex_ref)
    (final_conditional_vertices : list vertex_ref)
    (final_else_is_present : bool) : list vertex_ref :=
  if final_else_is_present then final_conditional_vertices
  else final_conditional_vertices ++ [head].

(** The end of an [if]: from the branches' final vertices to the
    [post-conditional] vertex. *)
Definition conditional_merge (entry : stmt) (head : vertex_ref)
    (final_conditional_vertices : list vertex_ref)
    (final_else_is_present : bool) (n_pairs : nat) (ls : locals) (g : CFG.t)
  : result state :=
  let g := if final_else_is_present then g
           else CFG.append_branch_initial_statement
                  (BisConditionalNoElse entry n_pairs) g in
  let current_vertices :=
    List.filter (falls_through g)
      (conditional_tails head final_conditional_vertices final_else_is_present) in
  '(current_vertices, g) ←
    match current_vertices with
    | _ :: _ =>
        let '(empty_vertex, g) :=
          CFG.new_vertex (CFGVertex.synthetic [Some "post-conditional"] None) g in
        let g := CFG.update_vertex
                   (CFGVertex.set_post_conditional_vertex (Some empty_vertex)) head g in
        let g := CFG.append_vertex empty_vertex g in
        g ← for_each (fun g vertex =>
               merge_edge (CondStr "post-condition") "control-flow" vertex empty_vertex g)
              current_vertices g;
        Ok ([empty_vertex], g)
    | [] =>
        Ok ([], CFG.update_vertex (CFGVertex.set_post_conditional_vertex None) head g)
    end;
  Ok (mk_locals (condition ls ++ [Tag "skip-conditional"]) current_vertices 0
        (additional_input_variables ls), g).

(** The head of a [try]: log entries, the [try-catch] vertex and the
    edges into it. *)
Definition try_head (entry : stmt) (body : list stmt) (handlers : list (list stmt))
    (is_last : bool) (ls : locals) (g : CFG.t) : result (vertex_ref * CFG.t) :=
  let g := if is_last then g
           else CFG.append_branch_initial_statement (BisPostTryCatch entry) g in
  let '(empty_conditional_vertex, g) :=
    CFG.new_vertex (CFGVertex.synthetic [Some "try-catch"] None) g in
  let g := CFG.append_vertex empty_conditional_vertex g in
  g ← link_all (CondStr "try-catch") "control-flow" (current_vertices ls)
        empty_conditional_vertex g;
  first ← first_statement body;
  let g := CFG.append_branch_initial_statement (BisTryCatch first "try-catch-main") g in
  g ← for_each (fun g handler_body =>
         first ← first_statement handler_body;
         Ok (CFG.append_branch_initial_statement
               (BisTryCatch first "try-catch-handler") g))
        handlers g;
  Ok (empty_conditional_vertex, g).

Definition try_merge (head : vertex_ref)
    (final_try_catch_vertices : list vertex_ref) (ls : locals) (g : CFG.t)
  : result state :=
  let current_vertices := List.filter (falls_through g) final_try_catch_vertices in
  '(current_vertices, g) ←
    match current_vertices with
    | _ :: _ =>
        let '(empty_vertex, g) :=
          CFG.new_vertex (CFGVertex.synthetic [Some "post-try-catch"] None) g in
        let g := CFG.update_vertex
                   (CFGVertex.set_post_try_catch_vertex (Some empty_vertex)) head g in
        let g := CFG.append_vertex empty_vertex g in
        g ← for_each (fun g vertex =>
               merge_edge (CondStr "post-try-catch") "control-flow" vertex empty_vertex g)
              current_vertices g;
        Ok ([empty_vertex], g)
    | [] =>
        Ok ([], CFG.update_vertex (CFGVertex.set_post_try_catch_vertex None) head g)
    end;
  Ok (mk_locals (condition ls ++ [Tag "skip-try-catch"]) current_vertices 0
        (additional_input_variables ls), g).

(** [item.id] *)
Definition id_of (item : expr) : result string :=
  match item with
  | Name id => Ok id
  | _ => Exc AttributeError
  end.

(** The input variables a loop target induces; with a target of
    another kind the variable keeps what it held. *)
Definition loop_input_variables (loop_variable : expr)
    (previous : option (list string)) : result (option (list string)) :=
  match loop_variable with
  | Name id => Ok (Some [id])
  | Tuple elts => l ← map_each id_of elts; Ok (Some l)
  | _ => Ok previous
  end.

(** The head of a [for]: the [loop] and [post-loop] vertices and the
    edges into the loop. *)
Definition loop_head (iter : expr) (ls : locals) (g : CFG.t)
  : result (vertex_ref * vertex_ref * CFG.t) :=
  let '(empty_pre_loop_vertex, g) :=
    CFG.new_vertex (CFGVertex.synthetic [Some "loop"] None) g in
  let '(empty_post_loop_vertex, g) :=
    CFG.new_vertex (CFGVertex.synthetic [Some "post-loop"] None) g in
  let g := CFG.append_vertex empty_pre_loop_vertex g in
  let g := CFG.append_vertex empty_post_loop_vertex g in
  g ← link_all (CondFormula (Test iter)) "loop" (current_vertices ls)
        empty_pre_loop_vertex g;
  Ok (empty_pre_loop_vertex, empty_post_loop_vertex, g).

(** The [loop-skip] edge; it is not recorded in [self.edges]. *)
Definition loop_skip_edge (iter : expr) (pre post : vertex_ref) (g : CFG.t)
  : result CFG.t :=
  skip_edge ← CFGEdge.__init__ (CondFormula (LNot iter)) (IStr "loop-skip") [];
  let '(e, g) := CFG.new_edge skip_edge g in
  let g := CFG.add_outgoing_edge pre e g in
  Ok (CFG.set_target_state e post g).

(** The end of a [for]: the edges leaving the body, then the skip
    edge. *)
Definition loop_tail (entry : stmt) (iter : expr) (body : list stmt)
    (pre post : vertex_ref) (final_vertices : list vertex_ref)
    (additional : option (list string)) (ls : locals) (g : CFG.t) : result state :=
  first ← first_statement body;
  let g := CFG.append_branch_initial_statement (BisLoop first entry) g in
  g ← for_each (fun g final_vertex =>
         g ← control_edge (CondStr "loop-jump") "loop-jump" final_vertex pre g;
         control_edge (CondStr "post-loop") "post-loop" final_vertex post g)
        final_vertices g;
  g ← loop_skip_edge iter pre post g;
  Ok (mk_locals (condition ls ++ [Tag "skip-for-loop"]) [post] 0 additional, g).

(** The back edges of a [while]. *)
Definition while_tail (final_vertices : list vertex_ref) (ls : locals) (g : CFG.t)
  : result state :=
  g ← for_each (fun g final_vertex =>
         for_each (fun g base_vertex =>
             control_edge (CondStr "for") "loop-jump" final_vertex base_vertex g)
           (current_vertices ls) g)
        final_vertices g;
  Ok (mk_locals (condition ls) final_vertices (S (path_length ls))
        (additional_input_variables ls), g).

Definition is_nil {A : Type} (l : list A) : bool :=
  match l with [] => true | _ => false end.

Section process_block.

(** The body of the loop over the block: [is_last] tells whether
    the entry is the last of its block, the second argument is
    [input_variables_copy]. *)
Variable process_entry : bool -> list string -> stmt -> state -> result state.

Fixpoint process_entries (input_variables_copy : list string)
    (block : list stmt) (st : state) : result state :=
  match block with
  | [] => Ok st
  | entry :: rest =>
      st' ← process_entry (is_nil rest) input_variables_copy entry st;
      process_entries input_variables_copy rest st'
  end.

Definition process_block_with (block : list stmt)
    (starting_vertices : option (list vertex_ref)) (condition : list formula)
    (input_variables : list string) (g : CFG.t)
  : result (list vertex_ref * CFG.t) :=
  let start :=
    match starting_vertices with
    | Some vs => vs
    | None => [CFG.starting_vertices g]
    end in
  '(ls, g) ← process_entries input_variables block
                (mk_locals condition start 0 None, g);
  Ok (current_vertices ls, g).

End process_block.


(** [self.return_statements.append(new_vertex)], the vertex being
    the current one. *)
Definition log_return (st : state) : state :=
  let '(ls, g) := st in
  (ls, foldl (fun g v => CFG.append_return_statement v g) g (current_vertices ls)).

(** One round of the loop of [process_block].  The pairs of an [if]
    are taken in the order of the [while] that flattens its [elif]
    chain: pair [n] has the conditions [conds]; [ccs] is
    [current_condition_set] after it. *)
Fixpoint process_entry (is_last : bool) (input_variables_copy : list string)
    (entry : stmt) (st : state) {struct entry} : result state :=
  match entry with
  | Assign _ _ | Expr (Call _ _) =>
      straight_line entry (CFG.reference_variables (snd st)) input_variables_copy st
  | Pass | Raise _ => straight_line entry [] input_variables_copy st
  | Return _ =>
      st ← straight_line entry [] input_variables_copy st;
      Ok (log_return st)
  | If test _ _ =>
      let '(ls, g) := st in
      '(head, g) ← conditional_head entry is_last ls g;
      '(final_conditional_vertices, n_pairs, final_else_is_present, g) ←
        (fix branches (head : vertex_ref) (input_variables_copy : list string)
           (n : nat) (conds ccs : list formula)
           (current_conditional : stmt) (finals : list vertex_ref) (g : CFG.t)
           {struct current_conditional}
         : result (list vertex_ref * nat * bool * CFG.t) :=
         match current_conditional with
         | If _ body orelse =>
             '(final_vertices, g) ←
               process_block_with process_entry body (Some [head]) conds
                 input_variables_copy g;
             first ← first_statement body;
             let g := CFG.append_branch_initial_statement (BisConditional first n) g in
             let finals := finals ++ final_vertices in
             match orelse with
             | [] => Ok (finals, S n, false, g)
             | (If test' _ _ as next) :: _ =>
                 branches head input_variables_copy (S n) (ccs ++ [Test test'])
                   (ccs ++ [LNot test']) next finals g
             | _ :: _ =>
                 '(final_vertices, g) ←
                   process_block_with process_entry orelse (Some [head]) ccs
                     input_variables_copy g;
                 first ← first_statement orelse;
                 let g := CFG.append_branch_initial_statement
                            (BisConditional first (S n)) g in
                 Ok (finals ++ final_vertices, S (S n), true, g)
             end
         | _ => Ok (finals, n, false, g)
         end) head input_variables_copy 0 [Test test] [LNot test] entry [] g;
    conditional_merge entry head final_conditional_vertices
        final_else_is_present n_pairs ls g
  | Try body handlers =>
      let '(ls, g) := st in
      '(head, g) ← try_head entry body handlers is_last ls g;
      '(final_try_catch_vertices, g) ←
        process_block_with process_entry body (Some [head]) [Tag "try-catch-main"]
          input_variables_copy g;
      '(final_try_catch_vertices, g) ←
        (fix handler_blocks (head : vertex_ref) (input_variables_copy : list string)
           (blocks : list (list stmt)) (finals : list vertex_ref)
           (g : CFG.t) {struct blocks} : result (list vertex_ref * CFG.t) :=
         match blocks with
         | [] => Ok (finals, g)
         | block_item :: rest =>
             '(final_vertices, g) ←
               process_block_with process_entry block_item (Some [head])
                 [Tag "try-catch-handler"] input_variables_copy g;
             handler_blocks head input_variables_copy rest (finals ++ final_vertices) g
         end) head input_variables_copy handlers final_try_catch_vertices g;
    try_merge head final_try_catch_vertices ls g
  | For target iter body =>
      let '(ls, g) := st in
      '(pre, post, g) ← loop_head iter ls g;
      additional ← loop_input_variables target (additional_input_variables ls);
      extra ← match additional with
              | Some l => Ok l
              | None => Exc UnboundLocalError
              end;
      '(final_vertices, g) ←
        process_block_with process_entry body (Some [pre]) [Tag "enter-loop"]
          (input_variables_copy ++ extra) g;
      loop_tail entry iter body pre post final_vertices additional ls g
  | While _ body =>
      let '(ls, g) := st in
      '(final_vertices, g) ←
        process_block_with process_entry body (Some (current_vertices ls))
          [Tag "while"] input_variables_copy g;
      while_tail final_vertices ls g
  | Expr _ | OtherStmt _ => Ok st
  end.

(** [CFG.process_block(block, starting_vertices, condition,
    input_variables)]: the final vertices and the graph after the
    call. *)
Definition process_block (block : list stmt)
    (starting_vertices : option (list vertex_ref)) (condition : list formula)
    (input_variables : list string) (g : CFG.t)
  : result (list vertex_ref * CFG.t) :=
  process_block_with process_entry block starting_vertices condition
    input_variables g.

End builder.


(** *** [CFG.derive_grammar] *)

(** Symbols are edges (terminals), vertices (non-terminals) or
    [None], the empty string. *)
Inductive symbol :=
| SEdge (e : edge_ref)
| SVertex (v : vertex_ref)
| SNone.

(** A dict from vertices to rules; it is written and read by key
    only. *)
Definition grammar : Type := list (vertex_ref * list (list symbol)).

Fixpoint grammar_set (vertex : vertex_ref) (rules : list (list symbol))
    (final_map : grammar) : grammar :=
  match final_map with
  | [] => [(vertex, rules)]
  | (k, r) :: m =>
      if decide (k = vertex) then (k, rules) :: m
      else (k, r) :: grammar_set vertex rules m
  end.

Definition grammar_get (vertex : vertex_ref) (final_map : grammar)
  : option (list (list symbol)) :=
  snd <$> List.find (fun p => Nat.eqb (fst p) vertex) final_map.

(** References held by a graph are valid; the default is never
    met. *)
Definition vertex_at (g : CFG.t) (v : vertex_ref) : CFGVertex.t :=
  default (CFGVertex.synthetic [] None) (CFG.vertex_store g !! v).

(** [edge._target_state]; reading an attribute of [None] is an
    [AttributeError]. *)
Definition target_state (g : CFG.t) (edge : edge_ref) : result vertex_ref :=
  match CFG.edge_store g !! edge with
  | Some e =>
      match CFGEdge._target_state e with
      | Some v => Ok v
      | None => Exc AttributeError
      end
  | None => Exc AttributeError
  end.

(** [edge._target_state._name_changed] *)
Definition target_name (g : CFG.t) (edge : edge_ref)
  : result (list (option string)) :=
  v ← target_state g edge;
  Ok (CFGVertex._name_changed (vertex_at g v)).

#[export] Instance name_eq_dec : EqDecision (list (option string)).
Proof. solve_decision. Defined.

Definition name_is (a b : list (option string)) : bool := bool_decide (a = b).

Definition name_in (a : list (option string)) (l : list (list (option string))) : bool :=
  existsb (name_is a) l.

(** [list(filter(lambda edge: p(edge._target_state._name_changed),
    edges))[0]] *)
Definition first_edge_where (g : CFG.t) (p : list (option string) -> bool)
    (edges : list edge_ref) : result edge_ref :=
  flags ← map_each (fun e => n ← target_name g e; Ok (e, p n)) edges;
  match List.filter snd flags with
  | (e, _) :: _ => Ok e
  | [] => Exc IndexError
  end.

(** [edges[i]] *)
Definition edge_at (edges : list edge_ref) (i : nat) : result edge_ref :=
  match edges !! i with
  | Some e => Ok e
  | None => Exc IndexError
  end.

Definition conditional_name := [Some "conditional"].
Definition loop_name := [Some "loop"].
Definition try_catch_name := [Some "try-catch"].
Definition post_conditional_name := [Some "post-conditional"].
Definition post_loop_name := [Some "post-loop"].
Definition post_try_catch_name := [Some "post-try-catch"].

(** [[e, e._target_state]] unless the target is one of [ends], then
    [[e]]. *)
Definition plain_rule (g : CFG.t) (ends : list (list (option string)))
    (e : edge_ref) : result (list symbol) :=
  t ← target_state g e;
  if name_in (CFGVertex._name_changed (vertex_at g t)) ends
  then Ok [SEdge e]
  else Ok [SEdge e; SVertex t].

(** The rule with the merge vertex of a head, when it has one. *)
Definition head_rule (e0 : edge_ref) (t0 : vertex_ref)
    (merge : option (option vertex_ref)) : result (list (list symbol)) :=
  match merge with
  | None => Exc AttributeError
  | Some (Some post) => Ok [[SEdge e0; SVertex t0; SVertex post]]
  | Some None => Ok [[SEdge e0; SVertex t0]]
  end.

(** The body of the loop of [derive_grammar]: the rules of one
    vertex. *)
Definition rules_of (g : CFG.t) (vertex : vertex_ref) : result (list (list symbol)) :=
  let v := vertex_at g vertex in
  let edges := CFGVertex.edges v in
  let name := CFGVertex._name_changed v in
  if Nat.eqb (length edges) 0 then Ok [[SNone]]
  else if negb (name_in name [conditional_name; loop_name; try_catch_name;
                              post_conditional_name; post_loop_name;
                              post_try_catch_name]) then
    e0 ← edge_at edges 0;
    t0 ← target_state g e0;
    let n0 := CFGVertex._name_changed (vertex_at g t0) in
    if negb (name_in n0 [conditional_name; try_catch_name]) then
      if name_in n0 [post_conditional_name; post_try_catch_name] then Ok [[SEdge e0]]
      else
        to_post_loop ← map_each (fun e => n ← target_name g e;
                                           Ok (name_is n post_loop_name)) edges;
        if existsb id to_post_loop then
          reloop_edge ← first_edge_where g (fun n => name_is n loop_name) edges;
          loop_skip_edge ← first_edge_where g (fun n => negb (name_is n loop_name)) edges;
          t ← target_state g reloop_edge;
          Ok [[SEdge reloop_edge; SVertex t]; [SEdge loop_skip_edge]]
        else if name_is n0 loop_name then
          e ← first_edge_where g (fun n => name_is n post_loop_name)
                (CFGVertex.edges (vertex_at g t0));
          post_loop_vertex ← target_state g e;
          Ok [[SEdge e0; SVertex t0; SVertex post_loop_vertex]]
        else
          r ← plain_rule g [post_conditional_name; post_loop_name;
                            post_try_catch_name] e0;
          Ok [r]
    else if name_is n0 conditional_name then
      head_rule e0 t0 (CFGVertex.post_conditional_vertex (vertex_at g t0))
    else
      head_rule e0 t0 (CFGVertex.post_try_catch_vertex (vertex_at g t0))
  else if name_is name loop_name then
    loop_skip_edge ← first_edge_where g (fun n => name_is n post_loop_name) edges;
    loop_entry_edge ← first_edge_where g (fun n => negb (name_is n post_loop_name)) edges;
    t ← target_state g loop_entry_edge;
    Ok [[SEdge loop_skip_edge]; [SEdge loop_entry_edge; SVertex t]]
  else if name_in name [conditional_name; try_catch_name] then
    map_each (plain_rule g [post_conditional_name]) edges
  else if name_is name post_conditional_name then
    e0 ← edge_at edges 0;
    t0 ← target_state g e0;
    let n0 := CFGVertex._name_changed (vertex_at g t0) in
    if name_is n0 loop_name then
      e1 ← edge_at edges 1;
      Ok [[SEdge e0; SVertex t0]; [SEdge e1]]
    else if name_is n0 post_conditional_name then Ok [[SEdge e0]]
    else Ok [[SEdge e0; SVertex t0]]
  else
    e0 ← edge_at edges 0;
    r ← plain_rule g [post_conditional_name; post_loop_name; post_try_catch_name] e0;
    Ok [r].

Definition derive_grammar (g : CFG.t) : result grammar :=
  for_each (fun final_map vertex =>
      rules ← rules_of g vertex;
      Ok (grammar_set vertex rules final_map))
    (CFG.vertices g) [].

(** *** [next_calls] *)

(** The two lists that [next_calls] appends to: those the caller
    passes or, when it passes none, the default lists of the
    function, which are made once and live as long as the module.
    [None] can be marked: the function marks what it is given before
    it reads its edges. *)
Record search := mk_search {
  calls : list edge_ref;
  marked_vertices : list (option vertex_ref)
}.

Section next_calls.

Context {order : HashOrder}.

(** The test on [edge._instruction]: an expression statement whose
    value has a [func], or an assignment of a call, that names
    [function]. *)
Definition models_call (function : string) (instruction : instruction)
  : result bool :=
  match instruction with
  | IStmt (Expr (Call _ _ as value)) | IStmt (Assign _ (Call _ _ as value)) =>
      names ← get_function_name_strings value;
      Ok (bool_decide (function ∈ names))
  | _ => Ok false
  end.

(** The loop over [vertex.edges]; [visit] is the recursive call.  The
    lists are objects, so what was appended before an exception
    stays.  A reference to no edge object, which no graph built by
    [process_block] holds, has no [_instruction]. *)
Fixpoint next_calls_loop
    (visit : option vertex_ref -> search -> option (search * result unit))
    (g : CFG.t) (function : string) (edges : list edge_ref) (st : search)
  : option (search * result unit) :=
  match edges with
  | [] => Some (st, Ok tt)
  | edge :: rest =>
      match CFG.edge_store g !! edge with
      | None => Some (st, Exc AttributeError)
      | Some e =>
          match models_call function (CFGEdge._instruction e) with
          | Ok true =>
              next_calls_loop visit g function rest
                (mk_search (calls st ++ [edge]) (marked_vertices st))
          | Ok false =>
              match visit (CFGEdge._target_state e) st with
              | Some (st, Ok _) => next_calls_loop visit g function rest st
              | stopped => stopped
              end
          | Exc err => Some (st, Exc err)
          | Loops => Some (st, Loops)
          end
      end
  end.

(** [next_calls] with a bound on the depth of the recursion; without
    a result when the bound is met.  An edge without a target leads
    to [None], which has no [edges]. *)
Fixpoint next_calls_within (depth : nat) (g : CFG.t) (vertex : option vertex_ref)
    (function : string) (st : search) : option (search * result unit) :=
  if bool_decide (vertex ∈ marked_vertices st) then Some (st, Ok tt)
  else
    match depth with
    | 0 => None
    | S depth =>
        let st := mk_search (calls st) (marked_vertices st ++ [vertex]) in
        match vertex with
        | None => Some (st, Exc AttributeError)
        | Some v =>
            next_calls_loop
              (fun target st => next_calls_within depth g target function st)
              g function (CFGVertex.edges (vertex_at g v)) st
        end
    end.

(** The recursion goes no deeper than the graph has edges: each call
    that goes on marks one more target. *)
Definition next_calls (g : CFG.t) (vertex : option vertex_ref) (function : string)
    (st : search) : option (search * result unit) :=
  next_calls_within (S (length (CFG.edge_store g))) g vertex function st.

End next_calls.

End construction.

(** ** init_verification.py: the event consumer *)

Module init_verification.

(** *** Values carried by events *)

(** The values the consumer handles without looking inside, except
    for [isoformat], which only a [datetime] has. *)
Inductive value :=
| VNone
| VInt (z : Z)
| VStr (s : string)
| VDatetime (t : Z).

(** [obj.isoformat()]; the text of a [datetime] is kept as its
    instant. *)
Definition isoformat (obj : value) : result Z :=
  match obj with
  | VDatetime t => Ok t
  | _ => Exc AttributeError
  end.

(** *** Dictionaries, in insertion order *)

Section dict.
Context {K V : Type} `{EqDecision K}.

Fixpoint dict_get (k : K) (d : list (K * V)) : option V :=
  match d with
  | [] => None
  | (k', v) :: d' => if decide (k' = k) then Some v else dict_get k d'
  end.

(** [d[k]] *)
Definition dict_getitem (k : K) (d : list (K * V)) : result V :=
  match dict_get k d with
  | Some v => Ok v
  | None => Exc KeyError
  end.

(** [d[k] = v] *)
Fixpoint dict_set (k : K) (v : V) (d : list (K * V)) : list (K * V) :=
  match d with
  | [] => [(k, v)]
  | (k', v') :: d' =>
      if decide (k' = k) then (k, v) :: d' else (k', v') :: dict_set k v d'
  end.
End dict.

(** [l.index(x)] *)
Fixpoint list_index {A : Type} `{EqDecision A} (x : A) (l : list A) : result nat :=
  match l with
  | [] => Exc ValueError
  | y :: l' => if decide (y = x) then Ok 0 else n ← list_index x l'; Ok (S n)
  end.

(** [l[i]] *)
Definition list_getitem {A : Type} (l : list A) (i : nat) : result A :=
  match l !! i with
  | Some x => Ok x
  | None => Exc IndexError
  end.

(** *** The formula module and the verdict report

    Modelled from the spec: the [formula_tree] module and the
    monitors it builds are not part of the sources at hand.  A
    monitor exposes the attributes the consumer reads and writes;
    what the module computes is an operation of the class below. *)

Section monitors.

Context {atom : Type}.

(** A key of [_state._state]: the dict is documented as keyed by
    atom index; the consumer also subscripts it with an atom. *)
Inductive state_key :=
| KIndex (atom_index : nat)
| KAtom (a : atom).

Record monitor := mk_monitor {
  _formula_verdict : option bool;
  _state : list (state_key * option bool);
  _monitor_instantiation_time : list nat;
  atom_to_observation : list (nat * list (nat * value));
  atom_to_program_path : list (nat * list (nat * nat));
  atom_to_state_dict : list (nat * list (nat * value));
  collapsing_atom_index : option nat;
  collapsing_atom_sub_index : option nat
}.

Definition set_instantiation_time (t : list nat) (m : monitor) : monitor :=
  mk_monitor (_formula_verdict m) (_state m) t (atom_to_observation m)
    (atom_to_program_path m) (atom_to_state_dict m)
    (collapsing_atom_index m) (collapsing_atom_sub_index m).

Definition set_slots (obs : list (nat * list (nat * value)))
    (paths : list (nat * list (nat * nat)))
    (dicts : list (nat * list (nat * value))) (m : monitor) : monitor :=
  mk_monitor (_formula_verdict m) (_state m) (_monitor_instantiation_time m)
    obs paths dicts (collapsing_atom_index m) (collapsing_atom_sub_index m).

End monitors.

Arguments state_key : clear implicits.
Arguments monitor : clear implicits.

#[export] Instance state_key_eq_dec {atom : Type} `{EqDecision atom}
  : EqDecision (state_key atom).
Proof. solve_decision. Defined.

Class FormulaModule := {
  atom : Type;
  variable : Type;
  atom_eq_dec :: EqDecision atom;
  variable_eq_dec :: EqDecision variable;
  (** the type of [formula_structure], with its atoms and bind
      variables *)
  formula : Type;
  _formula_atoms : formula -> list atom;
  _bind_variables : formula -> list variable;
  (** [new_monitor(formula_structure.get_formula_instance())] *)
  new_monitor : formula -> monitor atom;
  is_logical_not : atom -> bool;
  is_mixed_atom : atom -> bool;
  (** [get_base_variable]: a variable, or a list of them for a mixed
      atom *)
  get_base_variable : atom -> variable;
  get_base_variables : atom -> list variable;
  lnot : atom -> atom;
  check_optimised : atom -> monitor atom -> monitor atom;
  check_atom_truth_value : atom -> nat -> nat -> monitor atom -> monitor atom;
  process_atom_and_value :
    atom -> value -> value -> value -> nat -> nat -> nat -> nat -> option value ->
    monitor atom -> monitor atom
}.

(** Modelled from the spec: the verdict report is an accumulator from
    static binding index to the verdicts registered for it; a verdict
    is stamped with the time it is added. *)
Record verdict := mk_verdict {
  verdict_value : option bool;
  verdict_time : nat;
  verdict_observations : list (nat * list (nat * value));
  verdict_program_paths : list (nat * list (nat * nat));
  verdict_collapsing_atom_index : option nat;
  verdict_collapsing_atom_sub_index : option nat;
  verdict_state_dicts : list (nat * list (nat * value))
}.

Definition VerdictReport : Type := list (nat * list verdict).

(** [verdict_report.add_verdict(bind_space_index, ...)] *)
Definition add_verdict (bind_space_index : nat) (v : verdict)
    (report : VerdictReport) : VerdictReport :=
  match dict_get bind_space_index report with
  | Some ((_ :: _) as l) => dict_set bind_space_index (l ++ [v]) report
  | _ => dict_set bind_space_index [v] report
  end.

(** *** What reaches the verdict server *)

Record call_data := mk_call_data {
  cd_transaction_time : Z;
  cd_time_of_call : Z;
  cd_end_time_of_call : Z;
  cd_function_name : string;
  cd_program_path : list nat
}.

(** One request: the end point and the body sent to it. *)
Inductive post :=
| insert_function_call_data (d : call_data)
| register_verdicts (function_call_id function_id : value)
    (verdicts : list (nat * verdict)) (property_hash : string)
| insert_test_data (test_name test_result : string) (start_time end_time : Z).

(** What [json.loads] makes of the text of a response: a dict, or
    something else, which cannot be subscripted with a string. *)
Inductive answer :=
| Dict (d : list (string * value))
| NoDict.

(** A computation that sends requests and can raise: the requests
    handed to [requests.post], in their order; those handed over
    before an exception stay. *)
Definition io (A : Type) : Type := list post * result A.

#[export] Instance io_ret : MRet io := fun A a => ([], Ok a).

#[export] Instance io_bind : MBind io := fun A B f m =>
  match m with
  | (l, Ok a) => let '(l', r) := f a in (l ++ l', r)
  | (l, Exc e) => (l, Exc e)
  | (l, Loops) => (l, Loops)
  end.

Definition lift {A : Type} (r : result A) : io A := ([], r).

Definition requests_post (p : post) : io unit := ([p], Ok tt).

Fixpoint io_for_each {A S : Type} (f : S -> A -> io S) (l : list A) (s : S) : io S :=
  match l with
  | [] => mret s
  | x :: l' => s' ← f s x; io_for_each f l' s'
  end.

(** [p in s] on strings *)
Fixpoint substring_in (p s : string) : bool :=
  String.prefix p s ||
  match s with
  | EmptyString => false
  | String _ s' => substring_in p s'
  end.

(** *** Events

    An event is a tuple whose first element selects the handler; the
    constructors are the shapes of tuple the consumer recognises,
    with their fields in tuple order. *)
Inductive event :=
| EndMonitoring
| InactiveMonitoringStart
| InactiveMonitoringStop
| TestTransaction (tx : value)
| Function (property_hash_list : list string) (function_name : string)
    (scope : string) (timestamp : value)
| Trigger (property_hash function_name : string)
    (static_qd_index bind_variable_index : nat)
| Path (property_hash function_name : string) (branch_label : nat)
| Instrument (property_hash function_name : string)
    (static_qd_indices : list nat) (atom_index atom_sub_index : nat)
    (instrumentation_point_db_ids : list nat)
    (observation_time observation_end_time observed_value : value)
    (thread_id : nat) (state_dict : option value)
| TestStatus (property_hash function_name : string) (failures errors : bool)
    (start_test_time end_test_time : value) (test_name : string)
| Other (property_hash instrument_type function_name : string).

(** *** The consumer *)

Section consumer.

Context `{FormulaModule}.

(** The module-level [TEST_FRAMEWORK]. *)
Variable TEST_FRAMEWORK : string.

(** The verdict server: what [json.loads(requests.post(...).text)]
    gives for a request, a parsed answer or the exception of
    [requests.post] or of [json.loads]. *)
Variable verdict_server : post -> result answer.

(** [insertion_data[key]] *)
Definition answer_getitem (a : answer) (key : string) : result value :=
  match a with
  | Dict d => dict_getitem key d
  | NoDict => Exc TypeError
  end.

Record PropertyMapGroup := mk_maps {
  formula_structure : formula;
  static_qd_to_monitors : list (nat * list (monitor atom));
  verdict_report : VerdictReport;
  latest_time_of_call : value;
  program_path : list nat
}.

(** The local variables of [consumption_thread_function] that live
    across rounds of its loop, the maps of the verification object
    and the clock.  [maps] refers to a [PropertyMapGroup] by the
    keys under which [function_to_maps] holds it; it and
    [atom_sub_index] are unbound until a handler assigns them. *)
Record consumer := mk_consumer {
  INACTIVE_MONITORING : bool;
  transaction : value;
  continue_monitoring : bool;
  maps : option (string * string);
  atom_sub_index : option nat;
  function_to_maps : list (string * list (string * PropertyMapGroup));
  clock : nat
}.

(** The state in which the thread starts. *)
Definition start (function_to_maps : list (string * list (string * PropertyMapGroup)))
  : consumer :=
  mk_consumer false (VInt (-1)) true None None function_to_maps 0.

(** [datetime.datetime.now()]: the next reading of the clock. *)
Definition now (c : consumer) : nat * consumer :=
  (clock c,
   mk_consumer (INACTIVE_MONITORING c) (transaction c) (continue_monitoring c)
     (maps c) (atom_sub_index c) (function_to_maps c) (S (clock c))).

Definition set_control (inactive : bool) (tx : value) (continue : bool)
    (c : consumer) : consumer :=
  mk_consumer inactive tx continue (maps c) (atom_sub_index c)
    (function_to_maps c) (clock c).

Definition set_atom_sub_index (i : nat) (c : consumer) : consumer :=
  mk_consumer (INACTIVE_MONITORING c) (transaction c) (continue_monitoring c)
    (maps c) (Some i) (function_to_maps c) (clock c).

(** [verification_obj.function_to_maps[function_name][property_hash]] *)
Definition get_maps (function_name property_hash : string) (c : consumer)
  : result PropertyMapGroup :=
  groups ← dict_getitem function_name (function_to_maps c);
  dict_getitem property_hash groups.

(** [maps = verification_obj.function_to_maps[function_name][property_hash]] *)
Definition bind_maps (function_name property_hash : string) (c : consumer)
  : result (PropertyMapGroup * consumer) :=
  m ← get_maps function_name property_hash c;
  Ok (m, mk_consumer (INACTIVE_MONITORING c) (transaction c)
           (continue_monitoring c) (Some (function_name, property_hash))
           (atom_sub_index c) (function_to_maps c) (clock c)).

(** A write through a reference to a [PropertyMapGroup]. *)
Definition put_maps (function_name property_hash : string) (m : PropertyMapGroup)
    (c : consumer) : consumer :=
  let groups := default [] (dict_get function_name (function_to_maps c)) in
  mk_consumer (INACTIVE_MONITORING c) (transaction c) (continue_monitoring c)
    (maps c) (atom_sub_index c)
    (dict_set function_name (dict_set property_hash m groups) (function_to_maps c))
    (clock c).

(** *** [send_function_call_data] and [send_verdict_report] *)

Definition send_function_call_data (function_name : string)
    (time_of_call end_time_of_call : value) (program_path : list nat)
    (transaction_time : value) : io answer :=
  tt' ← lift (isoformat transaction_time);
  tc ← lift (isoformat time_of_call);
  te ← lift (isoformat end_time_of_call);
  let d := mk_call_data tt' tc te function_name program_path in
  _ ← requests_post (insert_function_call_data d);
  lift (verdict_server (insert_function_call_data d)).

(** The request body lists the verdicts index by index; the answer
    is not read, and an exception of the request is caught and
    logged. *)
Definition send_verdict_report (verdict_report : VerdictReport)
    (property_hash : string) (function_id function_call_id : value) : io unit :=
  let verdict_dict_list :=
    flat_map (fun '(bind_space_index, verdict_list) =>
                map (fun v => (bind_space_index, v)) verdict_list)
      verdict_report in
  requests_post
    (register_verdicts function_call_id function_id verdict_dict_list property_hash).

(** *** The handlers *)

(** The verdicts of the monitors that have a collapsing atom. *)
Definition register_verdicts_of (static_qd_to_monitors : list (nat * list (monitor atom)))
    (st : VerdictReport * consumer) : VerdictReport * consumer :=
  foldl (fun st '(static_qd_index, monitors) =>
      foldl (fun '(report, c) m =>
          match collapsing_atom_index m with
          | Some i =>
              let '(t, c) := now c in
              (add_verdict static_qd_index
                 (mk_verdict (_formula_verdict m) t (atom_to_observation m)
                    (atom_to_program_path m) (Some i)
                    (collapsing_atom_sub_index m) (atom_to_state_dict m))
                 report, c)
          | None => (report, c)
          end)
        st monitors)
    st static_qd_to_monitors.

(** [keys()[0]] *)
Definition first_key {V : Type} (d : list (string * V)) : result string :=
  match d with
  | (k, _) :: _ => Ok k
  | [] => Exc IndexError
  end.

(** A function event with scope ["end"]; [top_pair_3] is the
    fourth element of the tuple, the scope, and [top_pair_last] its
    last, the timestamp. *)
Definition function_end (property_hash_list : list string) (function_name : string)
    (top_pair_3 top_pair_last : value) (c : consumer) : io consumer :=
  groups ← lift (dict_getitem function_name (function_to_maps c));
  k ← lift (first_key groups);
  first ← lift (dict_getitem k groups);
  let transaction_time :=
    if substring_in "yes" TEST_FRAMEWORK then transaction c else top_pair_3 in
  insertion_data ←
    send_function_call_data function_name (latest_time_of_call first)
      top_pair_last (program_path first) transaction_time;
  io_for_each (fun c property_hash =>
      '(m, c) ← lift (bind_maps function_name property_hash c);
      let '(report, c) :=
        register_verdicts_of (static_qd_to_monitors m) (verdict_report m, c) in
      function_id ← lift (answer_getitem insertion_data "function_id");
      function_call_id ← lift (answer_getitem insertion_data "function_call_id");
      _ ← send_verdict_report report property_hash function_id function_call_id;
      mret (put_maps function_name property_hash
              (mk_maps (formula_structure m) [] [] VNone (program_path m)) c))
    property_hash_list c.

(** A function event with scope ["start"]. *)
Definition function_start (property_hash_list : list string) (function_name : string)
    (timestamp : value) (c : consumer) : result consumer :=
  c ← for_each (fun c property_hash =>
         '(m, c) ← bind_maps function_name property_hash c;
         Ok (put_maps function_name property_hash
               (mk_maps (formula_structure m) [] [] timestamp (program_path m)) c))
        property_hash_list c;
  (* after the loop, through whatever [maps] refers to *)
  match maps c with
  | None => Exc UnboundLocalError
  | Some (f, h) =>
      m ← get_maps f h c;
      Ok (put_maps f h
            (mk_maps (formula_structure m) (static_qd_to_monitors m)
               (verdict_report m) (latest_time_of_call m) []) c)
  end.

(** *** Triggers *)

(** [d[atom_index][sub_index] = s[atom_index][sub_index]]: the
    right-hand side is read first. *)
Definition copy_slot {V : Type} (atom_index sub_index : nat)
    (s d : list (nat * list (nat * V))) : result (list (nat * list (nat * V))) :=
  src ← dict_getitem atom_index s;
  x ← dict_getitem sub_index src;
  dst ← dict_getitem atom_index d;
  Ok (dict_set atom_index (dict_set sub_index x dst) d).

(** Copy the observation, the program path and the state dict of
    one slot from [m] to [new_monitor]. *)
Definition copy_slots (atom_index sub_index : nat) (m new_monitor : monitor atom)
  : result (monitor atom) :=
  obs ← copy_slot atom_index sub_index (atom_to_observation m)
           (atom_to_observation new_monitor);
  paths ← copy_slot atom_index sub_index (atom_to_program_path m)
             (atom_to_program_path new_monitor);
  dicts ← copy_slot atom_index sub_index (atom_to_state_dict m)
             (atom_to_state_dict new_monitor);
  Ok (set_slots obs paths dicts new_monitor).

(** [if not(new_monitor.atom_to_observation.get(atom_index))]: set
    up empty dicts under [atom_index]. *)
Definition set_up_keys (atom_index : nat) (new_monitor : monitor atom) : monitor atom :=
  match dict_get atom_index (atom_to_observation new_monitor) with
  | Some (_ :: _) => new_monitor
  | _ =>
      set_slots (dict_set atom_index [] (atom_to_observation new_monitor))
        (dict_set atom_index [] (atom_to_program_path new_monitor))
        (dict_set atom_index [] (atom_to_state_dict new_monitor)) new_monitor
  end.

(** The body of the loop over the keys of [monitor._state._state]
    when a monitor is cloned for bind variable
    [bind_variable_index]. *)
Definition copy_atom (formula_structure : formula) (bind_variable_index : nat)
    (atom_sub_index : option nat) (m : monitor atom)
    (new_monitor : monitor atom) (key : state_key atom) : result (monitor atom) :=
  atom_index ← match key with
               | KIndex i => Ok i
               | KAtom _ => Exc TypeError
               end;
  a ← list_getitem (_formula_atoms formula_structure) atom_index;
  if is_logical_not a then Ok new_monitor
  else if is_mixed_atom a then
    let base_variables := get_base_variables a in
    flags ← map_each (fun var =>
               n ← list_index var (_bind_variables formula_structure);
               Ok (var, Nat.ltb n bind_variable_index))
             base_variables;
    let relevant_base_variables := map fst (List.filter snd flags) in
    relevant_sub_indices ←
      map_each (fun var => list_index var base_variables) relevant_base_variables;
    new_monitor ←
      for_each (fun new_monitor sub_index =>
          copy_slots atom_index sub_index m (set_up_keys atom_index new_monitor))
        relevant_sub_indices new_monitor;
    sub ← match atom_sub_index with
          | Some i => Ok i
          | None => Exc UnboundLocalError
          end;
    Ok (check_atom_truth_value a atom_index sub new_monitor)
  else
    n ← list_index (get_base_variable a) (_bind_variables formula_structure);
    if Nat.ltb n bind_variable_index then
      (* [monitor._state._state[atom]] *)
      by_atom ← dict_getitem (KAtom a) (_state m);
      match by_atom with
      | None => Ok new_monitor
      | Some _ =>
          truth ← dict_getitem key (_state m);
          let new_monitor :=
            match truth with
            | Some true => check_optimised a new_monitor
            | Some false => check_optimised (lnot a) new_monitor
            | None => new_monitor
            end in
          copy_slots atom_index 0 m new_monitor
      end
    else Ok new_monitor.

(** The local variables of the loop over the monitors of a
    bucket. *)
Record trigger_loop := mk_trigger_loop {
  bucket : list (monitor atom);
  new_monitors : list (monitor atom);
  subsequences_processed : list (list nat);
  trigger_consumer : consumer
}.

(** The body of that loop.  A monitor with a timestamp for the bind
    variable is cloned, once per prefix; one without is advanced in
    place. *)
Definition trigger_monitor (formula_structure : formula)
    (bind_variable_index : nat) (st : trigger_loop) (m : monitor atom)
  : result trigger_loop :=
  let c := trigger_consumer st in
  let times := _monitor_instantiation_time m in
  if Nat.eqb (length times) (bind_variable_index + 1) then
    let prefix := take bind_variable_index times in
    if bool_decide (prefix ∈ subsequences_processed st) then
      Ok (mk_trigger_loop (bucket st ++ [m]) (new_monitors st)
            (subsequences_processed st) c)
    else
      let '(t, c) := now c in
      let updated_instantiation_time := prefix ++ [t] in
      let new_monitor :=
        set_instantiation_time updated_instantiation_time
          (new_monitor formula_structure) in
      new_monitor ←
        for_each (copy_atom formula_structure bind_variable_index
                    (atom_sub_index c) m)
          (map fst (_state m)) new_monitor;
      Ok (mk_trigger_loop (bucket st ++ [m]) (new_monitors st ++ [new_monitor])
            (subsequences_processed st ++ [prefix]) c)
  else if Nat.eqb (length times) bind_variable_index then
    let '(t, c) := now c in
    Ok (mk_trigger_loop (bucket st ++ [set_instantiation_time (times ++ [t]) m])
          (new_monitors st) (subsequences_processed st) c)
  else
    Ok (mk_trigger_loop (bucket st ++ [m]) (new_monitors st)
          (subsequences_processed st) c).

Definition with_monitors (static_qd_to_monitors : list (nat * list (monitor atom)))
    (m : PropertyMapGroup) : PropertyMapGroup :=
  mk_maps (formula_structure m) static_qd_to_monitors (verdict_report m)
    (latest_time_of_call m) (program_path m).

(** A trigger event; [m] is the object [maps] refers to. *)
Definition trigger (function_name property_hash : string) (m : PropertyMapGroup)
    (static_qd_index bind_variable_index : nat) (c : consumer) : result consumer :=
  if Nat.eqb bind_variable_index 0 then
    let new_monitor := new_monitor (formula_structure m) in
    let monitors :=
      match dict_get static_qd_index (static_qd_to_monitors m) with
      | Some l => l ++ [new_monitor]
      | None => [new_monitor]
      end in
    Ok (put_maps function_name property_hash
          (with_monitors (dict_set static_qd_index monitors (static_qd_to_monitors m)) m)
          c)
  else
    monitors ← dict_getitem static_qd_index (static_qd_to_monitors m);
    st ← for_each (trigger_monitor (formula_structure m) bind_variable_index)
            monitors (mk_trigger_loop [] [] [] c);
    Ok (put_maps function_name property_hash
          (with_monitors
             (dict_set static_qd_index (bucket st ++ new_monitors st)
                (static_qd_to_monitors m)) m)
          (trigger_consumer st)).

(** *** Paths, observations and test results *)

Definition path (function_name property_hash : string) (m : PropertyMapGroup)
    (branch_label : nat) (c : consumer) : consumer :=
  put_maps function_name property_hash
    (mk_maps (formula_structure m) (static_qd_to_monitors m) (verdict_report m)
       (latest_time_of_call m) (program_path m ++ [branch_label])) c.

(** The body of the loop over [zip(static_qd_indices,
    instrumentation_point_db_ids)]. *)
Definition observe (atom_index atom_sub_index : nat)
    (observation_time observation_end_time observed_value : value)
    (state_dict : option value) (m : PropertyMapGroup)
    (values : nat * nat) : result PropertyMapGroup :=
  let '(static_qd_index, instrumentation_point_db_id) := values in
  instrumentation_atom ← list_getitem (_formula_atoms (formula_structure m)) atom_index;
  match dict_get static_qd_index (static_qd_to_monitors m) with
  | Some ((_ :: _) as monitors) =>
      Ok (with_monitors
            (dict_set static_qd_index
               (map (process_atom_and_value instrumentation_atom observation_time
                       observation_end_time observed_value atom_index atom_sub_index
                       instrumentation_point_db_id (length (program_path m))
                       state_dict)
                  monitors)
               (static_qd_to_monitors m)) m)
  | _ => Ok m
  end.

Definition instrument (function_name property_hash : string) (m : PropertyMapGroup)
    (static_qd_indices : list nat) (atom_index atom_sub_index : nat)
    (instrumentation_point_db_ids : list nat)
    (observation_time observation_end_time observed_value : value)
    (state_dict : option value) (c : consumer) : result consumer :=
  let c := set_atom_sub_index atom_sub_index c in
  m ← for_each (observe atom_index atom_sub_index observation_time
                  observation_end_time observed_value state_dict)
         (zip static_qd_indices instrumentation_point_db_ids) m;
  Ok (put_maps function_name property_hash m c).

Definition test_status (failures errors : bool)
    (start_test_time end_test_time : value) (test_name : string) : io unit :=
  let test_result :=
    if failures then "Fail" else if errors then "Error" else "Success" in
  ts ← lift (isoformat start_test_time);
  te ← lift (isoformat end_test_time);
  _ ← requests_post (insert_test_data test_name test_result ts te);
  _ ← lift (verdict_server (insert_test_data test_name test_result ts te));
  mret tt.

(** *** The loop *)

(** An event that belongs to one property: the maps are looked up
    first, then the instrument type is dispatched on. *)
Definition property_event (top_pair : event) (c : consumer) : io consumer :=
  match top_pair with
  | Trigger property_hash function_name static_qd_index bind_variable_index =>
      '(m, c) ← lift (bind_maps function_name property_hash c);
      lift (trigger function_name property_hash m static_qd_index
              bind_variable_index c)
  | Path property_hash function_name branch_label =>
      '(m, c) ← lift (bind_maps function_name property_hash c);
      mret (path function_name property_hash m branch_label c)
  | Instrument property_hash function_name static_qd_indices atom_index
      atom_sub_index instrumentation_point_db_ids observation_time
      observation_end_time observed_value _ state_dict =>
      '(m, c) ← lift (bind_maps function_name property_hash c);
      lift (instrument function_name property_hash m static_qd_indices atom_index
              atom_sub_index instrumentation_point_db_ids observation_time
              observation_end_time observed_value state_dict c)
  | TestStatus property_hash function_name failures errors start_test_time
      end_test_time test_name =>
      '(m, c) ← lift (bind_maps function_name property_hash c);
      _ ← test_status failures errors start_test_time end_test_time test_name;
      mret c
  | Other property_hash _ function_name =>
      '(m, c) ← lift (bind_maps function_name property_hash c);
      mret c
  | _ =>
      (* a one-element tuple: [top_pair[1:]] is empty *)
      lift (Exc IndexError)
  end.

(** One round of the [while] of [consumption_thread_function], for
    the event taken from the queue. *)
Definition step (c : consumer) (top_pair : event) : io consumer :=
  match top_pair with
  | EndMonitoring =>
      mret (set_control (INACTIVE_MONITORING c) (transaction c) false c)
  | _ =>
      if INACTIVE_MONITORING c then
        match top_pair with
        | InactiveMonitoringStop =>
            mret (set_control false (transaction c) (continue_monitoring c) c)
        | _ => mret c
        end
      else
        match top_pair with
        | InactiveMonitoringStart =>
            mret (set_control true (transaction c) (continue_monitoring c) c)
        | TestTransaction tx =>
            mret (set_control (INACTIVE_MONITORING c) tx (continue_monitoring c) c)
        | Function property_hash_list function_name scope_event timestamp =>
            if bool_decide (scope_event = "end") then
              function_end property_hash_list function_name (VStr scope_event)
                timestamp c
            else if bool_decide (scope_event = "start") then
              lift (function_start property_hash_list function_name timestamp c)
            else mret c
        | _ => property_event top_pair c
        end
  end.

(** The thread: events are taken from the queue while
    [continue_monitoring] holds.  With an empty queue the thread
    waits; the model stops there. *)
Fixpoint consumption_thread_function (queue : list event) (c : consumer)
  : io consumer :=
  if continue_monitoring c then
    match queue with
    | [] => mret c
    | top_pair :: queue' =>
        c' ← step c top_pair;
        consumption_thread_function queue' c'
    end
  else mret c.

End consumer.

(** *** [read_configuration]: the text that is parsed *)

(** [c.isspace()] on a byte string: tab to carriage return, and the
    space. *)
Definition isspace (c : ascii) : bool :=
  let n := nat_of_ascii c in
  (Nat.leb 9 n && Nat.leb n 13) || Nat.eqb n 32.

Fixpoint lstrip (s : string) : string :=
  match s with
  | String c s' => if isspace c then lstrip s' else s
  | EmptyString => s
  end.

(** [s.strip()] *)
Definition strip (s : string) : string :=
  String.rev (lstrip (String.rev (lstrip s))).

(** [s.startswith(p)] and [s.endswith(p)] *)
Definition startswith (s p : string) : bool := String.prefix p s.

Definition endswith (s p : string) : bool :=
  String.prefix (String.rev p) (String.rev s).

(** The body of the loop over the lines of the file, on [content]
    and [skip]. *)
Definition read_configuration_line (st : string * bool) (line : string)
  : string * bool :=
  let '(content, skip) := st in
  let li := strip line in
  let skip := if startswith li "/*" then true else skip in
  if endswith li "*/" then (content, false)
  else if negb (startswith li "#" || startswith li "//") && negb skip
       then (content +:+ line, skip)
       else (content, skip).

(** [content] after the loop, which [read_configuration] hands to
    [json.loads]; [lines] are the lines of the file, each with its
    line end. *)
Definition read_configuration_content (lines : list string) : string :=
  fst (foldl read_configuration_line ("", false) lines).

(** *** [Verification.__init__]: the configuration *)

(** A parsed configuration file. *)
#[warnings="-register-all"]
Inductive json :=
| JNull
| JBool (b : bool)
| JNumber (z : Z)
| JString (s : string)
| JArray (l : list json)
| JObject (l : list (string * json)).

(** The truth value of a configuration value under [if]. *)
Definition truthy (j : json) : bool :=
  match j with
  | JNull => false
  | JBool b => b
  | JNumber z => negb (Z.eqb z 0)
  | JString s => negb (String.eqb s "")
  | JArray l => negb (Nat.eqb (length l) 0)
  | JObject l => negb (Nat.eqb (length l) 0)
  end.

(** [conf.get(key) if conf.get(key) else default] *)
Definition get_or (key : string) (default : json) (conf : list (string * json)) : json :=
  match dict_get key conf with
  | Some v => if truthy v then v else default
  | None => default
  end.

Definition is_string (s : string) (j : json) : bool :=
  match j with
  | JString s' => String.eqb s' s
  | _ => false
  end.

Record settings := mk_settings {
  VERDICT_SERVER_URL : json;
  VYPR_OUTPUT_VERBOSE : json;
  PROJECT_ROOT : json;
  VYPR_MODULE : json;
  TEST_FRAMEWORK : json
}.

(** The start of [Verification.__init__], from the parsed
    configuration to the check of the test module.  [TEST_DIR] is
    not among the names declared [global]: it is a local variable of
    [__init__], bound only by the assignment under
    [if TEST_FRAMEWORK in ['yes']].  The result [Ok] means that
    start-up goes on to contact the verdict server. *)
Definition Verification_init (inst_configuration : list (string * json))
  : result settings :=
  let verdict_server_url :=
    get_or "verdict_server_url" (JString "http://localhost:9001/") inst_configuration in
  let verbose := get_or "verbose" (JBool true) inst_configuration in
  let project_root := get_or "project_root" (JString "") inst_configuration in
  let vypr_module := get_or "vypr_module" (JString "") inst_configuration in
  let test_framework := get_or "test" (JString "") inst_configuration in
  let TEST_DIR :=
    if is_string "yes" test_framework
    then Some (get_or "test_module" (JString "") inst_configuration)
    else None in
  match TEST_DIR with
  | None => Exc UnboundLocalError
  | Some d =>
      if is_string "" d then Exc SystemExit
      else Ok (mk_settings verdict_server_url verbose project_root vypr_module
                 test_framework)
  end.

(** *** A formula module to run the consumer on

    Atoms over numbered bind variables: an atom on one variable, a
    mixed atom on two, or a negation.  A monitor starts with one
    instantiation time and a state that holds every atom index. *)
Module sample.

Inductive sample_atom :=
| On (x : nat)
| Between (x y : nat)
| Neg (a : sample_atom).

#[export] Instance sample_atom_eq_dec : EqDecision sample_atom.
Proof. solve_decision. Defined.

Definition sample_formula : Type := list sample_atom * list nat.

Definition sample_new_monitor (f : sample_formula) : monitor sample_atom :=
  mk_monitor None (imap (fun i _ => (KIndex i, None)) (fst f)) [0] [] [] [] None None.

Definition sample_observe (a : sample_atom) (v : value) (atom_index sub_index : nat)
    (path : nat) (state_dict : option value) (m : monitor sample_atom)
  : monitor sample_atom :=
  let put {V : Type} (x : V) (d : list (nat * list (nat * V))) :=
    dict_set atom_index
      (dict_set sub_index x (default [] (dict_get atom_index d))) d in
  mk_monitor (_formula_verdict m)
    (dict_set (KIndex atom_index) (Some true) (_state m))
    (_monitor_instantiation_time m)
    (put v (atom_to_observation m))
    (put path (atom_to_program_path m))
    (put (default VNone state_dict) (atom_to_state_dict m))
    (collapsing_atom_index m) (collapsing_atom_sub_index m).

#[export] Instance sample_module : FormulaModule := {|
  atom := sample_atom;
  variable := nat;
  formula := sample_formula;
  _formula_atoms := fst;
  _bind_variables := snd;
  new_monitor := sample_new_monitor;
  is_logical_not := fun a => match a with Neg _ => true | _ => false end;
  is_mixed_atom := fun a => match a with Between _ _ => true | _ => false end;
  get_base_variable := fun a => match a with On x => x | _ => 0 end;
  get_base_variables := fun a => match a with Between x y => [x; y] | _ => [] end;
  lnot := Neg;
  check_optimised := fun _ m => m;
  check_atom_truth_value := fun _ _ _ m => m;
  process_atom_and_value := fun a _ _ v atom_index sub_index _ path sd m =>
    sample_observe a v atom_index sub_index path sd m
|}.

(** One function with two properties over the same formula. *)
Definition sample_maps (f : sample_formula)
  : list (string * list (string * PropertyMapGroup)) :=
  [("m.f", [("h1", mk_maps f [] [] VNone []); ("h2", mk_maps f [] [] VNone [])])].

(** A server that answers, and numbers functions and calls from
    zero. *)
Definition sample_server (_ : post) : result answer :=
  Ok (Dict [("function_id", VInt 0); ("function_call_id", VInt 0)]).

End sample.

End init_verification.

(** * Properties of the graph builder *)

Module scfg_properties.

Import construction.

(** Run the code on a concrete input and read the result off the
    graph it returns. *)
Ltac run r :=
  let H := fresh "Hrun" in
  destruct r as [[? ?]| |] eqn:H;
  vm_compute in H;
  [injection H as <- <-; eexists _, _; split; [reflexivity|];
   vm_compute; repeat split
  | discriminate | discriminate].

Section order.

Context {order : HashOrder}.


(** ** The empty block *)

(** C10: on an empty block [process_block] returns the starting
    vertices it was given, or the starting vertex of the graph when
    it was given none, and leaves the graph as it is. *)
Theorem process_block_empty (starting_vertices : option (list vertex_ref))
    (condition : list formula) (input_variables : list string) (g : CFG.t) :
  process_block [] starting_vertices condition input_variables g
  = Ok (match starting_vertices with
        | Some vs => vs
        | None => [CFG.starting_vertices g]
        end, g).
Proof. reflexivity. Qed.

(** ** Name extraction *)

(** The node kinds [get_reversed_string_list] has a case for. *)
Definition in_contract (obj : expr) : bool :=
  match obj with
  | Name _ | Attribute _ _ | Subscript _ _ | Call _ _ | Str _ => true
  | _ => false
  end.

(** The nodes for which [get_attr_name_string] returns [None] at
    once. *)
Definition is_load_or_index (obj : expr) : bool :=
  match obj with
  | Load | Index _ => true
  | _ => false
  end.

Lemma get_attr_name_string_unsupported obj omit_subscripts :
  in_contract obj = false -> is_load_or_index obj = false ->
  get_attr_name_string obj omit_subscripts = Exc TypeError.
Proof. destruct obj; simpl; intros; try discriminate; reflexivity. Qed.

(** On a node of a kind outside its cases
    [get_reversed_string_list] returns [None], and
    [get_attr_name_string] returns [None] for [Load] and [Index] and
    otherwise raises (the [TypeError] of subscripting [None]).  The
    exception leaves [process_block]: a block that starts with an
    assignment to such a node, its value not a call, makes it raise
    from any graph and any starting vertices. *)
Theorem unsupported_node_kind (obj : expr) (omit_subscripts : bool) :
  in_contract obj = false ->
  get_reversed_string_list obj omit_subscripts = Ok None
  /\ (if is_load_or_index obj
      then get_attr_name_string obj omit_subscripts = Ok None
      else get_attr_name_string obj omit_subscripts = Exc TypeError
           /\ forall value rest starting_vertices condition input_variables g,
                is_call value = false ->
                process_block (Assign [obj] value :: rest) starting_vertices
                  condition input_variables g
                = Exc TypeError).
Proof.
  intros Hkind. split; [destruct obj; try discriminate; reflexivity|].
  destruct (is_load_or_index obj) eqn:Hload;
    [destruct obj; try discriminate; reflexivity|].
  split; [apply get_attr_name_string_unsupported; assumption|].
  intros value rest starting_vertices condition input_variables g Hvalue.
  pose proof (get_attr_name_string_unsupported obj false Hkind Hload) as Hraise.
  assert (Hedge : forall cond ivs,
            CFGEdge.__init__ cond (IStmt (Assign [obj] value)) ivs = Exc TypeError).
  { intros. unfold CFGEdge.__init__, CFGEdge.operates_on_of.
    destruct value; try discriminate Hvalue; simpl; rewrite Hraise; reflexivity. }
  assert (Hvertex : forall pl so rv,
            CFGVertex.__init__ (Some (Assign [obj] value)) pl so rv = Exc TypeError).
  { intros. unfold CFGVertex.__init__, CFGVertex.name_changed_of.
    destruct value; try discriminate Hvalue; simpl; rewrite Hraise; reflexivity. }
  unfold process_block, process_block_with. simpl.
  unfold straight_line, new_edges_from.
  destruct (match starting_vertices with
            | Some vs => vs
            | None => [CFG.starting_vertices g]
            end) as [|v0 vs]; simpl.
  - rewrite Hvertex. reflexivity.
  - rewrite Hedge. reflexivity.
Qed.


(** What the utilities make of supported nodes. *)
Example attribute_path :
  get_attr_name_string
    (Attribute (Subscript (Attribute (Name "a") "b") (Index (Num 3))) "c") false
  = Ok (Some "a.b[3].c").
Proof. reflexivity. Qed.

(** ** Grammar derivation *)

Definition assign_const (x : string) (n : Z) : stmt := Assign [Name x] (Num n).

Definition call_on (f x : string) : stmt := Expr (Call (Name f) [Name x]).

(** [if a: x = 1] followed by [for i in xs: f(i)]. *)
Definition conditional_then_loop : list stmt :=
  [If (Name "a") [assign_const "x" 1] [];
   For (Name "i") (Name "xs") [call_on "f" "i"]].

(** C7: on the graph of a conditional followed by a loop
    [derive_grammar] raises [IndexError].  The merge vertex of the
    conditional has one outgoing edge, into the [loop] vertex; that
    is taken for the last vertex of a loop body, which would have a
    second edge. *)
Theorem derive_grammar_raises :
  exists final_vertices g,
    process_block conditional_then_loop None [] [] (CFG.__init__ [])
    = Ok (final_vertices, g)
    /\ CFGVertex._name_changed (vertex_at g 3) = post_conditional_name
    /\ CFGVertex.edges (vertex_at g 3) = [4]
    /\ target_name g 4 = Ok loop_name
    /\ derive_grammar g = Exc IndexError.
Proof. do 2 eexists. split; [vm_compute; reflexivity|]. repeat split. Qed.

(** The graph of [for i in xs: f(i)] and its grammar. *)
Example loop_grammar :
  (r ← process_block [For (Name "i") (Name "xs") [call_on "f" "i"]] None [] []
         (CFG.__init__ []);
   derive_grammar (snd r))
  = Ok [(0, [[SEdge 0; SVertex 1; SVertex 2]]);
        (1, [[SEdge 4]; [SEdge 1; SVertex 3]]);
        (2, [[SNone]]);
        (3, [[SEdge 2; SVertex 1]; [SEdge 3]])].
Proof. reflexivity. Qed.

(** ** The branches of a conditional and the handlers of a try

    The two loops that [process_entry] runs over the branches, as
    functions of their own. *)

Fixpoint conditional_branches (head : vertex_ref) (input_variables_copy : list string)
    (n : nat) (conds ccs : list formula) (current_conditional : stmt)
    (finals : list vertex_ref) (g : CFG.t) {struct current_conditional}
  : result (list vertex_ref * nat * bool * CFG.t) :=
  match current_conditional with
  | If _ body orelse =>
      '(final_vertices, g) ←
        process_block body (Some [head]) conds input_variables_copy g;
      first ← first_statement body;
      let g := CFG.append_branch_initial_statement (BisConditional first n) g in
      let finals := finals ++ final_vertices in
      match orelse with
      | [] => Ok (finals, S n, false, g)
      | (If test' _ _ as next) :: _ =>
          conditional_branches head input_variables_copy (S n)
            (ccs ++ [Test test']) (ccs ++ [LNot test']) next finals g
      | _ :: _ =>
          '(final_vertices, g) ←
            process_block orelse (Some [head]) ccs input_variables_copy g;
          first ← first_statement orelse;
          let g := CFG.append_branch_initial_statement
                     (BisConditional first (S n)) g in
          Ok (finals ++ final_vertices, S (S n), true, g)
      end
  | _ => Ok (finals, n, false, g)
  end.

Fixpoint handler_blocks (head : vertex_ref) (input_variables_copy : list string)
    (blocks : list (list stmt)) (finals : list vertex_ref) (g : CFG.t)
  : result (list vertex_ref * CFG.t) :=
  match blocks with
  | [] => Ok (finals, g)
  | block_item :: rest =>
      '(final_vertices, g) ←
        process_block block_item (Some [head]) [Tag "try-catch-handler"]
          input_variables_copy g;
      handler_blocks head input_variables_copy rest (finals ++ final_vertices) g
  end.

Lemma process_entry_if is_last ivc test body orelse ls g :
  process_entry is_last ivc (If test body orelse) (ls, g)
  = ('(head, g) ← conditional_head (If test body orelse) is_last ls g;
     '(final_conditional_vertices, n_pairs, final_else_is_present, g) ←
       conditional_branches head ivc 0 [Test test] [LNot test]
         (If test body orelse) [] g;
     conditional_merge (If test body orelse) head final_conditional_vertices
       final_else_is_present n_pairs ls g).
Proof. reflexivity. Qed.

Lemma process_entry_try is_last ivc body handlers ls g :
  process_entry is_last ivc (Try body handlers) (ls, g)
  = ('(head, g) ← try_head (Try body handlers) body handlers is_last ls g;
     '(final_try_catch_vertices, g) ←
       process_block body (Some [head]) [Tag "try-catch-main"] ivc g;
     '(final_try_catch_vertices, g) ←
       handler_blocks head ivc handlers final_try_catch_vertices g;
     try_merge head final_try_catch_vertices ls g).
Proof. reflexivity. Qed.

Lemma process_entry_for is_last ivc target iter body ls g :
  process_entry is_last ivc (For target iter body) (ls, g)
  = ('(pre, post, g) ← loop_head iter ls g;
     additional ← loop_input_variables target (additional_input_variables ls);
     extra ← match additional with
             | Some l => Ok l
             | None => Exc UnboundLocalError
             end;
     '(final_vertices, g) ←
       process_block body (Some [pre]) [Tag "enter-loop"] (ivc ++ extra) g;
     loop_tail (For target iter body) iter body pre post final_vertices
       additional ls g).
Proof. reflexivity. Qed.

Lemma process_entry_while is_last ivc test body ls g :
  process_entry is_last ivc (While test body) (ls, g)
  = ('(final_vertices, g) ←
       process_block body (Some (current_vertices ls)) [Tag "while"] ivc g;
     while_tail final_vertices ls g).
Proof. reflexivity. Qed.

(** The pairs of an [if], as the [while] over its [elif] chain
    collects them, and whether a final [else] is present. *)
Fixpoint conditional_pairs (conds ccs : list formula) (current_conditional : stmt)
  : list (list formula * list stmt) * bool :=
  match current_conditional with
  | If _ body orelse =>
      match orelse with
      | [] => ([(conds, body)], false)
      | (If test' _ _ as next) :: _ =>
          let '(pairs, final_else_is_present) :=
            conditional_pairs (ccs ++ [Test test']) (ccs ++ [LNot test']) next in
          ((conds, body) :: pairs, final_else_is_present)
      | _ :: _ => ([(conds, body); (ccs, orelse)], true)
      end
  | _ => ([], false)
  end.

(** The loop over [enumerate(pairs)]. *)
Fixpoint process_pairs (head : vertex_ref) (input_variables_copy : list string)
    (n : nat) (pairs : list (list formula * list stmt))
    (finals : list vertex_ref) (g : CFG.t) : result (list vertex_ref * nat * CFG.t) :=
  match pairs with
  | [] => Ok (finals, n, g)
  | (pair_conditions, pair_body) :: pairs' =>
      '(final_vertices, g) ←
        process_block pair_body (Some [head]) pair_conditions input_variables_copy g;
      first ← first_statement pair_body;
      let g := CFG.append_branch_initial_statement (BisConditional first n) g in
      process_pairs head input_variables_copy (S n) pairs' (finals ++ final_vertices) g
  end.

(** *** Sizes, for induction over nested blocks *)

Fixpoint stmt_size (s : stmt) : nat :=
  let fix block_size (l : list stmt) : nat :=
    match l with
    | [] => 0
    | x :: r => S (stmt_size x + block_size r)
    end in
  let fix blocks_size (l : list (list stmt)) : nat :=
    match l with
    | [] => 0
    | b :: r => S (block_size b + blocks_size r)
    end in
  match s with
  | If _ body orelse => S (block_size body + block_size orelse)
  | Try body handlers => S (block_size body + blocks_size handlers)
  | For _ _ body | While _ body => S (block_size body)
  | _ => 1
  end.

Fixpoint block_size (l : list stmt) : nat :=
  match l with
  | [] => 0
  | x :: r => S (stmt_size x + block_size r)
  end.

Fixpoint blocks_size (l : list (list stmt)) : nat :=
  match l with
  | [] => 0
  | b :: r => S (block_size b + blocks_size r)
  end.

Lemma stmt_size_if test body orelse :
  stmt_size (If test body orelse) = S (block_size body + block_size orelse).
Proof. reflexivity. Qed.

Lemma stmt_size_try body handlers :
  stmt_size (Try body handlers) = S (block_size body + blocks_size handlers).
Proof. reflexivity. Qed.

Lemma stmt_size_for target iter body :
  stmt_size (For target iter body) = S (block_size body).
Proof. reflexivity. Qed.

Lemma stmt_size_while test body :
  stmt_size (While test body) = S (block_size body).
Proof. reflexivity. Qed.

(** ** The pairs of a conditional

    [process_entry] follows the [elif] chain while it processes the
    branches; the source first collects the pairs and then loops over
    them.  The two agree. *)

Lemma conditional_branches_elif head ivc n conds ccs test body test' body' orelse' rest
    finals g :
  conditional_branches head ivc n conds ccs
    (If test body (If test' body' orelse' :: rest)) finals g
  = ('(final_vertices, g) ← process_block body (Some [head]) conds ivc g;
     first ← first_statement body;
     conditional_branches head ivc (S n) (ccs ++ [Test test']) (ccs ++ [LNot test'])
       (If test' body' orelse') (finals ++ final_vertices)
       (CFG.append_branch_initial_statement (BisConditional first n) g)).
Proof. reflexivity. Qed.

Lemma process_pairs_cons head ivc n pair_conditions pair_body pairs finals g :
  process_pairs head ivc n ((pair_conditions, pair_body) :: pairs) finals g
  = ('(final_vertices, g) ←
       process_block pair_body (Some [head]) pair_conditions ivc g;
     first ← first_statement pair_body;
     process_pairs head ivc (S n) pairs (finals ++ final_vertices)
       (CFG.append_branch_initial_statement (BisConditional first n) g)).
Proof. reflexivity. Qed.

Lemma conditional_branches_pairs head ivc :
  forall k current_conditional, stmt_size current_conditional < k ->
  forall n conds ccs finals g,
    conditional_branches head ivc n conds ccs current_conditional finals g
    = ('(finals, n, g) ←
         process_pairs head ivc n (conditional_pairs conds ccs current_conditional).1
           finals g;
       Ok (finals, n, (conditional_pairs conds ccs current_conditional).2, g)).
Proof.
  induction k as [|k IH]; intros cc Hk; [lia|].
  destruct cc as [ | | | | | test body orelse | | | | ]; try reflexivity.
  intros n conds ccs finals g.
  rewrite stmt_size_if in Hk.
  destruct orelse as [|next rest].
  - cbn -[process_block first_statement].
    destruct (process_block body (Some [head]) conds ivc g) as [[fv g1]| |];
      try reflexivity.
    cbn -[process_block first_statement].
    destruct (first_statement body); reflexivity.
  - assert (Hnext : stmt_size next < k) by (cbn [block_size] in Hk; lia).
    destruct next as [ | | | | | test' body' orelse' | | | | ];
      try (cbn -[process_block first_statement];
           destruct (process_block body (Some [head]) conds ivc g) as [[fv g1]| |];
           try reflexivity;
           cbn -[process_block first_statement];
           destruct (first_statement body); try reflexivity;
           cbn -[process_block first_statement];
           match goal with
           | |- context [process_block ?b (Some [head]) ccs ivc ?g0] =>
               destruct (process_block b (Some [head]) ccs ivc g0) as [[fv' g2]| |];
               reflexivity
           end).
    rewrite conditional_branches_elif.
    change (conditional_pairs conds ccs (If test body (If test' body' orelse' :: rest)))
      with (let '(pairs, final_else_is_present) :=
              conditional_pairs (ccs ++ [Test test']) (ccs ++ [LNot test'])
                (If test' body' orelse') in
            ((conds, body) :: pairs, final_else_is_present)).
    destruct (conditional_pairs (ccs ++ [Test test']) (ccs ++ [LNot test'])
                (If test' body' orelse')) as [pairs e] eqn:Hp.
    cbn [fst snd]. rewrite process_pairs_cons.
    destruct (process_block body (Some [head]) conds ivc g) as [[fv g1]| |];
      try reflexivity.
    cbn -[process_block first_statement conditional_branches process_pairs].
    destruct (first_statement body) as [first| |]; try reflexivity.
    cbn -[process_block first_statement conditional_branches process_pairs].
    rewrite (IH _ Hnext), Hp. reflexivity.
Qed.

(** The branches of an [if] are its pairs, processed in order. *)
Lemma conditional_branches_are_pairs head ivc test body orelse g :
  conditional_branches head ivc 0 [Test test] [LNot test] (If test body orelse) [] g
  = ('(finals, n, g) ←
       process_pairs head ivc 0
         (conditional_pairs [Test test] [LNot test] (If test body orelse)).1 [] g;
     Ok (finals, n,
         (conditional_pairs [Test test] [LNot test] (If test body orelse)).2, g)).
Proof. apply (conditional_branches_pairs head ivc _ _ (Nat.lt_succ_diag_r _)). Qed.

(** ** What [process_block] does to a graph

    The object stores only grow; an edge keeps its instruction; a
    vertex keeps its name and its outgoing edges, to which edges may
    be added. *)

Definition instruction_of (g : CFG.t) (e : edge_ref) : option instruction :=
  CFGEdge._instruction <$> CFG.edge_store g !! e.

Definition name_of (g : CFG.t) (v : vertex_ref) : option (list (option string)) :=
  CFGVertex._name_changed <$> CFG.vertex_store g !! v.

Definition edges_of (g : CFG.t) (v : vertex_ref) : option (list edge_ref) :=
  CFGVertex.edges <$> CFG.vertex_store g !! v.

Definition target_of (g : CFG.t) (e : edge_ref) : option vertex_ref :=
  CFG.edge_store g !! e ≫= CFGEdge._target_state.

Definition source_of (g : CFG.t) (e : edge_ref) : option vertex_ref :=
  CFG.edge_store g !! e ≫= CFGEdge._source_state.

Definition loop_skip : instruction := IStr "loop-skip".

(** An edge of the store that is not a [loop-skip] edge. *)
Definition not_skip (g : CFG.t) (e : edge_ref) : Prop :=
  exists i, instruction_of g e = Some i /\ i <> loop_skip.

(** The references of a list point into the vertex store. *)
Definition valid (g : CFG.t) (vs : list vertex_ref) : Prop :=
  Forall (fun v => v < length (CFG.vertex_store g)) vs.

(** No vertex holds a dangling edge and no edge a dangling target. *)
Definition well_formed (g : CFG.t) : Prop :=
  (forall v e, (exists l, edges_of g v = Some l /\ e ∈ l) ->
               e < length (CFG.edge_store g))
  /\ (forall e t, target_of g e = Some t -> t < length (CFG.vertex_store g)).

(** [grows nv ne cur g g' cur']: from [g] with current vertices [cur] to
    [g'] with current vertices [cur'].  Edges below [ne] are untouched;
    a vertex below [nv] only gains edges that are not [loop-skip]
    edges, and none at all unless it is in [cur]; the vertices of [cur']
    are in [cur] or not below [nv]. *)
Record grows (nv ne : nat) (cur : list vertex_ref) (g g' : CFG.t)
    (cur' : list vertex_ref) : Prop := mk_grows {
  grows_vertices : length (CFG.vertex_store g) <= length (CFG.vertex_store g');
  grows_edges : length (CFG.edge_store g) <= length (CFG.edge_store g');
  keeps_instruction :
    forall e i, instruction_of g e = Some i -> instruction_of g' e = Some i;
  keeps_edge :
    forall e, e < ne -> CFG.edge_store g' !! e = CFG.edge_store g !! e;
  keeps_name : forall v n, name_of g v = Some n -> name_of g' v = Some n;
  extends_edges :
    forall v l, v < nv -> edges_of g v = Some l ->
      exists added,
        edges_of g' v = Some (l ++ added)
        /\ Forall (not_skip g') added
        /\ (v ∉ cur -> added = []);
  fresh_or_start : forall v, v ∈ cur' -> v ∈ cur \/ nv <= v;
  keeps_well_formed :
    well_formed g -> valid g cur -> well_formed g' /\ valid g' cur'
}.

Lemma not_skip_keeps nv ne cur g g' cur' e :
  grows nv ne cur g g' cur' -> not_skip g e -> not_skip g' e.
Proof.
  intros Hg [i [Hi Hne]]. exists i. split; [|exact Hne].
  eapply keeps_instruction; eassumption.
Qed.

Lemma valid_grows g g' vs :
  length (CFG.vertex_store g) <= length (CFG.vertex_store g') ->
  valid g vs -> valid g' vs.
Proof.
  intros Hle Hv. eapply Forall_impl; [exact Hv|]. simpl. intros v Hlt. lia.
Qed.

Lemma grows_refl nv ne cur g : grows nv ne cur g g cur.
Proof.
  constructor.
  - reflexivity.
  - reflexivity.
  - auto.
  - auto.
  - auto.
  - intros v l _ Hl. exists []. rewrite app_nil_r. repeat split; auto.
  - intros v Hv. left. exact Hv.
  - auto.
Qed.

(** Composition: the second step starts from vertices that the first
    one started from, returned or created. *)
Lemma grows_then nv ne cur g0 g1 cur1 T g2 cur2 U :
  grows nv ne cur g0 g1 cur1 ->
  grows nv ne T g1 g2 cur2 ->
  (forall v, v ∈ T ->
     v ∈ cur \/ v ∈ cur1 \/ (nv <= v /\ v < length (CFG.vertex_store g1))) ->
  (forall v, v ∈ U ->
     v ∈ cur1 \/ v ∈ cur2 \/ (nv <= v /\ v < length (CFG.vertex_store g2))) ->
  grows nv ne cur g0 g2 U.
Proof.
  intros H1 H2 HT HU. constructor.
  - pose proof (grows_vertices _ _ _ _ _ _ H1).
    pose proof (grows_vertices _ _ _ _ _ _ H2). lia.
  - pose proof (grows_edges _ _ _ _ _ _ H1).
    pose proof (grows_edges _ _ _ _ _ _ H2). lia.
  - intros e i Hi. eapply keeps_instruction; [exact H2|].
    eapply keeps_instruction; eassumption.
  - intros e He. rewrite (keeps_edge _ _ _ _ _ _ H2 e He).
    apply (keeps_edge _ _ _ _ _ _ H1 e He).
  - intros v n Hn. eapply keeps_name; [exact H2|].
    eapply keeps_name; eassumption.
  - intros v l Hv Hl.
    destruct (extends_edges _ _ _ _ _ _ H1 v l Hv Hl) as [a1 [Hl1 [Hs1 Hf1]]].
    destruct (extends_edges _ _ _ _ _ _ H2 v _ Hv Hl1) as [a2 [Hl2 [Hs2 Hf2]]].
    exists (a1 ++ a2). rewrite app_assoc. split; [exact Hl2|]. split.
    + apply Forall_app. split; [|exact Hs2].
      eapply Forall_impl; [exact Hs1|]. intros e. apply (not_skip_keeps _ _ _ _ _ _ _ H2).
    + intros Hvcur. rewrite (Hf1 Hvcur). rewrite Hf2; [reflexivity|].
      intros HvT. destruct (HT v HvT) as [Hin|[Hin|[Hge _]]]; [contradiction| |lia].
      destruct (fresh_or_start _ _ _ _ _ _ H1 v Hin); [contradiction | lia].
  - intros v HvU. destruct (HU v HvU) as [Hin1|[Hin2|[Hge _]]].
    + apply (fresh_or_start _ _ _ _ _ _ H1 v Hin1).
    + destruct (fresh_or_start _ _ _ _ _ _ H2 v Hin2) as [HvT|Hge]; [|right; exact Hge].
      destruct (HT v HvT) as [Hin|[Hin|[Hge _]]];
        [left; exact Hin | | right; exact Hge].
      apply (fresh_or_start _ _ _ _ _ _ H1 v Hin).
    + right. exact Hge.
  - intros Hwf Hvalid.
    destruct (keeps_well_formed _ _ _ _ _ _ H1 Hwf Hvalid) as [Hwf1 Hvalid1].
    assert (HvT : valid g1 T).
    { apply Forall_forall. intros v Hv.
      destruct (HT v Hv) as [Hin|[Hin|[_ Hlt]]]; [| |exact Hlt].
      - unfold valid in Hvalid. rewrite Forall_forall in Hvalid.
        pose proof (Hvalid v Hin). pose proof (grows_vertices _ _ _ _ _ _ H1). lia.
      - unfold valid in Hvalid1. rewrite Forall_forall in Hvalid1. apply Hvalid1, Hin. }
    destruct (keeps_well_formed _ _ _ _ _ _ H2 Hwf1 HvT) as [Hwf2 Hvalid2].
    split; [exact Hwf2|].
    apply Forall_forall. intros v Hv.
    destruct (HU v Hv) as [Hin1|[Hin2|[_ Hlt]]]; [| |exact Hlt].
    + unfold valid in Hvalid1. rewrite Forall_forall in Hvalid1.
      pose proof (Hvalid1 v Hin1). pose proof (grows_vertices _ _ _ _ _ _ H2). lia.
    + unfold valid in Hvalid2. rewrite Forall_forall in Hvalid2. apply Hvalid2, Hin2.
Qed.

(** Sequential composition. *)
Lemma grows_seq nv ne cur g0 g1 cur1 g2 cur2 :
  grows nv ne cur g0 g1 cur1 -> grows nv ne cur1 g1 g2 cur2 -> grows nv ne cur g0 g2 cur2.
Proof.
  intros H1 H2. eapply grows_then; [exact H1 | exact H2 | |]; intros v Hv; auto.
Qed.

(** The vertices returned may be any that the step returned or
    created. *)
Lemma grows_return nv ne cur g g' cur1 U :
  grows nv ne cur g g' cur1 ->
  (forall v, v ∈ U -> v ∈ cur1 \/ (nv <= v /\ v < length (CFG.vertex_store g'))) ->
  grows nv ne cur g g' U.
Proof.
  intros H1 HU. eapply grows_then; [exact H1 | apply grows_refl | |].
  - intros v Hv. right. left. exact Hv.
  - intros v Hv. destruct (HU v Hv) as [Hin|Hfresh]; auto.
Qed.

(** *** The primitive steps *)

Ltac stores :=
  unfold instruction_of, name_of, edges_of, target_of, source_of, valid in *;
  cbn [snd fst CFG.new_vertex CFG.new_edge CFG.with_stores CFG.with_lists
       CFG.vertex_store CFG.edge_store CFG.update_vertex CFG.update_edge
       CFG.append_vertex CFG.append_edges CFG.append_return_statement
       CFG.append_branch_initial_statement] in *.

Lemma grows_same_stores nv ne cur g g' :
  CFG.vertex_store g' = CFG.vertex_store g ->
  CFG.edge_store g' = CFG.edge_store g ->
  grows nv ne cur g g' cur.
Proof.
  intros Hv He.
  constructor;
    unfold instruction_of, name_of, edges_of, well_formed, target_of, edges_of, valid;
    rewrite ?Hv, ?He; auto.
  intros v l _ Hl. exists []. rewrite app_nil_r. repeat split; auto.
Qed.

Lemma grows_new_vertex nv ne cur g v :
  CFGVertex.edges v = [] ->
  grows nv ne cur g (CFG.new_vertex v g).2 cur.
Proof.
  intros Hedges.
  assert (Hold : forall v0 x, CFG.vertex_store g !! v0 = Some x ->
                   (CFG.vertex_store g ++ [v]) !! v0 = Some x).
  { intros. apply lookup_app_l_Some. assumption. }
  assert (Hlen : length (CFG.vertex_store g ++ [v]) = S (length (CFG.vertex_store g))).
  { rewrite length_app. simpl. lia. }
  constructor; stores.
  - lia.
  - lia.
  - auto.
  - auto.
  - intros v0 n.
    destruct (CFG.vertex_store g !! v0) as [x|] eqn:Hx; [|discriminate].
    rewrite (Hold _ _ Hx). exact id.
  - intros v0 l _.
    destruct (CFG.vertex_store g !! v0) as [x|] eqn:Hx; [|discriminate].
    rewrite (Hold _ _ Hx). intros Hl. exists []. rewrite app_nil_r.
    repeat split; auto.
  - auto.
  - intros [Hwf1 Hwf2] Hvalid. split; [split|]; stores.
    + intros v0 e [l [Hl He]].
      destruct (decide (v0 < length (CFG.vertex_store g))) as [Hlt|Hge].
      * rewrite lookup_app_l in Hl by exact Hlt.
        apply (Hwf1 v0 e). exists l. split; assumption.
      * rewrite lookup_app_r in Hl by lia.
        destruct (v0 - length (CFG.vertex_store g)) as [|k]; [|discriminate].
        simpl in Hl. injection Hl as <-. rewrite Hedges in He.
        apply elem_of_nil in He. contradiction.
    + intros e t Ht. rewrite Hlen.
      pose proof (Hwf2 e t Ht). lia.
    + rewrite Hlen. eapply Forall_impl; [exact Hvalid|]. simpl. intros; lia.
Qed.

Lemma grows_new_edge nv ne cur g ed :
  ne <= length (CFG.edge_store g) ->
  CFGEdge._target_state ed = None ->
  grows nv ne cur g (CFG.new_edge ed g).2 cur.
Proof.
  intros Hne Htarget.
  assert (Hold : forall e x, CFG.edge_store g !! e = Some x ->
                   (CFG.edge_store g ++ [ed]) !! e = Some x).
  { intros. apply lookup_app_l_Some. assumption. }
  assert (Hlen : length (CFG.edge_store g ++ [ed]) = S (length (CFG.edge_store g))).
  { rewrite length_app. simpl. lia. }
  constructor; stores.
  - lia.
  - lia.
  - intros e i.
    destruct (CFG.edge_store g !! e) as [x|] eqn:Hx; [|discriminate].
    rewrite (Hold _ _ Hx). exact id.
  - intros e He. apply lookup_app_l. lia.
  - auto.
  - intros v0 l _ Hl. exists []. rewrite app_nil_r. split; [exact Hl|]. split; auto.
  - auto.
  - intros [Hwf1 Hwf2] Hvalid. split; [split|exact Hvalid]; stores.
    + intros v0 e Hin. rewrite Hlen.
      pose proof (Hwf1 v0 e Hin). lia.
    + intros e t.
      destruct (decide (e < length (CFG.edge_store g))) as [Hlt|Hge].
      * rewrite lookup_app_l by exact Hlt. apply Hwf2.
      * rewrite lookup_app_r by lia.
        destruct (e - length (CFG.edge_store g)) as [|k]; [|discriminate].
        simpl. rewrite Htarget. discriminate.
Qed.

Lemma grows_update_edge nv ne cur g f e :
  ne <= e ->
  (forall x, CFGEdge._instruction (f x) = CFGEdge._instruction x) ->
  (forall x t, CFGEdge._target_state (f x) = Some t ->
     CFGEdge._target_state x = Some t
     \/ (valid g cur -> t < length (CFG.vertex_store g))) ->
  grows nv ne cur g (CFG.update_edge f e g) cur.
Proof.
  intros Hne Hinstr Htarget.
  constructor; stores; rewrite ?length_alter.
  - lia.
  - lia.
  - intros e0 i. rewrite list_lookup_alter. case_decide; [subst e0|exact id].
    destruct (CFG.edge_store g !! e) as [x|]; [|discriminate].
    simpl. rewrite Hinstr. exact id.
  - intros e0 He0. apply list_lookup_alter_ne. lia.
  - auto.
  - intros v0 l _ Hl. exists []. rewrite app_nil_r. split; [exact Hl|]. split; auto.
  - auto.
  - intros [Hwf1 Hwf2] Hvalid. split; [split|exact Hvalid]; stores;
      rewrite ?length_alter.
    + exact Hwf1.
    + intros e0 t. rewrite list_lookup_alter. case_decide; [subst e0|apply Hwf2].
      destruct (CFG.edge_store g !! e) as [x|] eqn:Hx; [|discriminate].
      simpl. intros Ht. destruct (Htarget x t Ht) as [Hold|Hlt]; [|exact (Hlt Hvalid)].
      apply (Hwf2 e t). rewrite Hx. exact Hold.
Qed.

Lemma grows_update_vertex nv ne cur g f v :
  (forall x, CFGVertex._name_changed (f x) = CFGVertex._name_changed x) ->
  (forall x, CFGVertex.edges (f x) = CFGVertex.edges x) ->
  grows nv ne cur g (CFG.update_vertex f v g) cur.
Proof.
  intros Hname Hedges.
  assert (Hsame : forall v0, CFGVertex.edges <$> alter f v (CFG.vertex_store g) !! v0
                             = CFGVertex.edges <$> CFG.vertex_store g !! v0).
  { intros v0. rewrite list_lookup_alter. case_decide; [subst v0|reflexivity].
    destruct (CFG.vertex_store g !! v); [|reflexivity]. simpl. rewrite Hedges.
    reflexivity. }
  constructor; stores; rewrite ?length_alter.
  - lia.
  - lia.
  - auto.
  - auto.
  - intros v0 n. rewrite list_lookup_alter. case_decide; [subst v0|exact id].
    destruct (CFG.vertex_store g !! v) as [x|]; [|discriminate].
    simpl. rewrite Hname. exact id.
  - intros v0 l _ Hl. exists []. rewrite app_nil_r. rewrite Hsame.
    split; [exact Hl|]. split; auto.
  - auto.
  - intros [Hwf1 Hwf2] Hvalid. split; [split|]; stores; rewrite ?length_alter.
    + intros v0 e0. rewrite Hsame. apply Hwf1.
    + exact Hwf2.
    + exact Hvalid.
Qed.

(** [vertex.edges.append(edge)] *)
Lemma grows_append_edge nv ne cur g v e :
  e < length (CFG.edge_store g) ->
  v ∈ cur \/ nv <= v ->
  not_skip g e \/ nv <= v ->
  grows nv ne cur g (CFG.update_vertex (CFGVertex.append_edge e) v g) cur.
Proof.
  intros He Hv Hskip.
  constructor; stores; rewrite ?length_alter.
  - lia.
  - lia.
  - auto.
  - auto.
  - intros v0 n. rewrite list_lookup_alter. case_decide; [subst v0|exact id].
    destruct (CFG.vertex_store g !! v) as [x|]; [|discriminate]. exact id.
  - intros v0 l Hv0. rewrite list_lookup_alter. case_decide.
    + subst v0. destruct (CFG.vertex_store g !! v) as [x|]; [|discriminate].
      simpl. intros [= <-]. exists [e]. split; [reflexivity|]. split.
      * constructor; [|constructor]. destruct Hskip as [Hskip|Hge]; [exact Hskip|lia].
      * intros Hnot. destruct Hv; [contradiction | lia].
    + intros Hl. exists []. rewrite app_nil_r. split; [exact Hl|]. split; auto.
  - auto.
  - intros [Hwf1 Hwf2] Hvalid. split; [split|]; stores; rewrite ?length_alter.
    + intros v0 e0 [l [Hl Hin]]. rewrite list_lookup_alter in Hl.
      case_decide; [subst v0|apply (Hwf1 v0 e0); exists l; split; assumption].
      destruct (CFG.vertex_store g !! v) as [x|] eqn:Hx; [|discriminate].
      simpl in Hl. injection Hl as <-.
      apply elem_of_app in Hin as [Hin|Hin].
      * apply (Hwf1 v e0). exists (CFGVertex.edges x). rewrite Hx. split; [reflexivity|exact Hin].
      * apply list_elem_of_singleton in Hin. subst e0. exact He.
    + exact Hwf2.
    + exact Hvalid.
Qed.

Lemma grows_add_outgoing_edge nv ne cur g v e :
  ne <= e ->
  e < length (CFG.edge_store g) ->
  v ∈ cur \/ nv <= v ->
  not_skip g e \/ nv <= v ->
  grows nv ne cur g (CFG.add_outgoing_edge v e g) cur.
Proof.
  intros Hne He Hv Hskip. unfold CFG.add_outgoing_edge.
  eapply grows_seq.
  - apply (grows_update_edge nv ne cur g (CFGEdge.set_source_state v) e Hne);
      [reflexivity | intros x t Ht; left; exact Ht].
  - apply grows_append_edge.
    + stores. rewrite length_alter. exact He.
    + exact Hv.
    + destruct Hskip as [Hskip|Hge]; [left|right; exact Hge].
      eapply not_skip_keeps; [|exact Hskip].
      apply (grows_update_edge nv ne cur g (CFGEdge.set_source_state v) e Hne);
        [reflexivity | intros x t Ht; left; exact Ht].
Qed.

Lemma grows_set_target_state nv ne cur g e t :
  ne <= e ->
  (valid g cur -> t < length (CFG.vertex_store g)) ->
  grows nv ne cur g (CFG.set_target_state e t g) cur.
Proof.
  intros Hne Ht. unfold CFG.set_target_state.
  eapply grows_seq.
  - apply (grows_update_edge nv ne cur g (CFGEdge.set_target t) e Hne);
      [reflexivity|]. intros x t0 [= <-]. right. exact Ht.
  - apply grows_update_vertex; reflexivity.
Qed.

(** *** Edges *)

Lemma edge_init_fields cond instr ivs ed :
  CFGEdge.__init__ cond instr ivs = Ok ed ->
  CFGEdge._instruction ed = instr
  /\ CFGEdge._target_state ed = None
  /\ CFGEdge._source_state ed = None.
Proof.
  unfold CFGEdge.__init__.
  destruct (CFGEdge.operates_on_of instr); cbn; try discriminate.
  intros [= <-]. auto.
Qed.

Lemma vertex_init_edges entry path_length structure_obj rv v :
  CFGVertex.__init__ entry path_length structure_obj rv = Ok v ->
  CFGVertex.edges v = [].
Proof.
  unfold CFGVertex.__init__.
  destruct (CFGVertex.name_changed_of entry rv); cbn; try discriminate.
  intros [= <-]. reflexivity.
Qed.

(** A new edge object attached to its source and its target, in
    either order. *)
Lemma grows_fresh_edge nv ne cur g g1 ed source target :
  CFG.vertex_store g1 = CFG.vertex_store g ->
  CFG.edge_store g1 = CFG.edge_store g ++ [ed] ->
  ne <= length (CFG.edge_store g) ->
  CFGEdge._target_state ed = None ->
  source ∈ cur \/ nv <= source ->
  CFGEdge._instruction ed <> loop_skip \/ nv <= source ->
  (valid g cur -> target < length (CFG.vertex_store g)) ->
  grows nv ne cur g
    (CFG.set_target_state (length (CFG.edge_store g)) target
       (CFG.add_outgoing_edge source (length (CFG.edge_store g)) g1)) cur
  /\ grows nv ne cur g
       (CFG.add_outgoing_edge source (length (CFG.edge_store g))
          (CFG.set_target_state (length (CFG.edge_store g)) target g1)) cur.
Proof.
  intros Hvs Hes Hne Htarget Hsource Hskip Hvalid.
  set (e := length (CFG.edge_store g)).
  assert (H1 : grows nv ne cur g g1 cur).
  { eapply grows_seq; [apply (grows_new_edge nv ne cur g ed Hne Htarget)|].
    apply grows_same_stores; stores; congruence. }
  assert (He : e < length (CFG.edge_store g1)).
  { rewrite Hes, length_app. simpl. unfold e. lia. }
  assert (Hi : not_skip g1 e \/ nv <= source).
  { destruct Hskip as [Hskip|Hge]; [left|right; exact Hge].
    exists (CFGEdge._instruction ed). split; [|exact Hskip].
    unfold instruction_of. rewrite Hes. unfold e.
    rewrite list_lookup_middle by reflexivity. reflexivity. }
  assert (Hvalid1 : forall g2,
            length (CFG.vertex_store g2) = length (CFG.vertex_store g) ->
            valid g2 cur -> target < length (CFG.vertex_store g2)).
  { intros g2 Hg2. unfold valid. rewrite Hg2. exact Hvalid. }
  split.
  - eapply grows_seq; [exact H1|].
    eapply grows_seq;
      [apply (grows_add_outgoing_edge nv ne cur g1 source e);
         [unfold e; lia | exact He | exact Hsource | exact Hi]|].
    apply grows_set_target_state; [unfold e; lia|].
    apply Hvalid1. unfold CFG.add_outgoing_edge. stores.
    rewrite length_alter. congruence.
  - eapply grows_seq; [exact H1|].
    assert (H2 : grows nv ne cur g1 (CFG.set_target_state e target g1) cur).
    { apply grows_set_target_state; [unfold e; lia|]. apply Hvalid1. congruence. }
    eapply grows_seq; [exact H2|].
    apply grows_add_outgoing_edge; [unfold e; lia | | exact Hsource |].
    + pose proof (grows_edges _ _ _ _ _ _ H2). lia.
    + destruct Hi as [Hi|Hge]; [left|right; exact Hge].
      eapply not_skip_keeps; [exact H2 | exact Hi].
Qed.

(** The edge object of a synthetic edge. *)
Definition synthetic_edge (cond : edge_condition) (instr : string) : CFGEdge.t :=
  {| CFGEdge._condition := cond;
     CFGEdge._instruction := IStr instr;
     CFGEdge._source_state := None;
     CFGEdge._target_state := None;
     CFGEdge._input_variables := [];
     CFGEdge._operates_on := OnInstruction (IStr instr) |}.

Lemma control_edge_eq cond instr source target g :
  control_edge cond instr source target g
  = Ok (CFG.set_target_state (length (CFG.edge_store g)) target
          (CFG.add_outgoing_edge source (length (CFG.edge_store g))
             (CFG.append_edges [length (CFG.edge_store g)]
                (CFG.new_edge (synthetic_edge cond instr) g).2))).
Proof. reflexivity. Qed.

Lemma merge_edge_eq cond instr source target g :
  merge_edge cond instr source target g
  = Ok (CFG.add_outgoing_edge source (length (CFG.edge_store g))
          (CFG.set_target_state (length (CFG.edge_store g)) target
             (CFG.append_edges [length (CFG.edge_store g)]
                (CFG.new_edge (synthetic_edge cond instr) g).2))).
Proof. reflexivity. Qed.

Lemma loop_skip_edge_eq iter pre post g :
  loop_skip_edge iter pre post g
  = Ok (CFG.set_target_state (length (CFG.edge_store g)) post
          (CFG.add_outgoing_edge pre (length (CFG.edge_store g))
             (CFG.new_edge (synthetic_edge (CondFormula (LNot iter)) "loop-skip") g).2)).
Proof. reflexivity. Qed.

Lemma grows_control_edge nv ne cur g cond instr source target g' :
  control_edge cond instr source target g = Ok g' ->
  ne <= length (CFG.edge_store g) ->
  source ∈ cur \/ nv <= source ->
  IStr instr <> loop_skip ->
  (valid g cur -> target < length (CFG.vertex_store g)) ->
  grows nv ne cur g g' cur.
Proof.
  rewrite control_edge_eq. intros [= <-] Hne Hsource Hinstr Hvalid.
  eapply proj1.
  apply (grows_fresh_edge nv ne cur g _ (synthetic_edge cond instr)); auto.
Qed.

Lemma grows_merge_edge nv ne cur g cond instr source target g' :
  merge_edge cond instr source target g = Ok g' ->
  ne <= length (CFG.edge_store g) ->
  source ∈ cur \/ nv <= source ->
  IStr instr <> loop_skip ->
  (valid g cur -> target < length (CFG.vertex_store g)) ->
  grows nv ne cur g g' cur.
Proof.
  rewrite merge_edge_eq. intros [= <-] Hne Hsource Hinstr Hvalid.
  eapply proj2.
  apply (grows_fresh_edge nv ne cur g _ (synthetic_edge cond instr)); auto.
Qed.

Lemma grows_loop_skip_edge nv ne cur g iter pre post g' :
  loop_skip_edge iter pre post g = Ok g' ->
  ne <= length (CFG.edge_store g) ->
  nv <= pre ->
  post < length (CFG.vertex_store g) ->
  grows nv ne cur g g' cur.
Proof.
  rewrite loop_skip_edge_eq. intros [= <-] Hne Hpre Hpost.
  eapply proj1.
  apply (grows_fresh_edge nv ne cur g _
           (synthetic_edge (CondFormula (LNot iter)) "loop-skip")); auto.
Qed.

(** A loop whose rounds each keep the invariant. *)
Lemma grows_for_each {A : Type} nv ne cur (f : CFG.t -> A -> result CFG.t) l :
  forall g g',
  for_each f l g = Ok g' ->
  (forall g1 x g2, x ∈ l ->
     length (CFG.vertex_store g) <= length (CFG.vertex_store g1) ->
     length (CFG.edge_store g) <= length (CFG.edge_store g1) ->
     (valid g cur -> valid g1 cur) ->
     f g1 x = Ok g2 -> grows nv ne cur g1 g2 cur) ->
  grows nv ne cur g g' cur.
Proof.
  induction l as [|x l IH]; intros g g'; cbn.
  - intros [= <-] _. apply grows_refl.
  - destruct (f g x) as [g1| |] eqn:Hf; cbn; try discriminate.
    intros Hrest Hstep.
    assert (H1 : grows nv ne cur g g1 cur).
    { apply (Hstep g x g1); auto. left. }
    eapply grows_seq; [exact H1|].
    apply IH; [exact Hrest|].
    intros g2 y g3 Hy Hv He Hvalid. apply Hstep.
    + right. exact Hy.
    + pose proof (grows_vertices _ _ _ _ _ _ H1). lia.
    + pose proof (grows_edges _ _ _ _ _ _ H1). lia.
    + intros Hvg. apply Hvalid. eapply valid_grows; [|exact Hvg].
      apply (grows_vertices _ _ _ _ _ _ H1).
Qed.

Lemma grows_link_all nv ne cur g cond instr sources target g' :
  link_all cond instr sources target g = Ok g' ->
  ne <= length (CFG.edge_store g) ->
  (forall v, v ∈ sources -> v ∈ cur \/ nv <= v) ->
  IStr instr <> loop_skip ->
  target < length (CFG.vertex_store g) ->
  grows nv ne cur g g' cur.
Proof.
  unfold link_all. intros Hrun Hne Hsources Hinstr Htarget.
  eapply grows_for_each; [exact Hrun|].
  intros g1 x g2 Hx Hv He _ Hstep.
  eapply grows_control_edge; [exact Hstep | lia | auto | exact Hinstr | intros _; lia].
Qed.

(** *** Statements that add one vertex *)

Lemma grows_attach nv ne cur g ed source :
  ne <= length (CFG.edge_store g) ->
  CFGEdge._target_state ed = None ->
  source ∈ cur \/ nv <= source ->
  CFGEdge._instruction ed <> loop_skip \/ nv <= source ->
  grows nv ne cur g
    (CFG.add_outgoing_edge source (length (CFG.edge_store g)) (CFG.new_edge ed g).2) cur.
Proof.
  intros Hne Htarget Hsource Hskip.
  eapply grows_seq; [apply (grows_new_edge nv ne cur g ed Hne Htarget)|].
  apply grows_add_outgoing_edge; [exact Hne | | exact Hsource |].
  - stores. rewrite length_app. simpl. lia.
  - destruct Hskip as [Hskip|Hge]; [left|right; exact Hge].
    exists (CFGEdge._instruction ed). split; [|exact Hskip].
    stores. rewrite list_lookup_middle by reflexivity. reflexivity.
Qed.

Lemma grows_new_edges_loop nv ne cur cond instr ivs sources :
  forall acc g new_edges g',
  for_each (fun '(new_edges, g) vertex =>
      new_edge ← CFGEdge.__init__ cond instr ivs;
      let '(e, g) := CFG.new_edge new_edge g in
      Ok (new_edges ++ [e], CFG.add_outgoing_edge vertex e g))
    sources (acc, g) = Ok (new_edges, g') ->
  ne <= length (CFG.edge_store g) ->
  (forall v, v ∈ sources -> v ∈ cur \/ nv <= v) ->
  instr <> loop_skip ->
  Forall (fun e => ne <= e /\ e < length (CFG.edge_store g)) acc ->
  grows nv ne cur g g' cur
  /\ Forall (fun e => ne <= e /\ e < length (CFG.edge_store g')) new_edges.
Proof.
  induction sources as [|x l IH]; intros acc g new_edges g'; cbn.
  - intros [= <- <-] _ _ _ Hacc. split; [apply grows_refl | exact Hacc].
  - destruct (CFGEdge.__init__ cond instr ivs) as [ed| |] eqn:Hed; cbn; try discriminate.
    intros Hrest Hne Hsources Hinstr Hacc.
    destruct (edge_init_fields _ _ _ _ Hed) as [Hi [Ht _]].
    assert (H1 : grows nv ne cur g
              (CFG.add_outgoing_edge x (length (CFG.edge_store g)) (CFG.new_edge ed g).2)
              cur).
    { apply grows_attach; [exact Hne | exact Ht | apply Hsources; left |].
      left. rewrite Hi. exact Hinstr. }
    assert (Hlen : length (CFG.edge_store
                     (CFG.add_outgoing_edge x (length (CFG.edge_store g))
                        (CFG.new_edge ed g).2))
                   = S (length (CFG.edge_store g))).
    { unfold CFG.add_outgoing_edge. stores. rewrite length_alter, length_app.
      simpl. lia. }
    destruct (IH (acc ++ [length (CFG.edge_store g)])
                (CFG.add_outgoing_edge x (length (CFG.edge_store g))
                   (CFG.new_edge ed g).2) new_edges g' Hrest) as [H2 Hall].
    + rewrite Hlen. lia.
    + intros v Hv. apply Hsources. right. exact Hv.
    + exact Hinstr.
    + apply Forall_app. split.
      * eapply Forall_impl; [exact Hacc|]. cbv beta. intros e [? ?]. rewrite Hlen. lia.
      * constructor; [|constructor]. rewrite Hlen. lia.
    + split; [|exact Hall]. eapply grows_seq; [exact H1 | exact H2].
Qed.

Lemma grows_new_edges_from nv ne cur cond instr ivs sources g new_edges g' :
  new_edges_from cond instr ivs sources g = Ok (new_edges, g') ->
  ne <= length (CFG.edge_store g) ->
  (forall v, v ∈ sources -> v ∈ cur \/ nv <= v) ->
  instr <> loop_skip ->
  grows nv ne cur g g' cur
  /\ Forall (fun e => ne <= e /\ e < length (CFG.edge_store g')) new_edges.
Proof.
  unfold new_edges_from. intros Hrun Hne Hsources Hinstr.
  eapply grows_new_edges_loop; [exact Hrun | exact Hne | exact Hsources | exact Hinstr|].
  constructor.
Qed.

Lemma grows_set_targets nv ne cur new_vertex new_edges :
  forall g,
  Forall (fun e => ne <= e) new_edges ->
  new_vertex < length (CFG.vertex_store g) ->
  grows nv ne cur g
    (foldl (fun g edge => CFG.set_target_state edge new_vertex g) g new_edges) cur.
Proof.
  induction new_edges as [|e l IH]; intros g Hall Hlt; cbn.
  - apply grows_refl.
  - inversion Hall as [|? ? He Hl]; subst.
    assert (H1 : grows nv ne cur g (CFG.set_target_state e new_vertex g) cur).
    { apply grows_set_target_state; [exact He | intros _; exact Hlt]. }
    eapply grows_seq; [exact H1|]. apply IH; [exact Hl|].
    pose proof (grows_vertices _ _ _ _ _ _ H1). lia.
Qed.

Lemma grows_straight_line nv ne entry rv ivc ls g ls' g' :
  straight_line entry rv ivc (ls, g) = Ok (ls', g') ->
  nv <= length (CFG.vertex_store g) ->
  ne <= length (CFG.edge_store g) ->
  grows nv ne (current_vertices ls) g g' (current_vertices ls').
Proof.
  unfold straight_line. intros Hrun Hnv Hne.
  destruct (new_edges_from (CondList (condition ls)) (IStmt entry) ivc
              (current_vertices ls) g) as [[new_edges g1]| |] eqn:Hedges;
    cbn -[CFGVertex.__init__] in Hrun; try discriminate.
  destruct (CFGVertex.__init__ (Some entry) (Some (S (path_length ls))) None rv)
    as [v| |] eqn:Hv; cbn in Hrun; try discriminate.
  injection Hrun as <- <-. cbn [current_vertices].
  destruct (grows_new_edges_from nv ne (current_vertices ls) _ _ _ _ _ _ _ Hedges Hne)
    as [H1 Hall]; [auto | discriminate |].
  pose proof (vertex_init_edges _ _ _ _ _ Hv) as Hnone.
  assert (H2 : grows nv ne (current_vertices ls) g1
            (CFG.append_edges new_edges
               (CFG.append_vertex (length (CFG.vertex_store g1))
                  (CFG.new_vertex v g1).2)) (current_vertices ls)).
  { eapply grows_seq; [apply (grows_new_vertex _ _ _ _ _ Hnone)|].
    apply grows_same_stores; reflexivity. }
  eapply grows_return.
  - eapply grows_seq; [exact H1|]. eapply grows_seq; [exact H2|].
    apply grows_set_targets.
    + eapply Forall_impl; [exact Hall|]. simpl. intros e [? _]. assumption.
    + stores. rewrite length_app. simpl. lia.
  - intros x Hx. apply list_elem_of_singleton in Hx. subst x. right.
    pose proof (grows_vertices _ _ _ _ _ _ H1). split; [lia|].
    match goal with |- _ < length (CFG.vertex_store (foldl ?f ?a ?l)) =>
      pose proof (grows_vertices _ _ _ _ _ _
        (grows_set_targets 0 ne [] (length (CFG.vertex_store g1)) new_edges a
           ltac:(eapply Forall_impl; [exact Hall|]; simpl; intros ? [? _]; assumption)
           ltac:(stores; rewrite length_app; simpl; lia))) as Hlen
    end.
    stores. rewrite length_app in Hlen. simpl in Hlen. lia.
Qed.

Lemma grows_log_return nv ne cur ls g :
  grows nv ne cur g (log_return (ls, g)).2 cur.
Proof.
  unfold log_return. cbn [snd].
  generalize (current_vertices ls). intros l. revert g.
  induction l as [|x l IH]; intros g; cbn.
  - apply grows_refl.
  - eapply grows_seq; [|apply IH]. apply grows_same_stores; reflexivity.
Qed.

(** *** The heads of conditionals, tries and loops *)

(** New vertex objects without edges. *)
Lemma grows_new_vertices nv ne cur g g1 added :
  CFG.vertex_store g1 = CFG.vertex_store g ++ added ->
  CFG.edge_store g1 = CFG.edge_store g ->
  Forall (fun v => CFGVertex.edges v = []) added ->
  grows nv ne cur g g1 cur.
Proof.
  revert g g1. induction added as [|v added IH]; intros g g1 Hvs Hes Hall.
  - apply grows_same_stores; [rewrite Hvs, app_nil_r; reflexivity | exact Hes].
  - inversion Hall as [|? ? Hv Hrest]; subst.
    eapply grows_seq; [apply (grows_new_vertex nv ne cur g v Hv)|].
    apply IH; [|exact Hes|exact Hrest].
    rewrite Hvs. stores. rewrite <- app_assoc. reflexivity.
Qed.

(** New vertices, then edges from the current vertices into one of
    them. *)
Lemma grows_enter nv ne cur g g1 added cond instr sources target g' :
  CFG.vertex_store g1 = CFG.vertex_store g ++ added ->
  CFG.edge_store g1 = CFG.edge_store g ->
  Forall (fun v => CFGVertex.edges v = []) added ->
  link_all cond instr sources target g1 = Ok g' ->
  target < length (CFG.vertex_store g1) ->
  (forall v, v ∈ sources -> v ∈ cur \/ nv <= v) ->
  ne <= length (CFG.edge_store g) ->
  IStr instr <> loop_skip ->
  grows nv ne cur g g' cur
  /\ length (CFG.vertex_store g1) <= length (CFG.vertex_store g').
Proof.
  intros Hvs Hes Hall Hlink Htarget Hsources Hne Hinstr.
  assert (H2 : grows nv ne cur g1 g' cur).
  { eapply grows_link_all; [exact Hlink | rewrite Hes; exact Hne | exact Hsources
                           | exact Hinstr | exact Htarget]. }
  split; [|apply (grows_vertices _ _ _ _ _ _ H2)].
  eapply grows_seq; [|exact H2].
  eapply grows_new_vertices; eassumption.
Qed.

Lemma grows_conditional_head nv ne entry is_last ls g head g' :
  conditional_head entry is_last ls g = Ok (head, g') ->
  ne <= length (CFG.edge_store g) ->
  head = length (CFG.vertex_store g)
  /\ grows nv ne (current_vertices ls) g g' (current_vertices ls)
  /\ head < length (CFG.vertex_store g').
Proof.
  unfold conditional_head. intros Hrun Hne.
  destruct is_last; cbn -[link_all] in Hrun;
    match type of Hrun with context [link_all ?c ?i ?s ?t ?g1] =>
      destruct (link_all c i s t g1) as [g2| |] eqn:Hlink
    end; cbn in Hrun; try discriminate; injection Hrun as <- <-;
    (split; [reflexivity|]);
    (eapply (grows_enter nv ne) in Hlink as [H1 Hlen];
       [split; [exact H1|]; cbn in Hlen; rewrite length_app in Hlen; simpl in Hlen; lia
       | reflexivity | reflexivity | repeat constructor
       | cbn; rewrite length_app; simpl; lia | auto | exact Hne | discriminate]).
Qed.

Lemma handlers_log_stores handlers :
  forall g g',
  for_each (fun g handler_body =>
      first ← first_statement handler_body;
      Ok (CFG.append_branch_initial_statement
            (BisTryCatch first "try-catch-handler") g)) handlers g = Ok g' ->
  CFG.vertex_store g' = CFG.vertex_store g /\ CFG.edge_store g' = CFG.edge_store g.
Proof.
  induction handlers as [|h l IH]; intros g g'; cbn -[first_statement].
  - intros [= <-]. auto.
  - destruct (first_statement h) as [first| |]; cbn -[first_statement]; try discriminate.
    intros Hrest. apply IH in Hrest as [-> ->]. auto.
Qed.

Lemma grows_try_head nv ne entry body handlers is_last ls g head g' :
  try_head entry body handlers is_last ls g = Ok (head, g') ->
  ne <= length (CFG.edge_store g) ->
  head = length (CFG.vertex_store g)
  /\ grows nv ne (current_vertices ls) g g' (current_vertices ls)
  /\ head < length (CFG.vertex_store g').
Proof.
  unfold try_head. intros Hrun Hne.
  destruct is_last; cbn -[link_all for_each first_statement] in Hrun;
    match type of Hrun with context [link_all ?c ?i ?s ?t ?g1] =>
      destruct (link_all c i s t g1) as [g2| |] eqn:Hlink
    end; cbn -[for_each first_statement] in Hrun; try discriminate;
    (destruct (first_statement body) as [first| |];
       cbn -[for_each first_statement] in Hrun; try discriminate);
    match type of Hrun with context [for_each ?f ?l ?g1] =>
      destruct (for_each f l g1) as [g3| |] eqn:Hlog
    end; cbn in Hrun; try discriminate; injection Hrun as <- <-;
    apply handlers_log_stores in Hlog as [Hvs Hes]; cbn in Hvs, Hes;
    (split; [reflexivity|]);
    (eapply (grows_enter nv ne) in Hlink as [H1 Hlen];
       [split;
          [eapply grows_seq; [exact H1|]; apply grows_same_stores; assumption
          | rewrite Hvs; cbn in Hlen; rewrite length_app in Hlen; simpl in Hlen; lia]
       | reflexivity | reflexivity | repeat constructor
       | cbn; rewrite length_app; simpl; lia | auto | exact Hne | discriminate]).
Qed.

Lemma grows_loop_head nv ne iter ls g pre post g' :
  loop_head iter ls g = Ok (pre, post, g') ->
  ne <= length (CFG.edge_store g) ->
  pre = length (CFG.vertex_store g)
  /\ post = S (length (CFG.vertex_store g))
  /\ grows nv ne (current_vertices ls) g g' (current_vertices ls)
  /\ post < length (CFG.vertex_store g').
Proof.
  unfold loop_head. intros Hrun Hne.
  cbn -[link_all] in Hrun.
  match type of Hrun with context [link_all ?c ?i ?s ?t ?g1] =>
    destruct (link_all c i s t g1) as [g2| |] eqn:Hlink
  end; cbn in Hrun; try discriminate. injection Hrun as <- <- <-.
  split; [reflexivity|]. split; [rewrite length_app; simpl; lia|].
  eapply (grows_enter nv ne _ g _
            [CFGVertex.synthetic [Some "loop"] None;
             CFGVertex.synthetic [Some "post-loop"] None]) in Hlink as [H1 Hlen].
  - split; [exact H1|]. cbn in Hlen. rewrite !length_app in *. simpl in *. lia.
  - cbn. rewrite <- app_assoc. reflexivity.
  - reflexivity.
  - repeat constructor.
  - cbn. rewrite !length_app. simpl. lia.
  - auto.
  - exact Hne.
  - discriminate.
Qed.

(** *** The ends of conditionals and tries

    [conditional_merge] and [try_merge] run the same steps on
    different fields. *)

Definition merge_step (setter : option vertex_ref -> CFGVertex.t -> CFGVertex.t)
    (name cond : string) (head : vertex_ref) (tails : list vertex_ref) (g : CFG.t)
  : result (list vertex_ref * CFG.t) :=
  let current_vertices := List.filter (falls_through g) tails in
  match current_vertices with
  | _ :: _ =>
      let '(empty_vertex, g) :=
        CFG.new_vertex (CFGVertex.synthetic [Some name] None) g in
      let g := CFG.update_vertex (setter (Some empty_vertex)) head g in
      let g := CFG.append_vertex empty_vertex g in
      g ← for_each (fun g vertex =>
             merge_edge (CondStr cond) "control-flow" vertex empty_vertex g)
            current_vertices g;
      Ok ([empty_vertex], g)
  | [] => Ok ([], CFG.update_vertex (setter None) head g)
  end.

Lemma conditional_merge_eq entry head finals else_present n_pairs ls g :
  conditional_merge entry head finals else_present n_pairs ls g
  = ('(current_vertices, g) ←
       merge_step CFGVertex.set_post_conditional_vertex "post-conditional"
         "post-condition" head (conditional_tails head finals else_present)
         (if else_present then g
          else CFG.append_branch_initial_statement
                 (BisConditionalNoElse entry n_pairs) g);
     Ok (mk_locals (condition ls ++ [Tag "skip-conditional"]) current_vertices 0
           (additional_input_variables ls), g)).
Proof. reflexivity. Qed.

Lemma try_merge_eq head finals ls g :
  try_merge head finals ls g
  = ('(current_vertices, g) ←
       merge_step CFGVertex.set_post_try_catch_vertex "post-try-catch"
         "post-try-catch" head finals g;
     Ok (mk_locals (condition ls ++ [Tag "skip-try-catch"]) current_vertices 0
           (additional_input_variables ls), g)).
Proof. reflexivity. Qed.

Lemma elem_of_filter_bool {A : Type} (f : A -> bool) (l : list A) (x : A) :
  x ∈ List.filter f l <-> x ∈ l /\ f x = true.
Proof. rewrite !list_elem_of_In. apply filter_In. Qed.

Lemma grows_weaken nv ne cur cur2 g g' cur' :
  grows nv ne cur g g' cur' ->
  (forall v, v ∈ cur -> v ∈ cur2) ->
  grows nv ne cur2 g g' cur'.
Proof.
  intros H Hsub. constructor.
  - apply (grows_vertices _ _ _ _ _ _ H).
  - apply (grows_edges _ _ _ _ _ _ H).
  - apply (keeps_instruction _ _ _ _ _ _ H).
  - apply (keeps_edge _ _ _ _ _ _ H).
  - apply (keeps_name _ _ _ _ _ _ H).
  - intros v l Hv Hl.
    destruct (extends_edges _ _ _ _ _ _ H v l Hv Hl) as [added [Hadd [Hskip Hframe]]].
    exists added. split; [exact Hadd|]. split; [exact Hskip|].
    intros Hnot. apply Hframe. intros Hin. apply Hnot, Hsub, Hin.
  - intros v Hv. destruct (fresh_or_start _ _ _ _ _ _ H v Hv) as [Hin|Hge]; auto.
  - intros Hwf Hvalid. apply (keeps_well_formed _ _ _ _ _ _ H Hwf).
    unfold valid in *. rewrite Forall_forall in *. intros v Hv. apply Hvalid, Hsub, Hv.
Qed.

Lemma grows_merge_step nv ne setter name cond head tails g cv g' :
  merge_step setter name cond head tails g = Ok (cv, g') ->
  (forall p x, CFGVertex._name_changed (setter p x) = CFGVertex._name_changed x) ->
  (forall p x, CFGVertex.edges (setter p x) = CFGVertex.edges x) ->
  nv <= length (CFG.vertex_store g) ->
  ne <= length (CFG.edge_store g) ->
  grows nv ne (List.filter (falls_through g) tails) g g' cv.
Proof.
  unfold merge_step. intros Hrun Hname Hedges Hnv Hne.
  destruct (List.filter (falls_through g) tails) as [|s0 survivors] eqn:Hfilter.
  - injection Hrun as <- <-. apply grows_update_vertex; auto.
  - cbn -[for_each merge_edge] in Hrun.
    match type of Hrun with context [for_each ?f ?l ?g1] =>
      destruct (for_each f l g1) as [g2| |] eqn:Hloop
    end; cbn in Hrun; try discriminate. injection Hrun as <- <-.
    eapply grows_for_each in Hloop as H2.
    + eapply grows_return.
      * eapply grows_seq; [|exact H2].
        eapply grows_seq;
          [apply (grows_new_vertex nv ne _ g (CFGVertex.synthetic [Some name] None));
           reflexivity|].
        eapply grows_seq;
          [apply (grows_update_vertex nv ne _ _
                    (setter (Some (length (CFG.vertex_store g)))) head); auto|].
        apply grows_same_stores; reflexivity.
      * intros v Hv. apply list_elem_of_singleton in Hv. subst v. right.
        split; [exact Hnv|].
        pose proof (grows_vertices _ _ _ _ _ _ H2) as Hlen. cbn in Hlen.
        rewrite length_alter, length_app in Hlen. simpl in Hlen. lia.
    + intros g1 x g3 Hx Hv He _ Hstep. cbn in Hv, He.
      rewrite length_alter, length_app in Hv. simpl in Hv.
      eapply grows_merge_edge; [exact Hstep | lia | left; exact Hx | discriminate|].
      intros _. lia.
Qed.

(** *** The ends of loops *)

Lemma grows_loop_jumps nv ne pre post finals g g' :
  for_each (fun g final_vertex =>
      g ← control_edge (CondStr "loop-jump") "loop-jump" final_vertex pre g;
      control_edge (CondStr "post-loop") "post-loop" final_vertex post g)
    finals g = Ok g' ->
  ne <= length (CFG.edge_store g) ->
  pre < length (CFG.vertex_store g) ->
  post < length (CFG.vertex_store g) ->
  grows nv ne finals g g' finals.
Proof.
  intros Hloop Hne Hpre Hpost.
  eapply grows_for_each; [exact Hloop|].
  intros g1 x g2 Hx Hv He _. cbv beta.
  destruct (control_edge (CondStr "loop-jump") "loop-jump" x pre g1)
    as [g3| |] eqn:Hjump; cbn -[control_edge]; try discriminate.
  intros Hpostedge.
  assert (H1 : grows nv ne finals g1 g3 finals).
  { eapply grows_control_edge;
      [exact Hjump | lia | left; exact Hx | discriminate | intros _; lia]. }
  eapply grows_seq; [exact H1|].
  pose proof (grows_vertices _ _ _ _ _ _ H1). pose proof (grows_edges _ _ _ _ _ _ H1).
  eapply grows_control_edge;
    [exact Hpostedge | lia | left; exact Hx | discriminate | intros _; lia].
Qed.

Lemma grows_loop_tail nv ne entry iter body pre post finals additional ls g ls' g' :
  loop_tail entry iter body pre post finals additional ls g = Ok (ls', g') ->
  ne <= length (CFG.edge_store g) ->
  nv <= pre ->
  nv <= post ->
  pre < length (CFG.vertex_store g) ->
  post < length (CFG.vertex_store g) ->
  grows nv ne finals g g' (current_vertices ls').
Proof.
  unfold loop_tail. intros Hrun Hne Hnvpre Hnvpost Hpre Hpost.
  destruct (first_statement body) as [first| |];
    cbn -[for_each control_edge loop_skip_edge] in Hrun; try discriminate.
  match type of Hrun with context [for_each ?f ?l ?g1] =>
    destruct (for_each f l g1) as [g2| |] eqn:Hloop
  end; cbn -[loop_skip_edge] in Hrun; try discriminate.
  destruct (loop_skip_edge iter pre post g2) as [g3| |] eqn:Hskip;
    cbn in Hrun; try discriminate.
  injection Hrun as <- <-. cbn [current_vertices].
  apply grows_loop_jumps with (nv := nv) (ne := ne) in Hloop as H1;
    [|exact Hne | exact Hpre | exact Hpost].
  pose proof (grows_vertices _ _ _ _ _ _ H1) as Hv1. cbn in Hv1.
  pose proof (grows_edges _ _ _ _ _ _ H1) as He1. cbn in He1.
  assert (H2 : grows nv ne finals g2 g3 finals).
  { eapply grows_loop_skip_edge; [exact Hskip | lia | exact Hnvpre | lia]. }
  eapply grows_return.
  - eapply grows_seq; [|exact H2].
    eapply grows_seq; [|exact H1]. apply grows_same_stores; reflexivity.
  - intros v Hv. apply list_elem_of_singleton in Hv. subst v. right.
    split; [exact Hnvpost|].
    pose proof (grows_vertices _ _ _ _ _ _ H2). lia.
Qed.

Lemma grows_while_tail nv ne finals ls g ls' g' :
  while_tail finals ls g = Ok (ls', g') ->
  ne <= length (CFG.edge_store g) ->
  grows nv ne (current_vertices ls ++ finals) g g' (current_vertices ls').
Proof.
  unfold while_tail. intros Hrun Hne.
  match type of Hrun with context [for_each ?f ?l ?g1] =>
    destruct (for_each f l g1) as [g2| |] eqn:Hloop
  end; cbn in Hrun; try discriminate.
  injection Hrun as <- <-. cbn [current_vertices].
  eapply grows_return.
  - eapply grows_for_each; [exact Hloop|].
    intros g1 x g3 Hx Hv He Hvalid Hinner.
    assert (H1 : grows nv (length (CFG.edge_store g1)) (current_vertices ls ++ finals)
                   g1 g3 (current_vertices ls ++ finals)).
    { eapply grows_for_each; [exact Hinner|].
      intros g4 y g5 Hy Hv4 He4 Hvalid4 Hstep.
      eapply grows_control_edge; [exact Hstep | lia | | discriminate |].
      - left. apply elem_of_app. right. exact Hx.
      - intros Hg4. unfold valid in Hg4. rewrite Forall_forall in Hg4.
        apply Hg4. apply elem_of_app. left. exact Hy. }
    constructor.
    + apply (grows_vertices _ _ _ _ _ _ H1).
    + apply (grows_edges _ _ _ _ _ _ H1).
    + apply (keeps_instruction _ _ _ _ _ _ H1).
    + intros e Hlt. apply (keeps_edge _ _ _ _ _ _ H1). lia.
    + apply (keeps_name _ _ _ _ _ _ H1).
    + apply (extends_edges _ _ _ _ _ _ H1).
    + apply (fresh_or_start _ _ _ _ _ _ H1).
    + apply (keeps_well_formed _ _ _ _ _ _ H1).
  - intros v Hv. left. apply elem_of_app. right. exact Hv.
Qed.

(** *** Blocks

    The invariant for every block, by induction on the size of the
    block. *)

Lemma process_entry_assign is_last ivc targets value st :
  process_entry is_last ivc (Assign targets value) st
  = straight_line (Assign targets value) (CFG.reference_variables (snd st)) ivc st.
Proof. reflexivity. Qed.

Lemma process_entry_call is_last ivc func args st :
  process_entry is_last ivc (Expr (Call func args)) st
  = straight_line (Expr (Call func args)) (CFG.reference_variables (snd st)) ivc st.
Proof. reflexivity. Qed.

Lemma process_entry_pass is_last ivc st :
  process_entry is_last ivc Pass st = straight_line Pass [] ivc st.
Proof. reflexivity. Qed.

Lemma process_entry_raise is_last ivc type st :
  process_entry is_last ivc (Raise type) st = straight_line (Raise type) [] ivc st.
Proof. reflexivity. Qed.

Lemma process_entry_return is_last ivc value st :
  process_entry is_last ivc (Return value) st
  = (st ← straight_line (Return value) [] ivc st; Ok (log_return st)).
Proof. reflexivity. Qed.

Definition start_of (starting_vertices : option (list vertex_ref)) (g : CFG.t)
  : list vertex_ref :=
  match starting_vertices with
  | Some vs => vs
  | None => [CFG.starting_vertices g]
  end.

(** Blocks of size below [n] keep the invariant. *)
Definition block_grows (n : nat) : Prop :=
  forall block starting_vertices conds ivc g finals g' nv ne,
    block_size block < n ->
    process_block block starting_vertices conds ivc g = Ok (finals, g') ->
    nv <= length (CFG.vertex_store g) ->
    ne <= length (CFG.edge_store g) ->
    grows nv ne (start_of starting_vertices g) g g' finals.

Section sized.

Variable n : nat.
Hypothesis Hblock : block_grows n.

Lemma grows_conditional_branches head ivc nv ne :
  forall m current_conditional k conds ccs finals g finals' k' else_present g',
  stmt_size current_conditional <= m ->
  stmt_size current_conditional <= n ->
  conditional_branches head ivc k conds ccs current_conditional finals g
  = Ok (finals', k', else_present, g') ->
  nv <= length (CFG.vertex_store g) ->
  ne <= length (CFG.edge_store g) ->
  exists fs, finals' = finals ++ fs /\ grows nv ne [head] g g' fs.
Proof using Hblock.
  induction m as [|m IH];
    intros cc k conds ccs finals g finals' k' else_present g' Hm Hn Hrun Hnv Hne.
  { destruct cc; cbn in Hm; lia. }
  destruct cc as [| | | | |test body orelse| | | |];
    try (cbn in Hrun; injection Hrun as <- _ _ <-; exists []; rewrite app_nil_r;
         split; [reflexivity|];
         eapply grows_return; [apply grows_refl|];
         intros v Hv; apply elem_of_nil in Hv; contradiction).
  rewrite stmt_size_if in Hm, Hn.
  cbn -[process_block first_statement] in Hrun.
  destruct (process_block body (Some [head]) conds ivc g) as [[fv1 g1]| |] eqn:Hbody;
    cbn -[process_block first_statement] in Hrun; try discriminate.
  apply (Hblock _ _ _ _ _ _ _ nv ne) in Hbody as H1; [|lia|exact Hnv|exact Hne].
  cbn [start_of] in H1.
  pose proof (grows_vertices _ _ _ _ _ _ H1) as Hv1.
  pose proof (grows_edges _ _ _ _ _ _ H1) as He1.
  destruct (first_statement body) as [first| |];
    cbn -[process_block first_statement] in Hrun; try discriminate.
  destruct orelse as [|next rest].
  - injection Hrun as <- _ _ <-. exists fv1. split; [reflexivity|].
    eapply grows_seq; [exact H1|]. apply grows_same_stores; reflexivity.
  - assert (Helse : forall fv2 g2,
              process_block (next :: rest) (Some [head]) ccs ivc
                (CFG.append_branch_initial_statement (BisConditional first k) g1)
              = Ok (fv2, g2) ->
              grows nv ne [head] g g2 (fv1 ++ fv2)).
    { intros fv2 g2 Hrest.
      apply (Hblock _ _ _ _ _ _ _ nv ne) in Hrest as H2;
        [|lia | cbn; lia | cbn; lia].
      cbn [start_of] in H2.
      eapply grows_then;
        [exact H1
        |eapply grows_seq; [|exact H2]; apply grows_same_stores; reflexivity
        | |].
      - intros v Hv. left. exact Hv.
      - intros v Hv. apply elem_of_app in Hv as [Hv|Hv]; auto. }
    assert (Hfinish : forall fv2 g2 (b : stmt),
              grows nv ne [head] g g2 (fv1 ++ fv2) ->
              grows nv ne [head] g
                (CFG.append_branch_initial_statement (BisConditional b (S k)) g2)
                (fv1 ++ fv2)).
    { intros fv2 g2 b H2. eapply grows_seq; [exact H2|].
      apply grows_same_stores; reflexivity. }
    destruct next as [| | | | |test' body' orelse'| | | |];
      try (destruct (process_block _ (Some [head]) ccs ivc _)
             as [[fv2 g2]| |] eqn:Hrest in Hrun;
           cbn -[process_block first_statement] in Hrun; try discriminate;
           injection Hrun as <- _ _ <-; exists (fv1 ++ fv2);
           split; [rewrite app_assoc; reflexivity|];
           apply Hfinish, Helse, Hrest).
    apply IH in Hrun as [fs [-> H2]].
    + exists (fv1 ++ fs). split; [rewrite app_assoc; reflexivity|].
      eapply grows_then;
        [exact H1
        |eapply grows_seq; [|exact H2]; apply grows_same_stores; reflexivity
        | |].
      * intros v Hv. left. exact Hv.
      * intros v Hv. apply elem_of_app in Hv as [Hv|Hv]; auto.
    + cbn [block_size] in Hm. lia.
    + cbn [block_size] in Hn. lia.
    + cbn. lia.
    + cbn. lia.
Qed.


Lemma grows_handler_blocks head ivc nv ne :
  forall blocks finals g finals' g',
  blocks_size blocks <= n ->
  handler_blocks head ivc blocks finals g = Ok (finals', g') ->
  nv <= length (CFG.vertex_store g) ->
  ne <= length (CFG.edge_store g) ->
  exists fs, finals' = finals ++ fs /\ grows nv ne [head] g g' fs.
Proof using Hblock.
  induction blocks as [|block rest IH]; intros finals g finals' g' Hn Hrun Hnv Hne.
  - injection Hrun as <- <-. exists []. rewrite app_nil_r. split; [reflexivity|].
    eapply grows_return; [apply grows_refl|].
    intros v Hv. apply elem_of_nil in Hv. contradiction.
  - cbn [blocks_size] in Hn. cbn -[process_block] in Hrun.
    destruct (process_block block (Some [head]) [Tag "try-catch-handler"] ivc g)
      as [[fv1 g1]| |] eqn:Hbody; cbn -[process_block] in Hrun; try discriminate.
    apply (Hblock _ _ _ _ _ _ _ nv ne) in Hbody as H1; [|lia|exact Hnv|exact Hne].
    cbn [start_of] in H1.
    pose proof (grows_vertices _ _ _ _ _ _ H1) as Hv1.
    pose proof (grows_edges _ _ _ _ _ _ H1) as He1.
    apply IH in Hrun as [fs [-> H2]]; [|lia|lia|lia].
    exists (fv1 ++ fs). split; [rewrite app_assoc; reflexivity|].
    eapply grows_then; [exact H1 | exact H2 | |].
    + intros v Hv. left. exact Hv.
    + intros v Hv. apply elem_of_app in Hv as [Hv|Hv]; auto.
Qed.

(** One statement whose blocks are smaller than [n]. *)
Lemma grows_process_entry is_last ivc entry ls g ls' g' nv ne :
  stmt_size entry <= n ->
  process_entry is_last ivc entry (ls, g) = Ok (ls', g') ->
  nv <= length (CFG.vertex_store g) ->
  ne <= length (CFG.edge_store g) ->
  grows nv ne (current_vertices ls) g g' (current_vertices ls').
Proof using Hblock.
  intros Hn Hrun Hnv Hne.
  destruct entry as [targets value|value|value|type| |test body orelse
                    |body handlers|target iter body|test body|kind].
  - rewrite process_entry_assign in Hrun.
    eapply grows_straight_line; eassumption.
  - destruct value; try (injection Hrun as <- <-; apply grows_refl).
    rewrite process_entry_call in Hrun.
    eapply grows_straight_line; eassumption.
  - rewrite process_entry_return in Hrun.
    destruct (straight_line (Return value) [] ivc (ls, g)) as [[ls1 g1]| |] eqn:Hline;
      cbn -[log_return] in Hrun; try discriminate.
    pose proof (grows_log_return nv ne (current_vertices ls1) ls1 g1) as H2.
    unfold log_return in Hrun, H2. injection Hrun as <- <-. cbn [snd] in H2.
    eapply grows_seq; [|exact H2].
    eapply grows_straight_line; eassumption.
  - rewrite process_entry_raise in Hrun.
    eapply grows_straight_line; eassumption.
  - rewrite process_entry_pass in Hrun.
    eapply grows_straight_line; eassumption.
  - (* if *)
    rewrite process_entry_if in Hrun. rewrite stmt_size_if in Hn.
    destruct (conditional_head (If test body orelse) is_last ls g)
      as [[head g0]| |] eqn:Hhead;
      cbn -[conditional_branches conditional_merge] in Hrun; try discriminate.
    destruct (grows_conditional_head nv ne _ _ _ _ _ _ Hhead Hne) as [-> [H0 Hlt]].
    pose proof (grows_vertices _ _ _ _ _ _ H0) as Hv0.
    pose proof (grows_edges _ _ _ _ _ _ H0) as He0.
    destruct (conditional_branches (length (CFG.vertex_store g)) ivc 0 [Test test]
                [LNot test] (If test body orelse) [] g0)
      as [[[[finals k] else_present] g1]| |] eqn:Hbranches;
      cbn -[conditional_merge] in Hrun; try discriminate.
    eapply (grows_conditional_branches _ _ nv ne) in Hbranches as [fs [-> H1]];
      [|reflexivity | rewrite stmt_size_if; lia | lia | lia].
    cbn [app] in Hrun.
    pose proof (grows_vertices _ _ _ _ _ _ H1) as Hv1.
    pose proof (grows_edges _ _ _ _ _ _ H1) as He1.
    rewrite conditional_merge_eq in Hrun.
    match type of Hrun with context [merge_step ?s ?a ?b ?h ?t ?g2] =>
      destruct (merge_step s a b h t g2) as [[cv g3]| |] eqn:Hmerge;
      assert (Hsame : CFG.vertex_store g2 = CFG.vertex_store g1
                      /\ CFG.edge_store g2 = CFG.edge_store g1)
        by (destruct else_present; split; reflexivity)
    end; cbn in Hrun; try discriminate.
    injection Hrun as <- <-. cbn [current_vertices].
    destruct Hsame as [Hsv Hse].
    apply (grows_merge_step nv ne) in Hmerge as H2;
      [|reflexivity | reflexivity | rewrite Hsv; lia | rewrite Hse; lia].
    eapply grows_weaken
      with (cur2 := conditional_tails (length (CFG.vertex_store g)) fs else_present)
      in H2; [|intros v Hv; apply elem_of_filter_bool in Hv as [Hv _]; exact Hv].
    eapply grows_seq; [|exact H2].
    eapply grows_seq;
      [|apply (grows_same_stores _ _ _ g1); destruct else_present; reflexivity].
    eapply grows_then; [exact H0 | exact H1 | |].
    + intros v Hv. apply list_elem_of_singleton in Hv. subst v. right. right. lia.
    + intros v Hv. unfold conditional_tails in Hv.
      destruct else_present; [auto|].
      apply elem_of_app in Hv as [Hv|Hv]; [auto|].
      apply list_elem_of_singleton in Hv. subst v. right. right. lia.
  - (* try *)
    rewrite process_entry_try in Hrun. rewrite stmt_size_try in Hn.
    destruct (try_head (Try body handlers) body handlers is_last ls g)
      as [[head g0]| |] eqn:Hhead;
      cbn -[process_block handler_blocks try_merge] in Hrun; try discriminate.
    destruct (grows_try_head nv ne _ _ _ _ _ _ _ _ Hhead Hne) as [-> [H0 Hlt]].
    pose proof (grows_vertices _ _ _ _ _ _ H0) as Hv0.
    pose proof (grows_edges _ _ _ _ _ _ H0) as He0.
    destruct (process_block body (Some [length (CFG.vertex_store g)])
                [Tag "try-catch-main"] ivc g0) as [[fv1 g1]| |] eqn:Hbody;
      cbn -[process_block handler_blocks try_merge] in Hrun; try discriminate.
    apply (Hblock _ _ _ _ _ _ _ nv ne) in Hbody as H1; [|lia|lia|lia].
    cbn [start_of] in H1.
    pose proof (grows_vertices _ _ _ _ _ _ H1) as Hv1.
    pose proof (grows_edges _ _ _ _ _ _ H1) as He1.
    destruct (handler_blocks (length (CFG.vertex_store g)) ivc handlers fv1 g1)
      as [[finals g2]| |] eqn:Hhandlers;
      cbn -[try_merge] in Hrun; try discriminate.
    apply (grows_handler_blocks _ _ nv ne) in Hhandlers as [fs [-> H2]];
      [|lia|lia|lia].
    pose proof (grows_vertices _ _ _ _ _ _ H2) as Hv2.
    pose proof (grows_edges _ _ _ _ _ _ H2) as He2.
    rewrite try_merge_eq in Hrun.
    destruct (merge_step CFGVertex.set_post_try_catch_vertex "post-try-catch"
                "post-try-catch" (length (CFG.vertex_store g)) (fv1 ++ fs) g2)
      as [[cv g3]| |] eqn:Hmerge; cbn in Hrun; try discriminate.
    injection Hrun as <- <-. cbn [current_vertices].
    apply (grows_merge_step nv ne) in Hmerge as H3;
      [|reflexivity | reflexivity | lia | lia].
    eapply grows_weaken with (cur2 := fv1 ++ fs) in H3;
      [|intros v Hv; apply elem_of_filter_bool in Hv as [Hv _]; exact Hv].
    eapply grows_seq; [|exact H3].
    eapply grows_then; [exact H0| | |intros v Hv; right; left; exact Hv].
    + eapply grows_then; [exact H1 | exact H2 | |].
      * intros v Hv. left. exact Hv.
      * intros v Hv. apply elem_of_app in Hv as [Hv|Hv]; auto.
    + intros v Hv. apply list_elem_of_singleton in Hv. subst v. right. right. lia.
  - (* for *)
    rewrite process_entry_for in Hrun. rewrite stmt_size_for in Hn.
    destruct (loop_head iter ls g) as [[[pre post] g0]| |] eqn:Hhead;
      cbn -[process_block loop_tail loop_input_variables] in Hrun; try discriminate.
    destruct (grows_loop_head nv ne _ _ _ _ _ _ Hhead Hne) as [-> [-> [H0 Hlt]]].
    pose proof (grows_vertices _ _ _ _ _ _ H0) as Hv0.
    pose proof (grows_edges _ _ _ _ _ _ H0) as He0.
    destruct (loop_input_variables target (additional_input_variables ls))
      as [additional| |];
      cbn -[process_block loop_tail] in Hrun; try discriminate.
    destruct additional as [extra|];
      cbn -[process_block loop_tail] in Hrun; try discriminate.
    destruct (process_block body (Some [length (CFG.vertex_store g)])
                [Tag "enter-loop"] (ivc ++ extra) g0) as [[finals g1]| |] eqn:Hbody;
      cbn -[loop_tail] in Hrun; try discriminate.
    apply (Hblock _ _ _ _ _ _ _ nv ne) in Hbody as H1; [|lia|lia|lia].
    cbn [start_of] in H1.
    pose proof (grows_vertices _ _ _ _ _ _ H1) as Hv1.
    pose proof (grows_edges _ _ _ _ _ _ H1) as He1.
    apply (grows_loop_tail nv ne) in Hrun as H2; [|lia|lia|lia|lia|lia].
    eapply grows_seq; [|exact H2].
    eapply grows_then; [exact H0 | exact H1 | |intros v Hv; right; left; exact Hv].
    intros v Hv. apply list_elem_of_singleton in Hv. subst v. right. right. lia.
  - (* while *)
    rewrite process_entry_while in Hrun. rewrite stmt_size_while in Hn.
    destruct (process_block body (Some (current_vertices ls)) [Tag "while"] ivc g)
      as [[finals g1]| |] eqn:Hbody;
      cbn -[while_tail] in Hrun; try discriminate.
    apply (Hblock _ _ _ _ _ _ _ nv ne) in Hbody as H1; [|lia|lia|lia].
    cbn [start_of] in H1.
    pose proof (grows_edges _ _ _ _ _ _ H1) as He1.
    apply (grows_while_tail nv ne) in Hrun as H2; [|lia].
    eapply grows_then; [exact H1 | exact H2 | |intros v Hv; right; left; exact Hv].
    intros v Hv. apply elem_of_app in Hv as [Hv|Hv]; auto.
  - injection Hrun as <- <-. apply grows_refl.
Qed.

(** The statements of a block one after the other. *)
Lemma grows_process_entries ivc nv ne :
  forall block ls g ls' g',
  block_size block <= n ->
  process_entries process_entry ivc block (ls, g) = Ok (ls', g') ->
  nv <= length (CFG.vertex_store g) ->
  ne <= length (CFG.edge_store g) ->
  grows nv ne (current_vertices ls) g g' (current_vertices ls').
Proof using Hblock.
  induction block as [|entry rest IH]; intros ls g ls' g' Hn Hrun Hnv Hne.
  - injection Hrun as <- <-. apply grows_refl.
  - cbn [block_size] in Hn. cbn -[process_entry] in Hrun.
    destruct (process_entry (is_nil rest) ivc entry (ls, g)) as [[ls1 g1]| |] eqn:Hentry;
      cbn -[process_entry] in Hrun; try discriminate.
    apply (grows_process_entry _ _ _ _ _ _ _ nv ne) in Hentry as H1; [|lia|lia|lia].
    pose proof (grows_vertices _ _ _ _ _ _ H1) as Hv1.
    pose proof (grows_edges _ _ _ _ _ _ H1) as He1.
    eapply grows_seq; [exact H1|].
    apply IH; [lia | exact Hrun | lia | lia].
Qed.

End sized.

Lemma block_grows_all n : block_grows n.
Proof.
  induction n as [|n IH]; intros block sv conds ivc g finals g' nv ne Hn Hrun Hnv Hne.
  - lia.
  - unfold process_block, process_block_with in Hrun.
    match type of Hrun with context [process_entries ?f ?i ?b ?st] =>
      destruct (process_entries f i b st) as [[ls1 g1]| |] eqn:Hentries
    end; cbn in Hrun; try discriminate.
    injection Hrun as <- <-.
    apply (grows_process_entries n IH ivc nv ne) in Hentries; [|lia|lia|lia].
    exact Hentries.
Qed.

(** [process_block] keeps the invariant. *)
Lemma grows_process_block block starting_vertices conds ivc g finals g' nv ne :
  process_block block starting_vertices conds ivc g = Ok (finals, g') ->
  nv <= length (CFG.vertex_store g) ->
  ne <= length (CFG.edge_store g) ->
  grows nv ne (start_of starting_vertices g) g g' finals.
Proof.
  apply (block_grows_all (S (block_size block))). lia.
Qed.

(** One statement keeps the invariant. *)
Lemma grows_statement is_last ivc entry ls g ls' g' nv ne :
  process_entry is_last ivc entry (ls, g) = Ok (ls', g') ->
  nv <= length (CFG.vertex_store g) ->
  ne <= length (CFG.edge_store g) ->
  grows nv ne (current_vertices ls) g g' (current_vertices ls').
Proof.
  apply (grows_process_entry (stmt_size entry) (block_grows_all _)). lia.
Qed.

Lemma grows_branches head ivc nv ne cc k conds ccs finals g finals' k' else_present g' :
  conditional_branches head ivc k conds ccs cc finals g
  = Ok (finals', k', else_present, g') ->
  nv <= length (CFG.vertex_store g) ->
  ne <= length (CFG.edge_store g) ->
  exists fs, finals' = finals ++ fs /\ grows nv ne [head] g g' fs.
Proof.
  apply (grows_conditional_branches (stmt_size cc) (block_grows_all _) head ivc nv ne
           (stmt_size cc)); lia.
Qed.

Lemma grows_handlers head ivc nv ne blocks finals g finals' g' :
  handler_blocks head ivc blocks finals g = Ok (finals', g') ->
  nv <= length (CFG.vertex_store g) ->
  ne <= length (CFG.edge_store g) ->
  exists fs, finals' = finals ++ fs /\ grows nv ne [head] g g' fs.
Proof.
  apply (grows_handler_blocks (blocks_size blocks) (block_grows_all _)). lia.
Qed.

(** ** The edges of one step, exactly *)

Lemma edges_of_update_vertex f v g x :
  (forall y, CFGVertex.edges (f y) = CFGVertex.edges y) ->
  edges_of (CFG.update_vertex f v g) x = edges_of g x.
Proof.
  intros Hf. stores. rewrite list_lookup_alter. case_decide; [subst x|reflexivity].
  destruct (CFG.vertex_store g !! v); [|reflexivity]. simpl. rewrite Hf. reflexivity.
Qed.

Lemma edges_of_append_edge e v g l :
  edges_of g v = Some l ->
  edges_of (CFG.update_vertex (CFGVertex.append_edge e) v g) v = Some (l ++ [e]).
Proof.
  stores. rewrite list_lookup_alter. case_decide; [|congruence].
  destruct (CFG.vertex_store g !! v); [|discriminate]. simpl. intros [= <-]. reflexivity.
Qed.

(** A new edge object, attached to its source and then to its
    target. *)
Lemma attach_spec g g1 ed v t l :
  CFG.vertex_store g1 = CFG.vertex_store g ->
  CFG.edge_store g1 = CFG.edge_store g ++ [ed] ->
  edges_of g v = Some l ->
  let e := length (CFG.edge_store g) in
  let g' := CFG.set_target_state e t (CFG.add_outgoing_edge v e g1) in
  edges_of g' v = Some (l ++ [e])
  /\ instruction_of g' e = Some (CFGEdge._instruction ed)
  /\ source_of g' e = Some v
  /\ target_of g' e = Some t
  /\ length (CFG.vertex_store g') = length (CFG.vertex_store g)
  /\ length (CFG.edge_store g') = S (length (CFG.edge_store g)).
Proof.
  intros Hvs Hes Hl e g'.
  assert (He : CFG.edge_store g' !! e
               = Some (CFGEdge.set_target t (CFGEdge.set_source_state v ed))).
  { unfold g', CFG.set_target_state, CFG.add_outgoing_edge. stores.
    rewrite !list_lookup_alter. case_decide; [|congruence].
    rewrite Hes. unfold e. rewrite list_lookup_middle by reflexivity. reflexivity. }
  split; [|split; [|split; [|split; [|split]]]].
  - unfold g', CFG.set_target_state.
    rewrite edges_of_update_vertex by reflexivity.
    unfold CFG.add_outgoing_edge.
    change (edges_of (CFG.update_edge (CFGEdge.set_target t) e
              (CFG.update_vertex (CFGVertex.append_edge e) v
                 (CFG.update_edge (CFGEdge.set_source_state v) e g1))) v)
      with (edges_of (CFG.update_vertex (CFGVertex.append_edge e) v g1) v).
    apply edges_of_append_edge. unfold edges_of. rewrite Hvs. exact Hl.
  - unfold instruction_of. rewrite He. reflexivity.
  - unfold source_of. rewrite He. reflexivity.
  - unfold target_of. rewrite He. reflexivity.
  - unfold g', CFG.set_target_state, CFG.add_outgoing_edge. stores.
    rewrite !length_alter. congruence.
  - unfold g', CFG.set_target_state, CFG.add_outgoing_edge. stores.
    rewrite !length_alter, Hes, length_app. simpl. lia.
Qed.

Lemma control_edge_spec cond instr v t g g' l :
  control_edge cond instr v t g = Ok g' ->
  edges_of g v = Some l ->
  edges_of g' v = Some (l ++ [length (CFG.edge_store g)])
  /\ instruction_of g' (length (CFG.edge_store g)) = Some (IStr instr)
  /\ source_of g' (length (CFG.edge_store g)) = Some v
  /\ target_of g' (length (CFG.edge_store g)) = Some t
  /\ length (CFG.vertex_store g') = length (CFG.vertex_store g)
  /\ length (CFG.edge_store g') = S (length (CFG.edge_store g)).
Proof.
  rewrite control_edge_eq. intros [= <-] Hl.
  apply (attach_spec g _ (synthetic_edge cond instr) v t l); auto.
Qed.

Lemma loop_skip_edge_spec iter pre post g g' l :
  loop_skip_edge iter pre post g = Ok g' ->
  edges_of g pre = Some l ->
  edges_of g' pre = Some (l ++ [length (CFG.edge_store g)])
  /\ instruction_of g' (length (CFG.edge_store g)) = Some loop_skip
  /\ source_of g' (length (CFG.edge_store g)) = Some pre
  /\ target_of g' (length (CFG.edge_store g)) = Some post
  /\ length (CFG.vertex_store g') = length (CFG.vertex_store g)
  /\ length (CFG.edge_store g') = S (length (CFG.edge_store g)).
Proof.
  rewrite loop_skip_edge_eq. intros [= <-] Hl.
  apply (attach_spec g _ (synthetic_edge (CondFormula (LNot iter)) "loop-skip")
           pre post l); auto.
Qed.

(** Edges between vertices that exist add no vertex. *)
Lemma link_all_vertices cond instr sources target :
  forall g g',
  link_all cond instr sources target g = Ok g' ->
  length (CFG.vertex_store g') = length (CFG.vertex_store g).
Proof.
  unfold link_all. induction sources as [|x l IH]; intros g g'.
  - intros [= <-]. reflexivity.
  - cbn -[control_edge]. rewrite control_edge_eq. cbn -[control_edge].
    intros Hrest. apply IH in Hrest. rewrite Hrest.
    unfold CFG.set_target_state, CFG.add_outgoing_edge. stores.
    rewrite !length_alter. reflexivity.
Qed.

Lemma link_all_one cond instr v target g g' :
  link_all cond instr [v] target g = Ok g' ->
  control_edge cond instr v target g = Ok g'.
Proof.
  unfold link_all. cbn -[control_edge]. rewrite control_edge_eq. cbn -[control_edge].
  exact id.
Qed.

Lemma edges_of_old g g1 added v l :
  CFG.vertex_store g1 = CFG.vertex_store g ++ added ->
  edges_of g v = Some l -> edges_of g1 v = Some l.
Proof.
  unfold edges_of. intros ->.
  destruct (CFG.vertex_store g !! v) as [x|] eqn:Hx; [|discriminate].
  rewrite (lookup_app_l_Some _ _ _ _ Hx). exact id.
Qed.

Lemma valid_not_fresh g cur v :
  valid g cur -> length (CFG.vertex_store g) <= v -> v ∉ cur.
Proof.
  unfold valid. rewrite Forall_forall. intros Hvalid Hge Hin.
  apply Hvalid in Hin. lia.
Qed.

(** What the head of a [for] leaves. *)
Lemma loop_head_spec iter ls g pre post g0 :
  loop_head iter ls g = Ok (pre, post, g0) ->
  valid g (current_vertices ls) ->
  pre = length (CFG.vertex_store g)
  /\ post = S (length (CFG.vertex_store g))
  /\ length (CFG.vertex_store g0) = S (S (length (CFG.vertex_store g)))
  /\ length (CFG.edge_store g) <= length (CFG.edge_store g0)
  /\ name_of g0 pre = Some loop_name
  /\ name_of g0 post = Some post_loop_name
  /\ edges_of g0 pre = Some []
  /\ (forall v l, current_vertices ls = [v] -> edges_of g v = Some l ->
        edges_of g0 v = Some (l ++ [length (CFG.edge_store g)])
        /\ source_of g0 (length (CFG.edge_store g)) = Some v
        /\ target_of g0 (length (CFG.edge_store g)) = Some pre
        /\ length (CFG.edge_store g0) = S (length (CFG.edge_store g))).
Proof.
  unfold loop_head. intros Hrun Hvalid.
  cbn -[link_all] in Hrun.
  match type of Hrun with context [link_all ?c ?i ?s ?t ?x] =>
    set (g1 := x) in Hrun;
    destruct (link_all c i s t g1) as [g2| |] eqn:Hlink
  end; cbn in Hrun; try discriminate. injection Hrun as <- <- <-.
  assert (Hvs : CFG.vertex_store g1
                = CFG.vertex_store g ++ [CFGVertex.synthetic [Some "loop"] None;
                                         CFGVertex.synthetic [Some "post-loop"] None]).
  { unfold g1. cbn. rewrite <- app_assoc. reflexivity. }
  assert (Hes : CFG.edge_store g1 = CFG.edge_store g) by reflexivity.
  assert (Hlen : length (CFG.vertex_store g1) = S (S (length (CFG.vertex_store g)))).
  { rewrite Hvs, length_app. simpl. lia. }
  pose proof (link_all_vertices _ _ _ _ _ _ Hlink) as Hsame.
  assert (H1 : grows (length (CFG.vertex_store g1)) (length (CFG.edge_store g))
                 (current_vertices ls) g1 g2 (current_vertices ls)).
  { eapply grows_link_all; [exact Hlink | rewrite Hes; lia | auto | discriminate | lia]. }
  assert (Hpre : CFG.vertex_store g1 !! length (CFG.vertex_store g)
                 = Some (CFGVertex.synthetic [Some "loop"] None)).
  { rewrite Hvs. apply list_lookup_middle. reflexivity. }
  assert (Hpost : CFG.vertex_store g1 !! S (length (CFG.vertex_store g))
                  = Some (CFGVertex.synthetic [Some "post-loop"] None)).
  { rewrite Hvs. rewrite lookup_app_r by lia.
    replace (S (length (CFG.vertex_store g)) - length (CFG.vertex_store g)) with 1 by lia.
    reflexivity. }
  split; [reflexivity|]. split; [rewrite length_app; simpl; lia|].
  split; [congruence|]. split; [rewrite <- Hes; apply (grows_edges _ _ _ _ _ _ H1)|].
  split; [apply (keeps_name _ _ _ _ _ _ H1); unfold name_of; rewrite Hpre; reflexivity|].
  split.
  { rewrite length_app. simpl. rewrite Nat.add_1_r.
    apply (keeps_name _ _ _ _ _ _ H1). unfold name_of. rewrite Hpost. reflexivity. }
  split.
  - destruct (extends_edges _ _ _ _ _ _ H1 (length (CFG.vertex_store g)) [])
      as [added [Hadd [_ Hframe]]]; [lia | unfold edges_of; rewrite Hpre; reflexivity|].
    rewrite Hframe in Hadd; [exact Hadd|].
    apply (valid_not_fresh g); [exact Hvalid | lia].
  - intros v l Hcur Hl. rewrite Hcur in Hlink. apply link_all_one in Hlink.
    destruct (control_edge_spec _ _ _ _ _ _ l Hlink) as [Ha [_ [Hb [Hc [_ Hd]]]]].
    + eapply edges_of_old; eassumption.
    + rewrite Hes in *. auto.
Qed.

(** ** After the head of a statement

    The steps of an [if], a [try] and a [for] that follow the edges
    into the head start from the head alone. *)

Lemma grows_entries ivc nv ne block ls g ls' g' :
  process_entries process_entry ivc block (ls, g) = Ok (ls', g') ->
  nv <= length (CFG.vertex_store g) ->
  ne <= length (CFG.edge_store g) ->
  grows nv ne (current_vertices ls) g g' (current_vertices ls').
Proof.
  apply (grows_process_entries (block_size block) (block_grows_all _)). lia.
Qed.

Lemma grows_conditional_merge nv ne entry head finals else_present k ls g ls' g' :
  conditional_merge entry head finals else_present k ls g = Ok (ls', g') ->
  nv <= length (CFG.vertex_store g) ->
  ne <= length (CFG.edge_store g) ->
  grows nv ne (conditional_tails head finals else_present) g g' (current_vertices ls').
Proof.
  rewrite conditional_merge_eq. intros Hrun Hnv Hne.
  match type of Hrun with context [merge_step ?s ?a ?b ?h ?t ?g2] =>
    destruct (merge_step s a b h t g2) as [[cv g3]| |] eqn:Hmerge
  end; cbn in Hrun; try discriminate.
  injection Hrun as <- <-. cbn [current_vertices].
  apply (grows_merge_step nv ne) in Hmerge as H2;
    [|reflexivity | reflexivity | destruct else_present; exact Hnv
     | destruct else_present; exact Hne].
  eapply grows_weaken with (cur2 := conditional_tails head finals else_present) in H2;
    [|intros v Hv; apply elem_of_filter_bool in Hv as [Hv _]; exact Hv].
  eapply grows_seq; [|exact H2].
  apply grows_same_stores; destruct else_present; reflexivity.
Qed.

Lemma grows_try_merge nv ne head finals ls g ls' g' :
  try_merge head finals ls g = Ok (ls', g') ->
  nv <= length (CFG.vertex_store g) ->
  ne <= length (CFG.edge_store g) ->
  grows nv ne finals g g' (current_vertices ls').
Proof.
  rewrite try_merge_eq. intros Hrun Hnv Hne.
  match type of Hrun with context [merge_step ?s ?a ?b ?h ?t ?g2] =>
    destruct (merge_step s a b h t g2) as [[cv g3]| |] eqn:Hmerge
  end; cbn in Hrun; try discriminate.
  injection Hrun as <- <-. cbn [current_vertices].
  apply (grows_merge_step nv ne) in Hmerge as H2;
    [|reflexivity | reflexivity | exact Hnv | exact Hne].
  eapply grows_weaken; [exact H2|].
  intros v Hv. apply elem_of_filter_bool in Hv as [Hv _]. exact Hv.
Qed.

Lemma grows_if_rest nv ne entry head ivc conds ccs cc finals k else_present ls g0 g1 ls' g' :
  conditional_branches head ivc 0 conds ccs cc [] g0 = Ok (finals, k, else_present, g1) ->
  conditional_merge entry head finals else_present k ls g1 = Ok (ls', g') ->
  nv <= length (CFG.vertex_store g0) ->
  ne <= length (CFG.edge_store g0) ->
  grows nv ne [head] g0 g1 (conditional_tails head finals else_present)
  /\ grows nv ne [head] g0 g' (current_vertices ls').
Proof.
  intros Hbranches Hmerge Hnv Hne.
  apply (grows_branches _ _ nv ne) in Hbranches as [fs [-> H1]]; [|exact Hnv|exact Hne].
  cbn [app] in *.
  assert (H1' : grows nv ne [head] g0 g1 (conditional_tails head fs else_present)).
  { eapply grows_then; [apply grows_refl | exact H1 | |].
    - intros v Hv. left. exact Hv.
    - intros v Hv. unfold conditional_tails in Hv.
      destruct else_present; [auto|].
      apply elem_of_app in Hv as [Hv|Hv]; auto. }
  split; [exact H1'|].
  pose proof (grows_vertices _ _ _ _ _ _ H1). pose proof (grows_edges _ _ _ _ _ _ H1).
  eapply grows_seq; [exact H1'|].
  eapply grows_conditional_merge; [exact Hmerge | lia | lia].
Qed.

Lemma grows_try_rest nv ne head ivc conds body handlers ls g0 fv1 g1 finals g2 ls' g' :
  process_block body (Some [head]) conds ivc g0 = Ok (fv1, g1) ->
  handler_blocks head ivc handlers fv1 g1 = Ok (finals, g2) ->
  try_merge head finals ls g2 = Ok (ls', g') ->
  nv <= length (CFG.vertex_store g0) ->
  ne <= length (CFG.edge_store g0) ->
  grows nv ne [head] g0 g2 finals
  /\ grows nv ne [head] g0 g' (current_vertices ls').
Proof.
  intros Hbody Hhandlers Hmerge Hnv Hne.
  apply (grows_process_block _ _ _ _ _ _ _ nv ne) in Hbody as H1; [|exact Hnv|exact Hne].
  cbn [start_of] in H1.
  pose proof (grows_vertices _ _ _ _ _ _ H1). pose proof (grows_edges _ _ _ _ _ _ H1).
  apply (grows_handlers _ _ nv ne) in Hhandlers as [fs [-> H2]]; [|lia|lia].
  pose proof (grows_vertices _ _ _ _ _ _ H2). pose proof (grows_edges _ _ _ _ _ _ H2).
  assert (H12 : grows nv ne [head] g0 g2 (fv1 ++ fs)).
  { eapply grows_then; [exact H1 | exact H2 | |].
    - intros v Hv. left. exact Hv.
    - intros v Hv. apply elem_of_app in Hv as [Hv|Hv]; auto. }
  split; [exact H12|].
  eapply grows_seq; [exact H12|].
  eapply grows_try_merge; [exact Hmerge | lia | lia].
Qed.

Lemma grows_for_rest nv ne entry iter body conds ivc pre post additional ls g0 finals g1
    ls' g' :
  process_block body (Some [pre]) conds ivc g0 = Ok (finals, g1) ->
  loop_tail entry iter body pre post finals additional ls g1 = Ok (ls', g') ->
  nv <= pre ->
  nv <= post ->
  pre < length (CFG.vertex_store g0) ->
  post < length (CFG.vertex_store g0) ->
  ne <= length (CFG.edge_store g0) ->
  grows nv ne [pre] g0 g' (current_vertices ls').
Proof.
  intros Hbody Htail Hnvpre Hnvpost Hpre Hpost Hne.
  apply (grows_process_block _ _ _ _ _ _ _ nv ne) in Hbody as H1; [|lia|exact Hne].
  cbn [start_of] in H1.
  pose proof (grows_vertices _ _ _ _ _ _ H1). pose proof (grows_edges _ _ _ _ _ _ H1).
  eapply grows_seq; [exact H1|].
  eapply grows_loop_tail; [exact Htail | lia | lia | lia | lia | lia].
Qed.

(** *** The first statement from a single vertex *)

(** The edge [e] from [v] made by the head, and steps that start
    from the head [h]. *)
Lemma enter_then g g0 g' v l e t h cur' :
  edges_of g0 v = Some (l ++ [e]) ->
  source_of g0 e = Some v ->
  target_of g0 e = Some t ->
  grows (length (CFG.vertex_store g)) (length (CFG.edge_store g0)) [h] g0 g' cur' ->
  v < length (CFG.vertex_store g) ->
  length (CFG.vertex_store g) <= h ->
  edges_of g' v = Some (l ++ [e])
  /\ source_of g' e = Some v
  /\ target_of g' e = Some t
  /\ v ∉ cur'.
Proof.
  intros Hedges Hsource Htarget Hrest Hv Hh.
  assert (He : e < length (CFG.edge_store g0)).
  { unfold source_of in Hsource.
    destruct (CFG.edge_store g0 !! e) as [x|] eqn:Hx; [|discriminate].
    apply lookup_lt_Some in Hx. exact Hx. }
  assert (Hnot : v ∉ [h]).
  { intros Hin. apply list_elem_of_singleton in Hin. lia. }
  destruct (extends_edges _ _ _ _ _ _ Hrest v _ Hv Hedges) as [added [Hadd [_ Hframe]]].
  rewrite (Hframe Hnot), app_nil_r in Hadd.
  pose proof (keeps_edge _ _ _ _ _ _ Hrest e He) as Hkeep.
  split; [exact Hadd|].
  split; [unfold source_of; rewrite Hkeep; exact Hsource|].
  split; [unfold target_of; rewrite Hkeep; exact Htarget|].
  intros Hin. apply (fresh_or_start _ _ _ _ _ _ Hrest) in Hin as [Hin|Hge];
    [contradiction | lia].
Qed.

Lemma straight_line_one entry rv ivc ls g ls' g' v l :
  straight_line entry rv ivc (ls, g) = Ok (ls', g') ->
  current_vertices ls = [v] ->
  edges_of g v = Some l ->
  edges_of g' v = Some (l ++ [length (CFG.edge_store g)])
  /\ source_of g' (length (CFG.edge_store g)) = Some v
  /\ target_of g' (length (CFG.edge_store g)) = Some (length (CFG.vertex_store g))
  /\ current_vertices ls' = [length (CFG.vertex_store g)].
Proof.
  unfold straight_line, new_edges_from. intros Hrun Hcur Hl. rewrite Hcur in Hrun.
  cbn -[CFGEdge.__init__ CFGVertex.__init__] in Hrun.
  destruct (CFGEdge.__init__ (CondList (condition ls)) (IStmt entry) ivc)
    as [ed| |]; cbn -[CFGVertex.__init__] in Hrun; try discriminate.
  destruct (CFGVertex.__init__ (Some entry) (Some (S (path_length ls))) None rv)
    as [vx| |]; cbn in Hrun; try discriminate.
  injection Hrun as <- <-. cbn [current_vertices].
  rewrite !length_alter.
  assert (Hv : v < length (CFG.vertex_store g)).
  { unfold edges_of in Hl. destruct (CFG.vertex_store g !! v) as [x|] eqn:Hx;
      [|discriminate]. apply lookup_lt_Some in Hx. exact Hx. }
  split; [|split; [|split; [|reflexivity]]].
  - unfold edges_of in *. cbn.
    rewrite list_lookup_alter. 
    assert (Hin : (alter (CFGVertex.append_edge (length (CFG.edge_store g))) v
                     (CFG.vertex_store g) ++ [vx]) !! v
                  = CFGVertex.append_edge (length (CFG.edge_store g))
                      <$> CFG.vertex_store g !! v).
    { rewrite lookup_app_l by (rewrite length_alter; exact Hv).
      rewrite list_lookup_alter. case_decide; [reflexivity|congruence]. }
    rewrite Hin. case_decide; [lia|].
    destruct (CFG.vertex_store g !! v); [|discriminate]. simpl in *.
    injection Hl as <-. reflexivity.
  - unfold source_of. cbn. rewrite !list_lookup_alter.
    case_decide; [|congruence]. rewrite list_lookup_middle by reflexivity. reflexivity.
  - unfold target_of. cbn. rewrite !list_lookup_alter.
    case_decide; [|congruence]. rewrite list_lookup_middle by reflexivity. reflexivity.
Qed.

Lemma enter_one g g1 added cond instr v t g' l :
  CFG.vertex_store g1 = CFG.vertex_store g ++ added ->
  CFG.edge_store g1 = CFG.edge_store g ->
  link_all cond instr [v] t g1 = Ok g' ->
  edges_of g v = Some l ->
  edges_of g' v = Some (l ++ [length (CFG.edge_store g)])
  /\ source_of g' (length (CFG.edge_store g)) = Some v
  /\ target_of g' (length (CFG.edge_store g)) = Some t
  /\ length (CFG.vertex_store g') = length (CFG.vertex_store g) + length added
  /\ length (CFG.edge_store g') = S (length (CFG.edge_store g)).
Proof.
  intros Hvs Hes Hlink Hl. apply link_all_one in Hlink.
  destruct (control_edge_spec _ _ _ _ _ _ l Hlink) as [Ha [_ [Hb [Hc [Hd He]]]]].
  - eapply edges_of_old; eassumption.
  - rewrite Hes in *. rewrite Hvs, length_app in Hd. auto.
Qed.

Lemma conditional_head_one entry is_last ls g head g0 v l :
  conditional_head entry is_last ls g = Ok (head, g0) ->
  current_vertices ls = [v] ->
  edges_of g v = Some l ->
  head = length (CFG.vertex_store g)
  /\ edges_of g0 v = Some (l ++ [length (CFG.edge_store g)])
  /\ source_of g0 (length (CFG.edge_store g)) = Some v
  /\ target_of g0 (length (CFG.edge_store g)) = Some head
  /\ length (CFG.vertex_store g0) = S (length (CFG.vertex_store g))
  /\ length (CFG.edge_store g0) = S (length (CFG.edge_store g)).
Proof.
  unfold conditional_head. intros Hrun Hcur Hl. rewrite Hcur in Hrun.
  destruct is_last; cbn -[link_all] in Hrun;
    match type of Hrun with context [link_all ?c ?i ?s ?t ?g1] =>
      destruct (link_all c i s t g1) as [g2| |] eqn:Hlink
    end; cbn in Hrun; try discriminate; injection Hrun as <- <-;
    (split; [reflexivity|]);
    (eapply (enter_one g _ [CFGVertex.synthetic [Some "conditional"] (Some entry)])
       in Hlink as [Ha [Hb [Hc [Hd He]]]];
       [|reflexivity | reflexivity | exact Hl]);
    simpl in Hd; rewrite Nat.add_1_r in Hd; auto.
Qed.

Lemma try_head_one entry body handlers is_last ls g head g0 v l :
  try_head entry body handlers is_last ls g = Ok (head, g0) ->
  current_vertices ls = [v] ->
  edges_of g v = Some l ->
  head = length (CFG.vertex_store g)
  /\ edges_of g0 v = Some (l ++ [length (CFG.edge_store g)])
  /\ source_of g0 (length (CFG.edge_store g)) = Some v
  /\ target_of g0 (length (CFG.edge_store g)) = Some head
  /\ length (CFG.vertex_store g0) = S (length (CFG.vertex_store g))
  /\ length (CFG.edge_store g0) = S (length (CFG.edge_store g)).
Proof.
  unfold try_head. intros Hrun Hcur Hl. rewrite Hcur in Hrun.
  destruct is_last; cbn -[link_all for_each first_statement] in Hrun;
    match type of Hrun with context [link_all ?c ?i ?s ?t ?g1] =>
      destruct (link_all c i s t g1) as [g2| |] eqn:Hlink
    end; cbn -[for_each first_statement] in Hrun; try discriminate;
    (destruct (first_statement body) as [first| |];
       cbn -[for_each first_statement] in Hrun; try discriminate);
    match type of Hrun with context [for_each ?f ?l ?g1] =>
      destruct (for_each f l g1) as [g3| |] eqn:Hlog
    end; cbn in Hrun; try discriminate; injection Hrun as <- <-;
    apply handlers_log_stores in Hlog as [Hvs Hes]; cbn in Hvs, Hes;
    (split; [reflexivity|]);
    (eapply (enter_one g _ [CFGVertex.synthetic [Some "try-catch"] None])
       in Hlink as [Ha [Hb [Hc [Hd He]]]];
       [|reflexivity | reflexivity | exact Hl]);
    simpl in Hd; rewrite Nat.add_1_r in Hd;
    unfold edges_of, source_of, target_of in *; rewrite Hvs, Hes; auto.
Qed.

(** The statements that give the vertex they start from one edge,
    to a new vertex. *)
Definition enters (s : stmt) : bool :=
  match s with
  | Assign _ _ | Expr (Call _ _) | Pass | Return _ | Raise _
  | If _ _ _ | Try _ _ | For _ _ _ => true
  | _ => false
  end.

Lemma log_return_stores ls g :
  CFG.vertex_store (log_return (ls, g)).2 = CFG.vertex_store g
  /\ CFG.edge_store (log_return (ls, g)).2 = CFG.edge_store g.
Proof.
  unfold log_return. cbn [snd]. generalize (current_vertices ls). intros l. revert g.
  induction l as [|x l IH]; intros g; cbn; [auto|].
  destruct (IH (CFG.append_return_statement x g)) as [-> ->]. auto.
Qed.

Lemma enters_spec is_last ivc s ls g ls' g' v l :
  enters s = true ->
  process_entry is_last ivc s (ls, g) = Ok (ls', g') ->
  current_vertices ls = [v] ->
  edges_of g v = Some l ->
  edges_of g' v = Some (l ++ [length (CFG.edge_store g)])
  /\ source_of g' (length (CFG.edge_store g)) = Some v
  /\ target_of g' (length (CFG.edge_store g)) = Some (length (CFG.vertex_store g))
  /\ v ∉ current_vertices ls'.
Proof.
  intros Henters Hrun Hcur Hl.
  assert (Hvalid : valid g (current_vertices ls)).
  { rewrite Hcur. constructor; [|constructor]. unfold edges_of in Hl.
    destruct (CFG.vertex_store g !! v) as [x|] eqn:Hx; [|discriminate].
    apply lookup_lt_Some in Hx. exact Hx. }
  assert (Hv : v < length (CFG.vertex_store g)).
  { rewrite Hcur in Hvalid. inversion Hvalid. assumption. }
  assert (Hline : forall rv ls1 g1,
            straight_line s rv ivc (ls, g) = Ok (ls1, g1) ->
            edges_of g1 v = Some (l ++ [length (CFG.edge_store g)])
            /\ source_of g1 (length (CFG.edge_store g)) = Some v
            /\ target_of g1 (length (CFG.edge_store g))
               = Some (length (CFG.vertex_store g))
            /\ v ∉ current_vertices ls1).
  { intros rv ls1 g1 Hone.
    destruct (straight_line_one _ _ _ _ _ _ _ _ _ Hone Hcur Hl) as [Ha [Hb [Hc Hd]]].
    repeat split; auto. rewrite Hd. intros Hin.
    apply list_elem_of_singleton in Hin. lia. }
  destruct s as [targets value|value|value|type| |test body orelse
                |body handlers|target iter body|test body|kind];
    try discriminate.
  - rewrite process_entry_assign in Hrun. eapply Hline, Hrun.
  - destruct value; try discriminate.
    rewrite process_entry_call in Hrun. eapply Hline, Hrun.
  - rewrite process_entry_return in Hrun.
    destruct (straight_line (Return value) [] ivc (ls, g)) as [[ls1 g1]| |] eqn:Hone;
      cbn -[log_return] in Hrun; try discriminate.
    apply Hline in Hone.
    destruct (log_return_stores ls1 g1) as [Hvs Hes].
    unfold log_return in Hrun, Hvs, Hes. injection Hrun as <- <-. cbn [snd] in Hvs, Hes.
    unfold edges_of, source_of, target_of in *. rewrite Hvs, Hes. exact Hone.
  - rewrite process_entry_raise in Hrun. eapply Hline, Hrun.
  - rewrite process_entry_pass in Hrun. eapply Hline, Hrun.
  - (* if *)
    rewrite process_entry_if in Hrun.
    destruct (conditional_head (If test body orelse) is_last ls g)
      as [[head g0]| |] eqn:Hhead;
      cbn -[conditional_branches conditional_merge] in Hrun; try discriminate.
    destruct (conditional_head_one _ _ _ _ _ _ _ _ Hhead Hcur Hl)
      as [-> [Ha [Hb [Hc [Hd He]]]]].
    destruct (conditional_branches (length (CFG.vertex_store g)) ivc 0 [Test test]
                [LNot test] (If test body orelse) [] g0)
      as [[[[finals k] else_present] g1]| |] eqn:Hbranches;
      cbn -[conditional_merge] in Hrun; try discriminate.
    destruct (grows_if_rest (length (CFG.vertex_store g)) (length (CFG.edge_store g0))
                _ _ _ _ _ _ _ _ _ _ _ _ _ _ Hbranches Hrun) as [_ Hrest]; [lia|lia|].
    eapply enter_then; eauto.
  - (* try *)
    rewrite process_entry_try in Hrun.
    destruct (try_head (Try body handlers) body handlers is_last ls g)
      as [[head g0]| |] eqn:Hhead;
      cbn -[process_block handler_blocks try_merge] in Hrun; try discriminate.
    destruct (try_head_one _ _ _ _ _ _ _ _ _ _ Hhead Hcur Hl)
      as [-> [Ha [Hb [Hc [Hd He]]]]].
    destruct (process_block body (Some [length (CFG.vertex_store g)])
                [Tag "try-catch-main"] ivc g0) as [[fv1 g1]| |] eqn:Hbody;
      cbn -[process_block handler_blocks try_merge] in Hrun; try discriminate.
    destruct (handler_blocks (length (CFG.vertex_store g)) ivc handlers fv1 g1)
      as [[finals g2]| |] eqn:Hhandlers;
      cbn -[try_merge] in Hrun; try discriminate.
    destruct (grows_try_rest (length (CFG.vertex_store g)) (length (CFG.edge_store g0))
                _ _ _ _ _ _ _ _ _ _ _ _ _ Hbody Hhandlers Hrun) as [_ Hrest]; [lia|lia|].
    eapply enter_then; eauto.
  - (* for *)
    rewrite process_entry_for in Hrun.
    destruct (loop_head iter ls g) as [[[pre post] g0]| |] eqn:Hhead;
      cbn -[process_block loop_tail loop_input_variables] in Hrun; try discriminate.
    destruct (loop_head_spec _ _ _ _ _ _ Hhead Hvalid)
      as [-> [-> [Hlen [_ [_ [_ [_ Hone]]]]]]].
    destruct (Hone v l Hcur Hl) as [Ha [Hb [Hc He]]].
    destruct (loop_input_variables target (additional_input_variables ls))
      as [additional| |];
      cbn -[process_block loop_tail] in Hrun; try discriminate.
    destruct additional as [extra|];
      cbn -[process_block loop_tail] in Hrun; try discriminate.
    destruct (process_block body (Some [length (CFG.vertex_store g)])
                [Tag "enter-loop"] (ivc ++ extra) g0) as [[finals g1]| |] eqn:Hbody;
      cbn -[loop_tail] in Hrun; try discriminate.
    pose proof (grows_for_rest (length (CFG.vertex_store g)) (length (CFG.edge_store g0))
                  _ _ _ _ _ _ _ _ _ _ _ _ _ _ Hbody Hrun) as Hrest.
    eapply enter_then; eauto.
    apply Hrest; lia.
Qed.


(** ** The loop vertex of a [for] *)

(** A loop whose body is an augmented assignment, a statement
    [process_block] has no case for. *)
Definition summing_loop : list stmt :=
  [For (Name "x") (Name "xs") [OtherStmt "AugAssign"]].


(** C6 (amended): for every [for] that [process_block] processes
    from current vertices of the graph, the [loop] vertex has exactly
    one outgoing [loop-skip] edge, the last of its edges, whose target
    is the [post-loop] vertex of that loop; and when the first
    statement of the body is an assignment, a call, [pass], [return],
    [raise], [if], [try] or [for], it has exactly one other outgoing
    edge, which enters the body: its target is the first vertex made
    for the body. *)
Theorem loop_vertex_edges is_last ivc target iter body ls g ls' g' :
  valid g (current_vertices ls) ->
  process_entry is_last ivc (For target iter body) (ls, g) = Ok (ls', g') ->
  let pre := length (CFG.vertex_store g) in
  let post := S pre in
  name_of g' pre = Some loop_name
  /\ name_of g' post = Some post_loop_name
  /\ exists entering skip,
       edges_of g' pre = Some (entering ++ [skip])
       /\ instruction_of g' skip = Some loop_skip
       /\ source_of g' skip = Some pre
       /\ target_of g' skip = Some post
       /\ Forall (not_skip g') entering
       /\ (forall s rest, body = s :: rest -> enters s = true ->
             exists e, entering = [e]
                       /\ source_of g' e = Some pre
                       /\ target_of g' e = Some (S post)).
Proof.
  intros Hvalid Hrun pre post.
  rewrite process_entry_for in Hrun.
  destruct (loop_head iter ls g) as [[[pre' post'] g0]| |] eqn:Hhead;
    cbn -[process_block loop_tail loop_input_variables] in Hrun; try discriminate.
  destruct (loop_head_spec _ _ _ _ _ _ Hhead Hvalid)
    as [-> [-> [Hlen [_ [Hname1 [Hname2 [Hnone _]]]]]]].
  fold pre in Hname1, Hnone, Hrun. fold post in Hname2, Hrun.
  destruct (loop_input_variables target (additional_input_variables ls))
    as [additional| |];
    cbn -[process_block loop_tail] in Hrun; try discriminate.
  destruct additional as [extra|];
    cbn -[process_block loop_tail] in Hrun; try discriminate.
  destruct (process_block body (Some [pre]) [Tag "enter-loop"] (ivc ++ extra) g0)
    as [[finals g1]| |] eqn:Hbody;
    cbn -[loop_tail] in Hrun; try discriminate.
  set (nv := length (CFG.vertex_store g0)).
  set (ne := length (CFG.edge_store g0)).
  apply (grows_process_block _ _ _ _ _ _ _ nv ne) in Hbody as H1; [|lia|lia].
  cbn [start_of] in H1.
  pose proof (grows_vertices _ _ _ _ _ _ H1) as Hv1.
  pose proof (grows_edges _ _ _ _ _ _ H1) as He1.
  unfold loop_tail in Hrun.
  destruct (first_statement body) as [first| |];
    cbn -[for_each control_edge loop_skip_edge] in Hrun; try discriminate.
  match type of Hrun with context [for_each ?f ?l ?x] =>
    destruct (for_each f l x) as [g2| |] eqn:Hloop
  end; cbn -[loop_skip_edge] in Hrun; try discriminate.
  destruct (loop_skip_edge iter pre post g2) as [g3| |] eqn:Hskip;
    cbn in Hrun; try discriminate.
  injection Hrun as <- <-.
  apply grows_loop_jumps with (nv := nv) (ne := ne) in Hloop as H2;
    [|cbn; lia | cbn; unfold nv, pre in *; lia | cbn; unfold nv, post, pre in *; lia].
  assert (H12 : grows nv ne [pre] g0 g2 finals).
  { eapply grows_seq; [exact H1|].
    eapply grows_seq; [|exact H2]. apply grows_same_stores; reflexivity. }
  pose proof (grows_vertices _ _ _ _ _ _ H12) as Hv2.
  assert (H3 : grows 0 (length (CFG.edge_store g2)) [] g2 g3 []).
  { eapply grows_loop_skip_edge;
      [exact Hskip | lia | lia | unfold nv, post, pre in *; lia]. }
  destruct (extends_edges _ _ _ _ _ _ H12 pre [])
    as [entering [Hentering [Hnot _]]]; [unfold nv, pre; lia | exact Hnone|].
  cbn [app] in Hentering.
  destruct (loop_skip_edge_spec _ _ _ _ _ _ Hskip Hentering) as [Ha [Hb [Hc [Hd _]]]].
  split; [apply (keeps_name _ _ _ _ _ _ H3), (keeps_name _ _ _ _ _ _ H12), Hname1|].
  split; [apply (keeps_name _ _ _ _ _ _ H3), (keeps_name _ _ _ _ _ _ H12), Hname2|].
  exists entering, (length (CFG.edge_store g2)).
  split; [exact Ha|]. split; [exact Hb|]. split; [exact Hc|]. split; [exact Hd|].
  split.
  { eapply Forall_impl; [exact Hnot|]. intros e. apply (not_skip_keeps _ _ _ _ _ _ _ H3). }
  intros s rest -> Henters.
  unfold process_block, process_block_with in Hbody.
  cbn -[process_entry process_entries] in Hbody.
  match type of Hbody with context [process_entries ?f ?i ?b ?st] =>
    destruct (process_entries f i b st) as [[lsf gf]| |] eqn:Hentries
  end; cbn in Hbody; try discriminate.
  injection Hbody as <- <-.
  cbn -[process_entry] in Hentries.
  match type of Hentries with context [process_entry ?a ?i ?x ?st] =>
    destruct (process_entry a i x st) as [[ls1 ga]| |] eqn:Hfirst
  end; cbn -[process_entry] in Hentries; try discriminate.
  destruct (enters_spec _ _ _ _ _ _ _ pre [] Henters Hfirst eq_refl Hnone)
    as [Hedge [Hsource [Htarget Hleft]]].
  cbn [app] in Hedge. fold ne in Hedge, Hsource, Htarget.
  assert (Hea : ne < length (CFG.edge_store ga)).
  { unfold source_of in Hsource.
    destruct (CFG.edge_store ga !! ne) as [x|] eqn:Hx; [|discriminate].
    apply lookup_lt_Some in Hx. exact Hx. }
  pose proof (grows_vertices _ _ _ _ _ _ (grows_statement _ _ _ _ _ _ _ nv ne Hfirst
                ltac:(cbn; lia) ltac:(cbn; lia))) as Hva.
  cbn in Hva. fold nv in Hva.
  apply (grows_entries _ nv (length (CFG.edge_store ga))) in Hentries as Hrest;
    [|lia|lia].
  pose proof (grows_edges _ _ _ _ _ _ Hrest) as Her.
  assert (Hjumps : grows nv (length (CFG.edge_store ga)) (current_vertices lsf)
                     gf g2 (current_vertices lsf)).
  { apply grows_loop_jumps with (nv := nv) (ne := length (CFG.edge_store ga))
      in Hloop as Hj;
      [|cbn; lia | cbn; unfold nv, pre in *; lia | cbn; unfold nv, post, pre in *; lia].
    eapply grows_seq; [|exact Hj]. apply grows_same_stores; reflexivity. }
  assert (Hall : grows nv (length (CFG.edge_store ga)) (current_vertices ls1)
                   ga g2 (current_vertices lsf)).
  { eapply grows_seq; [exact Hrest | exact Hjumps]. }
  destruct (extends_edges _ _ _ _ _ _ Hall pre [ne])
    as [added [Hadded [_ Hframe]]]; [unfold nv, pre; lia | exact Hedge|].
  rewrite (Hframe Hleft), app_nil_r in Hadded.
  rewrite Hadded in Hentering. injection Hentering as <-.
  exists ne. split; [reflexivity|].
  pose proof (keeps_edge _ _ _ _ _ _ Hall ne Hea) as Hk1.
  pose proof (grows_edges _ _ _ _ _ _ Hall) as Heall.
  pose proof (keeps_edge _ _ _ _ _ _ H3 ne ltac:(lia)) as Hk2.
  unfold source_of, target_of in *. rewrite Hk2, Hk1.
  split; [exact Hsource|]. rewrite Htarget. unfold post, pre. rewrite Hlen. reflexivity.
Qed.

(** ** The merge vertex of a conditional and of a try *)

(** The merge pointer of a head: [field] is [post_conditional_vertex]
    or [post_try_catch_vertex]; [Some None] is the null pointer. *)
Definition merge_pointer (field : CFGVertex.t -> option (option vertex_ref))
    (g : CFG.t) (head : vertex_ref) : option (option vertex_ref) :=
  CFG.vertex_store g !! head ≫= field.

(** What a merge step leaves, from the graph [g] it starts from to
    the graph [g'] it ends in, in terms of the filter of the merge
    step. *)
Definition filtered (field : CFGVertex.t -> option (option vertex_ref))
    (name : list (option string)) (head : vertex_ref) (tails : list vertex_ref)
    (g g' : CFG.t) : Prop :=
  ((exists merge,
       merge_pointer field g' head = Some (Some merge)
       /\ name_of g' merge = Some name
       /\ merge ∈ CFG.vertices g')
   <-> exists v, v ∈ tails /\ falls_through g v = true)
  /\ (forall merge v l e,
        merge_pointer field g' head = Some (Some merge) ->
        v ∈ tails -> falls_through g v = false ->
        edges_of g' v = Some l -> e ∈ l -> target_of g' e <> Some merge)
  /\ ((forall v, v ∈ tails -> falls_through g v = false) ->
      merge_pointer field g' head = Some None).

(** The fields that edges never touch. *)
Definition untouched (field : CFGVertex.t -> option (option vertex_ref)) : Prop :=
  (forall e x, field (CFGVertex.append_edge e x) = field x)
  /\ (forall e x, field (CFGVertex.set_previous_edge e x) = field x).

Lemma pointer_update_vertex field f v g x :
  (forall y, field (f y) = field y) ->
  merge_pointer field (CFG.update_vertex f v g) x = merge_pointer field g x.
Proof.
  intros Hf. unfold merge_pointer. cbn. rewrite list_lookup_alter.
  case_decide; [subst x|reflexivity].
  destruct (CFG.vertex_store g !! v); [|reflexivity]. simpl. apply Hf.
Qed.

Lemma pointer_update_edge field f e g x :
  merge_pointer field (CFG.update_edge f e g) x = merge_pointer field g x.
Proof. reflexivity. Qed.

Lemma merge_loop_keeps field cond m survivors :
  untouched field ->
  forall g g',
  for_each (fun g vertex => merge_edge (CondStr cond) "control-flow" vertex m g)
    survivors g = Ok g' ->
  (forall v, merge_pointer field g' v = merge_pointer field g v)
  /\ CFG.vertices g' = CFG.vertices g.
Proof.
  intros [Happend Hprevious].
  induction survivors as [|x l IH]; intros g g'.
  - intros [= <-]. auto.
  - cbn -[merge_edge]. rewrite merge_edge_eq. cbn -[merge_edge].
    intros Hrest. apply IH in Hrest as [Hfield Hvertices].
    split; [|rewrite Hvertices; reflexivity].
    intros v. rewrite Hfield. unfold CFG.add_outgoing_edge, CFG.set_target_state.
    rewrite pointer_update_vertex by apply Happend.
    rewrite pointer_update_edge.
    rewrite pointer_update_vertex by apply Hprevious.
    reflexivity.
Qed.

Lemma merge_step_spec setter field name cond head tails g cv g' :
  merge_step setter name cond head tails g = Ok (cv, g') ->
  (forall p x, field (setter p x) = Some p) ->
  (forall p x, CFGVertex._name_changed (setter p x) = CFGVertex._name_changed x) ->
  (forall p x, CFGVertex.edges (setter p x) = CFGVertex.edges x) ->
  untouched field ->
  head < length (CFG.vertex_store g) ->
  well_formed g ->
  valid g tails ->
  filtered field [Some name] head tails g g'.
Proof.
  intros Hrun Hfield Hname Hedges Huntouched Hhead Hwf Hvalid.
  pose proof (grows_merge_step (length (CFG.vertex_store g)) (length (CFG.edge_store g))
                _ _ _ _ _ _ _ _ Hrun Hname Hedges (Nat.le_refl _) (Nat.le_refl _))
    as Hgrows.
  destruct (lookup_lt_is_Some_2 _ _ Hhead) as [x Hx].
  unfold merge_step in Hrun.
  destruct (List.filter (falls_through g) tails) as [|s0 survivors] eqn:Hfilter.
  - injection Hrun as <- <-.
    assert (Hnull : merge_pointer field
                      (CFG.update_vertex (setter None) head g) head = Some None).
    { unfold merge_pointer. cbn. rewrite list_lookup_alter.
      case_decide; [|congruence]. rewrite Hx. simpl. apply Hfield. }
    assert (Hnone : forall v, v ∈ tails -> falls_through g v = true -> False).
    { intros v Hv Ht.
      assert (Hin : v ∈ List.filter (falls_through g) tails)
        by (apply elem_of_filter_bool; auto).
      rewrite Hfilter in Hin. apply elem_of_nil in Hin. exact Hin. }
    split; [split|split].
    + intros [merge [Hm _]]. rewrite Hnull in Hm. discriminate.
    + intros [v [Hv Ht]]. destruct (Hnone v Hv Ht).
    + intros merge v l e Hm. rewrite Hnull in Hm. discriminate.
    + intros _. exact Hnull.
  - cbn -[for_each merge_edge] in Hrun.
    match type of Hrun with context [for_each ?f ?l ?g1] =>
      set (g2 := g1) in Hrun;
      destruct (for_each f l g2) as [g3| |] eqn:Hloop
    end; cbn in Hrun; try discriminate. injection Hrun as <- <-.
    destruct (merge_loop_keeps field _ _ _ Huntouched _ _ Hloop) as [Hkeep Hvertices].
    assert (Hpointer : merge_pointer field g3 head
                       = Some (Some (length (CFG.vertex_store g)))).
    { rewrite Hkeep. unfold merge_pointer, g2. cbn. rewrite list_lookup_alter.
      case_decide; [|congruence]. rewrite (lookup_app_l_Some _ _ _ _ Hx). simpl.
      apply Hfield. }
    assert (Hs0 : s0 ∈ tails /\ falls_through g s0 = true).
    { apply elem_of_filter_bool. rewrite Hfilter. left. }
    split; [split|split].
    + intros _. exists s0. exact Hs0.
    + intros _. exists (length (CFG.vertex_store g)). split; [exact Hpointer|]. split.
      * assert (Hloopgrows : grows 0 0 (s0 :: survivors) g2 g3 (s0 :: survivors)).
        { eapply grows_for_each; [exact Hloop|].
          intros g1 y g4 Hy Hv He _ Hstep. unfold g2 in Hv. cbn in Hv.
          rewrite length_alter, length_app in Hv. simpl in Hv.
          eapply grows_merge_edge;
            [exact Hstep | lia | left; exact Hy | discriminate | intros _; lia]. }
        apply (keeps_name _ _ _ _ _ _ Hloopgrows). unfold name_of, g2. cbn.
        rewrite list_lookup_alter. case_decide; [lia|].
        rewrite list_lookup_middle by reflexivity. reflexivity.
      * rewrite Hvertices. unfold g2. cbn. apply elem_of_app. right. left.
    + intros merge v l e Hm Hv Ht Hl He. rewrite Hpointer in Hm. injection Hm as <-.
      assert (Hnot : v ∉ s0 :: survivors).
      { intros Hin. rewrite <- Hfilter in Hin.
        apply elem_of_filter_bool in Hin as [_ Hin]. congruence. }
      assert (Hlt : v < length (CFG.vertex_store g)).
      { unfold valid in Hvalid. rewrite Forall_forall in Hvalid. apply Hvalid, Hv. }
      destruct (lookup_lt_is_Some_2 _ _ Hlt) as [y Hy].
      destruct (extends_edges _ _ _ _ _ _ Hgrows v (CFGVertex.edges y) Hlt)
        as [added [Hadded [_ Hframe]]]; [unfold edges_of; rewrite Hy; reflexivity|].
      rewrite (Hframe Hnot), app_nil_r, Hl in Hadded. injection Hadded as ->.
      destruct Hwf as [Hwf1 Hwf2].
      assert (Hold : e < length (CFG.edge_store g)).
      { apply (Hwf1 v e). exists (CFGVertex.edges y). unfold edges_of. rewrite Hy. auto. }
      intros Htarget. unfold target_of in Htarget.
      rewrite (keeps_edge _ _ _ _ _ _ Hgrows e Hold) in Htarget.
      apply Hwf2 in Htarget. lia.
    + intros Hall. destruct Hs0 as [Hin Ht]. rewrite (Hall s0 Hin) in Ht. discriminate.
Qed.

Lemma conditional_head_name entry is_last ls g head g0 :
  conditional_head entry is_last ls g = Ok (head, g0) ->
  name_of g0 head = Some conditional_name.
Proof.
  unfold conditional_head. intros Hrun.
  destruct is_last; cbn -[link_all] in Hrun;
    match type of Hrun with context [link_all ?c ?i ?s ?t ?x] =>
      destruct (link_all c i s t x) as [g2| |] eqn:Hlink
    end; cbn in Hrun; try discriminate; injection Hrun as <- <-;
    (eapply (grows_link_all 0 0 (current_vertices ls)) in Hlink;
       [|lia | auto | discriminate | cbn; rewrite length_app; simpl; lia]);
    apply (keeps_name _ _ _ _ _ _ Hlink); unfold name_of; cbn;
    rewrite list_lookup_middle by reflexivity; reflexivity.
Qed.

Lemma try_head_name entry body handlers is_last ls g head g0 :
  try_head entry body handlers is_last ls g = Ok (head, g0) ->
  name_of g0 head = Some try_catch_name.
Proof.
  unfold try_head. intros Hrun.
  destruct is_last; cbn -[link_all for_each first_statement] in Hrun;
    match type of Hrun with context [link_all ?c ?i ?s ?t ?x] =>
      destruct (link_all c i s t x) as [g2| |] eqn:Hlink
    end; cbn -[for_each first_statement] in Hrun; try discriminate;
    (destruct (first_statement body) as [first| |];
       cbn -[for_each first_statement] in Hrun; try discriminate);
    match type of Hrun with context [for_each ?f ?l ?x] =>
      destruct (for_each f l x) as [g3| |] eqn:Hlog
    end; cbn in Hrun; try discriminate; injection Hrun as <- <-;
    apply handlers_log_stores in Hlog as [Hvs Hes]; cbn in Hvs;
    (eapply (grows_link_all 0 0 (current_vertices ls)) in Hlink;
       [|lia | auto | discriminate | cbn; rewrite length_app; simpl; lia]);
    unfold name_of; rewrite Hvs;
    apply (keeps_name _ _ _ _ _ _ Hlink); unfold name_of; cbn;
    rewrite list_lookup_middle by reflexivity; reflexivity.
Qed.

(** *** Survival in the words of the specification

    An edge carries a return or a raise when its instruction is such
    a statement. *)
Definition carries_return_or_raise (i : instruction) : Prop :=
  (exists value, i = IStmt (Return value)) \/ (exists type, i = IStmt (Raise type)).

(** The previous edge of a vertex, the inbound edge that was attached
    to it last, carries a return or a raise. *)
Definition ends_in_return_or_raise (g : CFG.t) (v : vertex_ref) : Prop :=
  exists x e edge,
    CFG.vertex_store g !! v = Some x
    /\ CFGVertex._previous_edge x = Some e
    /\ CFG.edge_store g !! e = Some edge
    /\ carries_return_or_raise (CFGEdge._instruction edge).

(** Some inbound edge of a vertex carries a return or a raise. *)
Definition return_or_raise_inbound (g : CFG.t) (v : vertex_ref) : Prop :=
  exists e edge,
    CFG.edge_store g !! e = Some edge
    /\ CFGEdge._target_state edge = Some v
    /\ carries_return_or_raise (CFGEdge._instruction edge).

(** What a merge step leaves, from the graph [g] it starts from to
    the graph [g'] it ends in.  A tail survives unless its previous
    edge carries a return or a raise. *)
Definition merged (field : CFGVertex.t -> option (option vertex_ref))
    (name : list (option string)) (head : vertex_ref) (tails : list vertex_ref)
    (g g' : CFG.t) : Prop :=
  ((exists merge,
       merge_pointer field g' head = Some (Some merge)
       /\ name_of g' merge = Some name
       /\ merge ∈ CFG.vertices g')
   <-> exists v, v ∈ tails /\ ~ ends_in_return_or_raise g v)
  /\ (forall merge v l e,
        merge_pointer field g' head = Some (Some merge) ->
        v ∈ tails -> ends_in_return_or_raise g v ->
        edges_of g' v = Some l -> e ∈ l -> target_of g' e <> Some merge)
  /\ ((forall v, v ∈ tails -> ends_in_return_or_raise g v) ->
      merge_pointer field g' head = Some None).

(** The filter of the code keeps the vertices that survive. *)
Lemma falls_through_false g v :
  falls_through g v = false <-> ends_in_return_or_raise g v.
Proof.
  unfold falls_through, ends_in_return_or_raise. split.
  - destruct (CFG.vertex_store g !! v) as [x|]; [|discriminate].
    destruct (CFGVertex._previous_edge x) as [e|] eqn:He; [|discriminate].
    destruct (CFG.edge_store g !! e) as [edge|] eqn:Hedge; [|discriminate].
    intros Hi. exists x, e, edge. repeat (split; [reflexivity || assumption|]).
    destruct (CFGEdge._instruction edge) as [[]|]; try discriminate;
      [left | right]; eexists; reflexivity.
  - intros (x & e & edge & -> & -> & -> & [[value ->]|[type ->]]); reflexivity.
Qed.

Lemma falls_through_true g v :
  falls_through g v = true <-> ~ ends_in_return_or_raise g v.
Proof.
  rewrite <- falls_through_false. destruct (falls_through g v); split; congruence.
Qed.

Lemma filtered_merged field name head tails g g' :
  filtered field name head tails g g' -> merged field name head tails g g'.
Proof.
  intros (Hiff & Hnone & Hnull). split; [|split].
  - rewrite Hiff. split; intros (v & Hv & Hs); exists v; (split; [exact Hv|]);
      apply falls_through_true; exact Hs.
  - intros merge v l e Hp Hv Hs. apply (Hnone merge v l e Hp Hv).
    apply falls_through_false. exact Hs.
  - intros Hall. apply Hnull. intros v Hv. apply falls_through_false, Hall, Hv.
Qed.


(** ** Graphs built from the empty graph *)

Lemma init_well_formed rv :
  well_formed (CFG.__init__ rv) /\ valid (CFG.__init__ rv) [0].
Proof.
  split; [split|].
  - intros v e [l [Hl He]]. destruct v as [|v]; [|discriminate].
    injection Hl as <-. apply elem_of_nil in He. contradiction.
  - intros e t Ht. discriminate.
  - constructor; [cbn; lia | constructor].
Qed.

(** [process_block] keeps the references of a graph within its stores:
    when every edge held by a vertex and every target held by an
    edge is in the graph and the starting vertices are, the same
    holds of the graph it leaves and of the vertices it returns. *)
Lemma process_block_well_formed block starting_vertices conds ivc g finals g' :
  process_block block starting_vertices conds ivc g = Ok (finals, g') ->
  well_formed g ->
  valid g (start_of starting_vertices g) ->
  well_formed g' /\ valid g' finals.
Proof.
  intros Hrun.
  apply (keeps_well_formed _ _ _ _ _ _
           (grows_process_block _ _ _ _ _ _ _ 0 0 Hrun (Nat.le_0_l _) (Nat.le_0_l _))).
Qed.

(** The locals of a call of [process_block] on the empty graph. *)
Definition at_start : locals := mk_locals [] [0] 0 None.

(** [if a: return 1], without [else]. *)
Definition returning_conditional : stmt :=
  If (Name "a") [Return (Some (Num 1))] [].

(** [if a: return 1 else: raise E()] *)
Definition closed_conditional : stmt :=
  If (Name "a") [Return (Some (Num 1))] [Raise (Some (Call (Name "E") []))].

(** [for x in xs: f(x)] *)
Definition calling_loop : stmt :=
  For (Name "x") (Name "xs") [call_on "f" "x"].


(** The return branch of [returning_conditional] ends in vertex 2;
    the head (vertex 1) falls through to the merge vertex 3. *)
Example fall_through_survives :
  exists ls g,
    process_entry true [] returning_conditional (at_start, CFG.__init__ [])
    = Ok (ls, g)
    /\ current_vertices ls = [3]
    /\ merge_pointer CFGVertex.post_conditional_vertex g 1 = Some (Some 3)
    /\ name_of g 3 = Some post_conditional_name
    /\ edges_of g 2 = Some []
    /\ edges_of g 1 = Some [1; 2]
    /\ (target_of g 1, target_of g 2) = (Some 2, Some 3).
Proof.
  run (process_entry true [] returning_conditional (at_start, CFG.__init__ [])).
Qed.

(** Both branches of [closed_conditional] end the function: no merge
    vertex is made. *)
Example no_branch_survives :
  exists ls g,
    process_entry true [] closed_conditional (at_start, CFG.__init__ [])
    = Ok (ls, g)
    /\ current_vertices ls = []
    /\ merge_pointer CFGVertex.post_conditional_vertex g 1 = Some None
    /\ length (CFG.vertex_store g) = 4.
Proof.
  run (process_entry true [] closed_conditional (at_start, CFG.__init__ [])).
Qed.


(** The edges of the loop vertex of [calling_loop]: edge 1 enters
    the body, edge 4 is the [loop-skip] edge. *)
Example loop_vertex_of_calling_loop :
  exists ls g,
    process_entry true [] calling_loop (at_start, CFG.__init__ []) = Ok (ls, g)
    /\ edges_of g 1 = Some [1; 4]
    /\ (instruction_of g 1, target_of g 1) = (Some (IStmt (call_on "f" "x")), Some 3)
    /\ (instruction_of g 4, target_of g 4) = (Some loop_skip, Some 2).
Proof.
  run (process_entry true [] calling_loop (at_start, CFG.__init__ [])).
Qed.

End order.

(** ** The properties at work, with a dict that keeps the order of
    insertion *)

#[local] Existing Instance insertion_order.

(** C6, as stated, fails: the loop vertex of [summing_loop] (vertex 1)
    has three outgoing edges, a [loop-jump] edge to itself, a
    [post-loop] edge and the [loop-skip] edge, both to the [post-loop]
    vertex (vertex 2); none enters the body, for which no vertex
    exists. *)
Lemma loop_vertex_without_body_edge :
  exists finals g,
    process_block summing_loop None [] [] (CFG.__init__ []) = Ok (finals, g)
    /\ length (CFG.vertex_store g) = 3
    /\ name_of g 1 = Some loop_name
    /\ name_of g 2 = Some post_loop_name
    /\ edges_of g 1 = Some [1; 2; 3]
    /\ (instruction_of g 1, target_of g 1) = (Some (IStr "loop-jump"), Some 1)
    /\ (instruction_of g 2, target_of g 2) = (Some (IStr "post-loop"), Some 2)
    /\ (instruction_of g 3, target_of g 3) = (Some loop_skip, Some 2).
Proof.
  run (process_block summing_loop None [] [] (CFG.__init__ [])).
Qed.

(** [if a: return 1; while c: x += 1] with [else: return 2]: the
    loop stands behind the return of its branch. *)
Definition returning_branches : stmt :=
  If (Name "a")
    [Return (Some (Num 1)); While (Name "c") [OtherStmt "AugAssign"]]
    [Return (Some (Num 2))].



Lemma loop_vertex_edges_witness :
  exists ls' g',
    process_entry true [] calling_loop (at_start, CFG.__init__ []) = Ok (ls', g')
    /\ name_of g' 1 = Some loop_name
    /\ name_of g' 2 = Some post_loop_name
    /\ exists entering skip,
         edges_of g' 1 = Some (entering ++ [skip])
         /\ instruction_of g' skip = Some loop_skip
         /\ source_of g' skip = Some 1
         /\ target_of g' skip = Some 2
         /\ Forall (not_skip g') entering
         /\ (forall s rest, [call_on "f" "x"] = s :: rest -> enters s = true ->
               exists e, entering = [e]
                         /\ source_of g' e = Some 1
                         /\ target_of g' e = Some 3).
Proof.
  destruct (process_entry true [] calling_loop (at_start, CFG.__init__ []))
    as [[ls' g']| |] eqn:Hrun.
  - exists ls', g'. split; [reflexivity|].
    exact (loop_vertex_edges true [] (Name "x") (Name "xs") [call_on "f" "x"] at_start
             (CFG.__init__ []) ls' g' (proj2 (init_well_formed [])) Hrun).
  - vm_compute in Hrun. discriminate.
  - vm_compute in Hrun. discriminate.
Defined.

End scfg_properties.

(** * Properties of the event consumer *)

Module consumer_properties.

Import init_verification.

(** ** Dictionaries *)

Section dict_facts.
Context {K V : Type} `{EqDecision K}.

Lemma dict_get_set_eq (k : K) (v : V) (d : list (K * V)) :
  dict_get k (dict_set k v d) = Some v.
Proof.
  induction d as [|[k' v'] d IH]; simpl.
  - destruct (decide (k = k)); congruence.
  - destruct (decide (k' = k)) as [->|Hne]; simpl.
    + destruct (decide (k = k)); congruence.
    + destruct (decide (k' = k)); [congruence | exact IH].
Qed.

Lemma dict_get_set_ne (k k' : K) (v : V) (d : list (K * V)) :
  k <> k' -> dict_get k' (dict_set k v d) = dict_get k' d.
Proof.
  intros Hne. induction d as [|[k0 v0] d IH]; simpl.
  - destruct (decide (k = k')); congruence.
  - destruct (decide (k0 = k)) as [->|Hne0]; simpl.
    + destruct (decide (k = k')); [congruence | reflexivity].
    + destruct (decide (k0 = k')); [reflexivity | exact IH].
Qed.

Lemma dict_get_absent (k : K) (d : list (K * V)) :
  k ∉ map fst d -> dict_get k d = None.
Proof.
  induction d as [|[k' v'] d IH]; simpl; intros Hk; [reflexivity|].
  destruct (decide (k' = k)) as [->|Hne].
  - exfalso. apply Hk. left.
  - apply IH. intros Hin. apply Hk. right. exact Hin.
Qed.
End dict_facts.

(** ** The consumer *)

Section consumer_facts.

Context `{FormulaModule}.
Variable TEST_FRAMEWORK : string.
Variable verdict_server : post -> result answer.

#[local] Abbreviation step := (step TEST_FRAMEWORK verdict_server).
#[local] Abbreviation consumption_thread_function :=
  (consumption_thread_function TEST_FRAMEWORK verdict_server).

Lemma get_maps_put_maps_eq fn h m (c : consumer) :
  get_maps fn h (put_maps fn h m c) = Ok m.
Proof.
  unfold get_maps, put_maps, dict_getitem; simpl.
  rewrite dict_get_set_eq; simpl. rewrite dict_get_set_eq. reflexivity.
Qed.

Lemma get_maps_put_maps_ne fn h h' m (c : consumer) :
  h' <> h -> get_maps fn h (put_maps fn h' m c) = get_maps fn h c.
Proof.
  intros Hne. unfold get_maps, put_maps, dict_getitem; simpl.
  rewrite dict_get_set_eq; simpl. rewrite dict_get_set_ne by exact Hne.
  destruct (dict_get fn (function_to_maps c)); reflexivity.
Qed.

(** ** Pausing *)

(** C3: while monitoring is paused, an event other than
    [inactive-monitoring-stop] sends nothing, raises nothing and
    leaves the maps and the pause as they are; apart from
    [end-monitoring] it leaves the whole state of the thread as it
    is.  [end-monitoring] is looked at before the pause and still
    ends the loop. *)
Theorem paused_events_are_discarded (c : consumer) (top_pair : event) :
  INACTIVE_MONITORING c = true ->
  top_pair <> InactiveMonitoringStop ->
  exists c',
    step c top_pair = ([], Ok c')
    /\ function_to_maps c' = function_to_maps c
    /\ INACTIVE_MONITORING c' = true
    /\ continue_monitoring c' =
         match top_pair with
         | EndMonitoring => false
         | _ => continue_monitoring c
         end
    /\ (top_pair <> EndMonitoring -> c' = c).
Proof.
  intros Hpaused Hstop.
  destruct top_pair; unfold step; rewrite ?Hpaused;
    try congruence;
    try (exists c; repeat split; reflexivity || assumption).
  eexists; repeat split; try reflexivity; try assumption; congruence.
Qed.

(** ** What a handler leaves alone *)

(** The two flags that steer the loop. *)
Definition running (c : consumer) : Prop :=
  INACTIVE_MONITORING c = false /\ continue_monitoring c = true.

Lemma for_each_invariant {A S : Type} (P : S -> Prop) (f : S -> A -> result S) :
  (forall s x s', P s -> f s x = Ok s' -> P s') ->
  forall l s s', P s -> for_each f l s = Ok s' -> P s'.
Proof.
  intros Hf l. induction l as [|x l IH]; simpl; intros s s' Hs Hrun.
  - congruence.
  - destruct (f s x) as [s1| |] eqn:Hx; simpl in Hrun; try discriminate.
    eapply IH; [eapply Hf; eassumption | exact Hrun].
Qed.

Lemma running_put_maps fn h m c : running (put_maps fn h m c) <-> running c.
Proof. reflexivity. Qed.

Lemma running_bind_maps fn h c m c' :
  bind_maps fn h c = Ok (m, c') -> running c -> running c'.
Proof.
  unfold bind_maps. destruct (get_maps fn h c); simpl; try discriminate.
  intros [= <- <-]. exact id.
Qed.

Lemma running_function_start phl fn ts c c' :
  function_start phl fn ts c = Ok c' -> running c -> running c'.
Proof.
  unfold function_start. intros Hrun Hc.
  destruct (for_each _ phl c) as [c1| |] eqn:Hloop; simpl in Hrun; try discriminate.
  assert (Hc1 : running c1).
  { revert Hloop. apply for_each_invariant; [|exact Hc].
    intros s x s' Hs Hstep.
    destruct (bind_maps fn x s) as [[m s1]| |] eqn:Hb; simpl in Hstep;
      try discriminate.
    injection Hstep as <-. apply running_put_maps.
    eapply running_bind_maps; eassumption. }
  destruct (maps c1) as [[f h]|]; try discriminate.
  destruct (get_maps f h c1); simpl in Hrun; try discriminate.
  injection Hrun as <-. exact Hc1.
Qed.

Lemma running_trigger_monitor fs k st m st' :
  trigger_monitor fs k st m = Ok st' ->
  running (trigger_consumer st) -> running (trigger_consumer st').
Proof.
  unfold trigger_monitor. intros Hrun Hc.
  destruct (Nat.eqb _ (k + 1)).
  - destruct (bool_decide _).
    + injection Hrun as <-. exact Hc.
    + simpl in Hrun.
      destruct (for_each _ _ _); simpl in Hrun; try discriminate.
      injection Hrun as <-. exact Hc.
  - destruct (Nat.eqb _ k); injection Hrun as <-; exact Hc.
Qed.

Lemma running_trigger fn h m qd k c c' :
  trigger fn h m qd k c = Ok c' -> running c -> running c'.
Proof.
  unfold trigger. intros Hrun Hc. destruct (Nat.eqb k 0).
  - injection Hrun as <-. exact Hc.
  - destruct (dict_getitem qd _) as [monitors| |]; simpl in Hrun; try discriminate.
    destruct (for_each _ monitors _) as [st| |] eqn:Hloop; simpl in Hrun;
      try discriminate.
    injection Hrun as <-. apply running_put_maps.
    revert Hloop.
    apply (for_each_invariant (fun st => running (trigger_consumer st)));
      [|exact Hc].
    intros s x s' Hs Hstep. eapply running_trigger_monitor; eassumption.
Qed.

Lemma running_instrument fn h m qds ai si ids t1 t2 v sd c c' :
  instrument fn h m qds ai si ids t1 t2 v sd c = Ok c' -> running c -> running c'.
Proof.
  unfold instrument. intros Hrun Hc.
  destruct (for_each _ _ m); simpl in Hrun; try discriminate.
  injection Hrun as <-. exact Hc.
Qed.

(** ** Handlers return or raise *)

Definition halts {A : Type} (r : result A) : Prop := r <> Loops.

Lemma halts_bind {A B : Type} (m : result A) (f : A -> result B) :
  halts m -> (forall a, halts (f a)) -> halts (m ≫= f).
Proof. destruct m; simpl; intros Hm Hf; [apply Hf | discriminate | destruct Hm; reflexivity]. Qed.

Lemma halts_for_each {A S : Type} (f : S -> A -> result S) l s :
  (forall s x, halts (f s x)) -> halts (for_each f l s).
Proof.
  intros Hf. revert s. induction l as [|x l IH]; simpl; intros s.
  - discriminate.
  - apply halts_bind; [apply Hf | apply IH].
Qed.

Lemma halts_map_each {A B : Type} (f : A -> result B) l :
  (forall x, halts (f x)) -> halts (map_each f l).
Proof.
  intros Hf. induction l as [|x l IH]; simpl.
  - discriminate.
  - apply halts_bind; [apply Hf|]. intros y.
    apply halts_bind; [apply IH|]. discriminate.
Qed.

Lemma halts_list_index {A : Type} `{EqDecision A} (x : A) l :
  halts (list_index x l).
Proof.
  induction l as [|y l IH]; simpl; [discriminate|].
  destruct (decide (y = x)); [discriminate|].
  apply halts_bind; [exact IH | discriminate].
Qed.

Ltac halts :=
  repeat first
    [ progress intros
    | apply halts_list_index
    | apply halts_bind
    | apply halts_for_each
    | apply halts_map_each
    | discriminate
    | match goal with
      | |- halts (Ok _) => discriminate
      | |- halts (Exc _) => discriminate
      | |- halts (match ?x with _ => _ end) => destruct x
      | |- halts (let '(_, _) := ?x in _) => destruct x
      | |- halts (dict_getitem _ _) => unfold dict_getitem
      | |- halts (list_getitem _ _) => unfold list_getitem
      | |- halts (isoformat _) => unfold isoformat
      end ].

Lemma halts_copy_slot {V : Type} ai si (s d : list (nat * list (nat * V))) :
  halts (copy_slot ai si s d).
Proof. unfold copy_slot. halts. Qed.

Lemma halts_copy_slots ai si (m n : monitor atom) : halts (copy_slots ai si m n).
Proof. unfold copy_slots. halts. Qed.

Lemma halts_copy_atom fs k asi (m n : monitor atom) key :
  halts (copy_atom fs k asi m n key).
Proof. unfold copy_atom. halts; try apply halts_copy_slots. Qed.

Lemma halts_trigger_monitor fs k st m : halts (trigger_monitor fs k st m).
Proof. unfold trigger_monitor. halts; try apply halts_copy_atom. Qed.

Lemma halts_trigger fn h m qd k c : halts (trigger fn h m qd k c).
Proof. unfold trigger. halts; try apply halts_trigger_monitor. Qed.

Lemma halts_bind_maps fn h c : halts (bind_maps fn h c).
Proof. unfold bind_maps, get_maps. halts. Qed.

Lemma halts_function_start phl fn ts c : halts (function_start phl fn ts c).
Proof.
  unfold function_start. halts; try apply halts_bind_maps.
  all: try (unfold get_maps; halts).
Qed.

Lemma halts_instrument fn h m qds ai si ids t1 t2 v sd c :
  halts (instrument fn h m qds ai si ids t1 t2 v sd c).
Proof. unfold instrument. halts; try (unfold observe; halts). Qed.

(** ** A call outside test mode *)

(** The events between the start and the end of a call: the start
    itself, triggers, path records and observations. *)
Definition within_call (top_pair : event) : bool :=
  match top_pair with
  | Function _ _ scope _ => bool_decide (scope = "start")
  | Trigger _ _ _ _ | Path _ _ _ | Instrument _ _ _ _ _ _ _ _ _ _ _ => true
  | _ => false
  end.

(** Such an event sends nothing; when it does not raise, the thread
    goes on. *)
Lemma step_within_call c top_pair :
  within_call top_pair = true -> running c ->
  (exists c', step c top_pair = ([], Ok c') /\ running c')
  \/ (exists e, step c top_pair = ([], Exc e)).
Proof.
  intros Hev Hc. pose proof Hc as [Hactive _].
  destruct top_pair
    as [ | | | tx | phl fn scope ts | ph fn qd k | ph fn label
       | ph fn qds ai si ids t1 t2 v th sd | ph fn fl er t1 t2 name | ph ty fn ];
    try discriminate Hev; unfold step; rewrite Hactive; simpl.
  - simpl in Hev. apply bool_decide_eq_true in Hev as ->. simpl.
    pose proof (halts_function_start phl fn ts c) as Hh.
    destruct (function_start phl fn ts c) as [c'|e|] eqn:Hs.
    + left. exists c'. split; [reflexivity|].
      eapply running_function_start; eassumption.
    + right. exists e. reflexivity.
    + destruct Hh. reflexivity.
  - pose proof (halts_bind_maps fn ph c) as Hh.
    destruct (bind_maps fn ph c) as [[m c1]|e|] eqn:Hb;
      simpl; [|right; exists e; reflexivity | destruct Hh; reflexivity].
    pose proof (halts_trigger fn ph m qd k c1) as Hh'.
    destruct (trigger fn ph m qd k c1) as [c'|e|] eqn:Ht.
    + left. exists c'. split; [reflexivity|].
      eapply running_trigger; [eassumption|].
      eapply running_bind_maps; eassumption.
    + right. exists e. reflexivity.
    + destruct Hh'. reflexivity.
  - pose proof (halts_bind_maps fn ph c) as Hh.
    destruct (bind_maps fn ph c) as [[m c1]|e|] eqn:Hb;
      simpl; [|right; exists e; reflexivity | destruct Hh; reflexivity].
    left. eexists. split; [reflexivity|].
    apply running_put_maps. eapply running_bind_maps; eassumption.
  - pose proof (halts_bind_maps fn ph c) as Hh.
    destruct (bind_maps fn ph c) as [[m c1]|e|] eqn:Hb;
      simpl; [|right; exists e; reflexivity | destruct Hh; reflexivity].
    pose proof (halts_instrument fn ph m qds ai si ids t1 t2 v sd c1) as Hh'.
    destruct (instrument fn ph m qds ai si ids t1 t2 v sd c1) as [c'|e|] eqn:Ht.
    + left. exists c'. split; [reflexivity|].
      eapply running_instrument; [eassumption|].
      eapply running_bind_maps; eassumption.
    + right. exists e. reflexivity.
    + destruct Hh'. reflexivity.
Qed.

(** Outside test mode the record of a call is stamped with the
    fourth element of the end event, its scope, which has no
    [isoformat]: the handler raises before it sends anything. *)
Lemma function_end_raises phl fn ts c :
  substring_in "yes" TEST_FRAMEWORK = false ->
  exists e, function_end TEST_FRAMEWORK verdict_server phl fn (VStr "end") ts c
            = ([], Exc e).
Proof.
  intros Hmode. unfold function_end. rewrite Hmode.
  unfold dict_getitem.
  destruct (dict_get fn (function_to_maps c)) as [groups|]; simpl;
    [|eexists; reflexivity].
  destruct groups as [|[k m] groups]; simpl; [eexists; reflexivity|].
  destruct (decide (k = k)); [|congruence]. simpl. eexists; reflexivity.
Qed.

Lemma call_outside_test_mode events phl fn ts c :
  substring_in "yes" TEST_FRAMEWORK = false ->
  forallb within_call events = true ->
  running c ->
  exists e,
    consumption_thread_function (events ++ [Function phl fn "end" ts]) c
    = ([], Exc e).
Proof.
  intros Hmode. revert c.
  induction events as [|ev events IH]; intros c Hevents [Hactive Hcont].
  - simpl. rewrite Hcont. unfold init_verification.step. rewrite Hactive. simpl.
    destruct (function_end_raises phl fn ts c Hmode) as [e ->].
    exists e. reflexivity.
  - simpl in Hevents. apply andb_true_iff in Hevents as [Hev Hevents].
    simpl. rewrite Hcont.
    destruct (step_within_call c ev Hev (conj Hactive Hcont))
      as [[c' [-> Hc']]|[e ->]].
    + simpl. destruct (IH c' Hevents Hc') as [e ->]. exists e. reflexivity.
    + exists e. reflexivity.
Qed.

(** C1: outside test mode, the events of one call, from its start
    and its first trigger through any observations to its end, leave
    the verdict server without a function call record and without a
    verdict report, whatever the maps and the server: the thread
    raises, at the latest on the end event, whose handler stamps the
    record with the fourth element of the event, the scope. *)
Theorem call_sends_nothing_outside_test_mode
    (function_to_maps : list (string * list (string * PropertyMapGroup)))
    (h fn : string) (qd : nat) (t0 t3 : value) (observations : list event) :
  substring_in "yes" TEST_FRAMEWORK = false ->
  forallb (fun ev => match ev with
                     | Instrument _ _ _ _ _ _ _ _ _ _ _ => true
                     | _ => false
                     end) observations = true ->
  exists e,
    consumption_thread_function
      ([Function [h] fn "start" t0; Trigger h fn qd 0] ++ observations
         ++ [Function [h] fn "end" t3])
      (start function_to_maps)
    = ([], Exc e).
Proof.
  intros Hmode Hobs.
  rewrite app_assoc. apply call_outside_test_mode; [exact Hmode| |split; reflexivity].
  rewrite forallb_app. simpl.
  apply forallb_forall. intros ev Hin.
  rewrite forallb_forall in Hobs. specialize (Hobs ev Hin).
  destruct ev; try discriminate; reflexivity.
Qed.

(** ** A call in test mode *)

(** The maps as the handlers see them: lookups and writes on
    [function_to_maps]. *)
Definition lookup (function_to_maps : list (string * list (string * PropertyMapGroup)))
    (fn h : string) : result PropertyMapGroup :=
  groups ← dict_getitem fn function_to_maps;
  dict_getitem h groups.

Definition write (function_to_maps : list (string * list (string * PropertyMapGroup)))
    (fn h : string) (m : PropertyMapGroup)
  : list (string * list (string * PropertyMapGroup)) :=
  dict_set fn (dict_set h m (default [] (dict_get fn function_to_maps))) function_to_maps.

(** Every property registered in [maps0] is registered in [maps], for
    the same formula. *)
Definition same_properties
    (maps0 maps : list (string * list (string * PropertyMapGroup))) : Prop :=
  forall f h m, lookup maps0 f h = Ok m ->
    exists m', lookup maps f h = Ok m' /\ formula_structure m' = formula_structure m.

(** The property [h] is listed first for the function [fn], and its
    call started at [t0]. *)
Definition call_started (fn h : string) (t0 : Z)
    (maps : list (string * list (string * PropertyMapGroup))) : Prop :=
  exists m rest,
    dict_get fn maps = Some ((h, m) :: rest)
    /\ latest_time_of_call m = VDatetime t0.

Lemma lookup_write_eq maps fn h m : lookup (write maps fn h m) fn h = Ok m.
Proof.
  unfold lookup, write, dict_getitem.
  rewrite dict_get_set_eq; simpl. rewrite dict_get_set_eq. reflexivity.
Qed.

Lemma lookup_write_ne maps fn fn' h h' m :
  (fn', h') <> (fn, h) -> lookup (write maps fn' h' m) fn h = lookup maps fn h.
Proof.
  intros Hne. unfold lookup, write, dict_getitem.
  destruct (decide (fn' = fn)) as [->|Hfn].
  - rewrite dict_get_set_eq; simpl.
    rewrite dict_get_set_ne by congruence.
    destruct (dict_get fn maps); reflexivity.
  - rewrite dict_get_set_ne by exact Hfn. reflexivity.
Qed.

Lemma same_properties_refl maps : same_properties maps maps.
Proof. intros f h m Hm. exists m. split; [exact Hm | reflexivity]. Qed.

Lemma same_properties_write maps0 maps fn h m m' :
  same_properties maps0 maps ->
  lookup maps fn h = Ok m ->
  formula_structure m' = formula_structure m ->
  same_properties maps0 (write maps fn h m').
Proof.
  intros Hsame Hm Hfs f h0 m0 Hm0.
  destruct (Hsame f h0 m0 Hm0) as [m1 [Hm1 Hfs1]].
  destruct (decide ((fn, h) = (f, h0))) as [[= <- <-]|Hne].
  - exists m'. rewrite lookup_write_eq. split; [reflexivity|]. congruence.
  - exists m1. rewrite lookup_write_ne by exact Hne. split; assumption.
Qed.

Lemma call_started_write maps fn h t0 fn' h' m m' :
  call_started fn h t0 maps ->
  lookup maps fn' h' = Ok m ->
  latest_time_of_call m' = latest_time_of_call m ->
  call_started fn h t0 (write maps fn' h' m').
Proof.
  intros [m0 [rest [Hget Htime]]] Hm Hlatest. unfold call_started, write.
  destruct (decide (fn' = fn)) as [->|Hfn].
  - rewrite dict_get_set_eq. rewrite Hget. simpl.
    destruct (decide (h = h')) as [<-|Hh].
    + exists m', rest. split; [reflexivity|].
      unfold lookup, dict_getitem in Hm. rewrite Hget in Hm. simpl in Hm.
      destruct (decide (h = h)); [|congruence]. congruence.
    + exists m0, (dict_set h' m' rest). split; [reflexivity | exact Htime].
  - rewrite dict_get_set_ne by exact Hfn. exists m0, rest. split; assumption.
Qed.

(** An observation that its handler takes without raising: its
    property is registered and its atom index is in range. *)
Definition well_formed_observation
    (maps : list (string * list (string * PropertyMapGroup))) (ev : event) : Prop :=
  match ev with
  | Instrument ph fn _ ai _ _ _ _ _ _ _ =>
      exists m, lookup maps fn ph = Ok m
                /\ ai < length (_formula_atoms (formula_structure m))
  | _ => False
  end.

(** What holds of the thread between the start and the end of the
    call. *)
Definition in_call (tx : Z) (fn h : string) (t0 : Z)
    (maps0 : list (string * list (string * PropertyMapGroup))) (c : consumer) : Prop :=
  running c
  /\ transaction c = VDatetime tx
  /\ same_properties maps0 (function_to_maps c)
  /\ call_started fn h t0 (function_to_maps c).

Lemma observations_recorded ai si t1 t2 v sd l m :
  ai < length (_formula_atoms (formula_structure m)) ->
  exists m',
    for_each (observe ai si t1 t2 v sd) l m = Ok m'
    /\ formula_structure m' = formula_structure m
    /\ latest_time_of_call m' = latest_time_of_call m.
Proof.
  revert m. induction l as [|[qd id] l IH]; intros m Hai; simpl.
  - exists m. repeat split.
  - unfold list_getitem.
    destruct (lookup_lt_is_Some_2 _ _ Hai) as [a ->]. simpl.
    destruct (dict_get qd (static_qd_to_monitors m)) as [[|mon mons]|]; simpl;
      try (destruct (IH m Hai) as [m' [-> [? ?]]]; eexists; repeat split; eassumption).
    set (m1 := with_monitors _ m).
    destruct (IH m1 Hai) as [m' [-> [Hfs Ht]]].
    eexists. repeat split; [exact Hfs | exact Ht].
Qed.

Lemma step_observation tx fn h t0 maps0 c ev :
  in_call tx fn h t0 maps0 c ->
  well_formed_observation maps0 ev ->
  exists c', step c ev = ([], Ok c') /\ in_call tx fn h t0 maps0 c'.
Proof.
  intros [[Hactive Hcont] [Htx [Hsame Hcall]]] Hev.
  destruct ev
    as [ | | | ? | ? ? ? ? | ? ? ? ? | ? ? ?
       | ph fn' qds ai si ids t1 t2 v th sd | ? ? ? ? ? ? ? | ? ? ? ];
    try contradiction.
  destruct Hev as [m0 [Hm0 Hai]].
  destruct (Hsame _ _ _ Hm0) as [m [Hm Hfs]].
  unfold step. rewrite Hactive. simpl.
  unfold bind_maps. change (get_maps fn' ph c) with (lookup (function_to_maps c) fn' ph).
  rewrite Hm. simpl. unfold instrument.
  rewrite <- Hfs in Hai.
  destruct (observations_recorded ai si t1 t2 v sd (zip qds ids) m Hai)
    as [m' [-> [Hfs' Ht']]].
  simpl. eexists. split; [reflexivity|].
  split; [split; assumption|]. split; [exact Htx|].
  change (function_to_maps (put_maps fn' ph m' _))
    with (write (function_to_maps c) fn' ph m').
  split.
  - eapply same_properties_write; eassumption.
  - eapply call_started_write; eassumption.
Qed.

Lemma step_start tx fn h t0 c m rest :
  running c ->
  transaction c = VDatetime tx ->
  dict_get fn (function_to_maps c) = Some ((h, m) :: rest) ->
  exists c',
    step c (Function [h] fn "start" (VDatetime t0)) = ([], Ok c')
    /\ in_call tx fn h t0 (function_to_maps c) c'.
Proof.
  intros [Hactive Hcont] Htx Hget.
  assert (Hm : lookup (function_to_maps c) fn h = Ok m).
  { unfold lookup, dict_getitem. rewrite Hget. simpl.
    destruct (decide (h = h)); [reflexivity | congruence]. }
  unfold step. rewrite Hactive. simpl. unfold function_start. simpl.
  unfold bind_maps. change (get_maps fn h c) with (lookup (function_to_maps c) fn h).
  rewrite Hm. simpl.
  set (m1 := mk_maps (formula_structure m) [] [] (VDatetime t0) (program_path m)).
  change (get_maps fn h (put_maps fn h m1 ?c0))
    with (lookup (write (function_to_maps c) fn h m1) fn h).
  rewrite lookup_write_eq. simpl.
  eexists. split; [reflexivity|].
  split; [split; assumption|]. split; [exact Htx|].
  set (m2 := mk_maps (formula_structure m) [] [] (VDatetime t0) []).
  change (function_to_maps (put_maps fn h m2 (put_maps fn h m1 ?c0)))
    with (write (write (function_to_maps c) fn h m1) fn h m2).
  split.
  - eapply same_properties_write; [|apply lookup_write_eq | reflexivity].
    eapply same_properties_write; [apply same_properties_refl | exact Hm | reflexivity].
  - eapply call_started_write; [|apply lookup_write_eq | reflexivity].
    unfold call_started, write. rewrite dict_get_set_eq, Hget. simpl.
    destruct (decide (h = h)); [|congruence].
    exists m1, rest. split; reflexivity.
Qed.

Lemma step_first_trigger tx fn h t0 maps0 qd c :
  in_call tx fn h t0 maps0 c ->
  exists c', step c (Trigger h fn qd 0) = ([], Ok c') /\ in_call tx fn h t0 maps0 c'.
Proof.
  intros [[Hactive Hcont] [Htx [Hsame Hcall]]].
  pose proof Hcall as [m [rest [Hget Htime]]].
  assert (Hm : lookup (function_to_maps c) fn h = Ok m).
  { unfold lookup, dict_getitem. rewrite Hget. simpl.
    destruct (decide (h = h)); [reflexivity | congruence]. }
  unfold step. rewrite Hactive. simpl.
  unfold bind_maps. change (get_maps fn h c) with (lookup (function_to_maps c) fn h).
  rewrite Hm. simpl.
  eexists. split; [reflexivity|].
  split; [split; assumption|]. split; [exact Htx|].
  match goal with
  | |- context [put_maps fn h ?m' _] =>
      change (function_to_maps (put_maps fn h m' _))
        with (write (function_to_maps c) fn h m')
  end.
  split.
  - eapply same_properties_write; [eassumption | exact Hm | reflexivity].
  - eapply call_started_write; [eassumption | exact Hm | reflexivity].
Qed.

Lemma step_end tx fn h t0 t3 maps0 c ids function_id function_call_id :
  substring_in "yes" TEST_FRAMEWORK = true ->
  in_call tx fn h t0 maps0 c ->
  (forall d, verdict_server (insert_function_call_data d) = Ok (Dict ids)) ->
  dict_get "function_id" ids = Some function_id ->
  dict_get "function_call_id" ids = Some function_call_id ->
  exists program_path verdicts c',
    step c (Function [h] fn "end" (VDatetime t3))
    = ([insert_function_call_data (mk_call_data tx t0 t3 fn program_path);
        register_verdicts function_call_id function_id verdicts h],
       Ok c').
Proof.
  intros Hmode [[Hactive Hcont] [Htx [Hsame Hcall]]] Hserver Hfid Hcid.
  destruct Hcall as [m [rest [Hget Htime]]].
  unfold step. rewrite Hactive. simpl.
  assert (Hd : dict_getitem fn (function_to_maps c) = Ok ((h, m) :: rest)).
  { unfold dict_getitem. rewrite Hget. reflexivity. }
  assert (Hh : dict_getitem h ((h, m) :: rest) = Ok m).
  { unfold dict_getitem. simpl. destruct (decide (h = h)); [reflexivity | congruence]. }
  assert (Hb : bind_maps fn h c
               = Ok (m, mk_consumer (INACTIVE_MONITORING c) (transaction c)
                          (continue_monitoring c) (Some (fn, h)) (atom_sub_index c)
                          (function_to_maps c) (clock c))).
  { unfold bind_maps, get_maps. rewrite Hd. simpl. rewrite Hh. reflexivity. }
  unfold function_end. rewrite Hmode, Htx, Hd. simpl. rewrite Hh. simpl.
  rewrite Htime. simpl. rewrite Hserver. simpl. rewrite Hb. simpl.
  destruct (register_verdicts_of _ _) as [report c1]. simpl.
  unfold dict_getitem. rewrite Hfid, Hcid. simpl.
  exists (program_path m). do 2 eexists. reflexivity.
Qed.

Lemma run_step c ev queue c' :
  running c -> step c ev = ([], Ok c') ->
  consumption_thread_function (ev :: queue) c = consumption_thread_function queue c'.
Proof.
  intros [_ Hcont] Hstep. simpl. rewrite Hcont, Hstep. simpl.
  destruct (consumption_thread_function queue c'). reflexivity.
Qed.

Lemma run_observations tx fn h t0 maps0 observations queue c :
  in_call tx fn h t0 maps0 c ->
  Forall (well_formed_observation maps0) observations ->
  exists c',
    consumption_thread_function (observations ++ queue) c
    = consumption_thread_function queue c'
    /\ in_call tx fn h t0 maps0 c'.
Proof.
  intros Hc Hobs. revert c Hc.
  induction Hobs as [|ev observations Hev _ IH]; intros c Hc.
  - exists c. split; [reflexivity | exact Hc].
  - destruct (step_observation _ _ _ _ _ _ _ Hc Hev) as [c1 [Hstep Hc1]].
    destruct (IH c1 Hc1) as [c' [Hrun Hc']].
    exists c'. split; [|exact Hc'].
    rewrite <- app_comm_cons.
    rewrite (run_step c ev _ c1); [exact Hrun | apply Hc | exact Hstep].
Qed.

(** In test mode, once the transaction of the test is stored and
    with a server that answers a function call record with the two
    identifiers, the events of one call of a function under the
    property its maps list first, from the start and the first
    trigger through any well-formed observations to the end, make the
    thread hand over exactly one function call record, stamped with
    the transaction, the start and the end of the call, and after it
    exactly one verdict report, and nothing else. *)
Lemma call_in_test_mode_sends_record_then_report
    (c : consumer) (fn h : string) (qd : nat) (tx t0 t3 : Z)
    (m : PropertyMapGroup) (rest : list (string * PropertyMapGroup))
    (observations : list event) ids function_id function_call_id :
  substring_in "yes" TEST_FRAMEWORK = true ->
  running c ->
  transaction c = VDatetime tx ->
  dict_get fn (function_to_maps c) = Some ((h, m) :: rest) ->
  Forall (well_formed_observation (function_to_maps c)) observations ->
  (forall d, verdict_server (insert_function_call_data d) = Ok (Dict ids)) ->
  dict_get "function_id" ids = Some function_id ->
  dict_get "function_call_id" ids = Some function_call_id ->
  exists program_path verdicts c',
    consumption_thread_function
      ([Function [h] fn "start" (VDatetime t0); Trigger h fn qd 0] ++ observations
         ++ [Function [h] fn "end" (VDatetime t3)])
      c
    = ([insert_function_call_data (mk_call_data tx t0 t3 fn program_path);
        register_verdicts function_call_id function_id verdicts h],
       Ok c').
Proof.
  intros Hmode Hc Htx Hget Hobs Hserver Hfid Hcid.
  destruct (step_start tx fn h t0 c m rest Hc Htx Hget) as [c1 [Hstart Hc1]].
  destruct (step_first_trigger _ _ _ _ _ qd c1 Hc1) as [c2 [Htrigger Hc2]].
  destruct (run_observations _ _ _ _ _ observations
              [Function [h] fn "end" (VDatetime t3)] c2 Hc2 Hobs)
    as [c3 [Hrun Hc3]].
  destruct (step_end tx fn h t0 t3 _ c3 _ _ _ Hmode Hc3 Hserver Hfid Hcid)
    as [program_path [verdicts [c' Hend]]].
  exists program_path, verdicts, c'.
  cbn [app]. rewrite (run_step c _ _ c1 Hc Hstart).
  rewrite (run_step c1 _ _ c2 (proj1 Hc1) Htrigger).
  rewrite Hrun. cbn [init_verification.consumption_thread_function].
  destruct Hc3 as [[_ ->] _]. rewrite Hend.
  cbn. destruct (continue_monitoring c'); reflexivity.
Qed.

(** ** Cloning on a trigger *)

(** C2: when a monitor is cloned for bind variable
    [bind_variable_index], the step for an atom on one variable
    bound before it subscripts the state of the monitor with the
    atom itself.  The state is keyed by atom index, so the step
    raises [KeyError]: no truth value is replayed and no slot is
    copied. *)
Theorem copy_atom_raises fs (bind_variable_index : nat) asi
    (m new_monitor : monitor atom) (atom_index n : nat) (a : atom) :
  _formula_atoms fs !! atom_index = Some a ->
  is_logical_not a = false ->
  is_mixed_atom a = false ->
  list_index (get_base_variable a) (_bind_variables fs) = Ok n ->
  n < bind_variable_index ->
  (forall key, key ∈ map fst (_state m) -> exists i, key = KIndex i) ->
  copy_atom fs bind_variable_index asi m new_monitor (KIndex atom_index)
  = Exc KeyError.
Proof.
  intros Ha Hnot Hmixed Hvar Hlt Hkeys.
  unfold copy_atom, list_getitem. simpl. rewrite Ha. simpl.
  rewrite Hnot, Hmixed, Hvar. simpl.
  apply Nat.ltb_lt in Hlt. rewrite Hlt.
  unfold dict_getitem. rewrite (dict_get_absent (KAtom a)); [reflexivity|].
  intros Hin. destruct (Hkeys _ Hin) as [i Hi]. discriminate.
Qed.

(** ** The start of a call *)

(** C4: at the start of a call with two properties, the monitors
    and the verdict report of both are reset and both get the
    time of the call, but only the program path of the last one is
    cleared: the first keeps the path of the previous call. *)
Theorem function_start_clears_one_path (c : consumer) (fn h1 h2 : string)
    (ts : value) (m1 m2 : PropertyMapGroup) :
  h1 <> h2 ->
  get_maps fn h1 c = Ok m1 ->
  get_maps fn h2 c = Ok m2 ->
  exists c',
    function_start [h1; h2] fn ts c = Ok c'
    /\ get_maps fn h1 c' = Ok (mk_maps (formula_structure m1) [] [] ts (program_path m1))
    /\ get_maps fn h2 c' = Ok (mk_maps (formula_structure m2) [] [] ts []).
Proof.
  intros Hne H1 H2.
  assert (Hbind : forall h c0 m, get_maps fn h c0 = Ok m ->
            exists c1, bind_maps fn h c0 = Ok (m, c1)
                       /\ maps c1 = Some (fn, h)
                       /\ forall h', get_maps fn h' c1 = get_maps fn h' c0).
  { intros h c0 m Hm. unfold bind_maps. rewrite Hm. simpl.
    eexists. split; [reflexivity|]. split; reflexivity. }
  unfold function_start. cbn -[put_maps get_maps bind_maps].
  destruct (Hbind h1 c m1 H1) as [c1 [-> [_ Hc1]]].
  cbn -[put_maps get_maps bind_maps].
  set (M1 := mk_maps (formula_structure m1) [] [] ts (program_path m1)).
  assert (H2' : get_maps fn h2 (put_maps fn h1 M1 c1) = Ok m2).
  { rewrite get_maps_put_maps_ne by exact Hne. rewrite Hc1. exact H2. }
  destruct (Hbind h2 _ m2 H2') as [c3 [-> [Href Hc3]]].
  cbn -[put_maps get_maps bind_maps].
  set (M2 := mk_maps (formula_structure m2) [] [] ts (program_path m2)).
  change (maps (put_maps fn h2 M2 c3)) with (maps c3). rewrite Href.
  rewrite get_maps_put_maps_eq. cbn -[put_maps get_maps bind_maps].
  eexists. split; [reflexivity|]. split.
  - rewrite !get_maps_put_maps_ne by congruence.
    rewrite Hc3. apply get_maps_put_maps_eq.
  - apply get_maps_put_maps_eq.
Qed.

End consumer_facts.

(** ** Start-up *)

(** C9: when the configuration does not switch test mode on,
    [TEST_DIR] is read before it is bound and start-up ends in
    [UnboundLocalError], whether a test module is configured or
    not. *)
Theorem startup_fails_outside_test_mode (inst_configuration : list (string * json)) :
  is_string "yes" (get_or "test" (JString "") inst_configuration) = false ->
  Verification_init inst_configuration = Exc UnboundLocalError.
Proof. intros Hmode. unfold Verification_init. rewrite Hmode. reflexivity. Qed.

(** X19: in test mode start-up is refused exactly when the test module
    is missing or empty; otherwise it goes through. *)
Lemma startup_in_test_mode (inst_configuration : list (string * json)) :
  is_string "yes" (get_or "test" (JString "") inst_configuration) = true ->
  (Verification_init inst_configuration = Exc SystemExit
   <-> get_or "test_module" (JString "") inst_configuration = JString "")
  /\ (Verification_init inst_configuration <> Exc SystemExit
      -> exists s, Verification_init inst_configuration = Ok s).
Proof.
  intros Hmode. unfold Verification_init. rewrite Hmode.
  destruct (is_string "" (get_or "test_module" (JString "") inst_configuration))
    eqn:Hdir.
  - split; [|congruence]. split; [intros _|reflexivity].
    destruct (get_or "test_module" _ _); try discriminate.
    simpl in Hdir. apply String.eqb_eq in Hdir. congruence.
  - split; [|eexists; reflexivity]. split; [discriminate|].
    intros Heq. rewrite Heq in Hdir. discriminate.
Qed.

(** ** The properties at work *)

Import sample.

Definition f1 : sample_formula := ([On 0; Between 0 1], [0; 1]).

(** A thread that has been paused. *)
Definition paused : consumer :=
  mk_consumer true (VInt (-1)) true None None (sample_maps f1) 0.

Lemma paused_events_are_discarded_witness :
  INACTIVE_MONITORING paused = true
  /\ Path "h1" "m.f" 1 <> InactiveMonitoringStop
  /\ exists c',
       step "no" sample_server paused (Path "h1" "m.f" 1) = ([], Ok c')
       /\ function_to_maps c' = function_to_maps paused
       /\ INACTIVE_MONITORING c' = true
       /\ continue_monitoring c' = continue_monitoring paused
       /\ (Path "h1" "m.f" 1 <> EndMonitoring -> c' = paused).
Proof.
  split; [reflexivity|]. split; [discriminate|].
  apply (paused_events_are_discarded "no" sample_server paused
           (Path "h1" "m.f" 1)); [reflexivity | discriminate].
Defined.

(** While paused, [end-monitoring] is not discarded: it ends the
    loop. *)
Lemma paused_end_monitoring_ends_the_loop :
  INACTIVE_MONITORING paused = true
  /\ EndMonitoring <> InactiveMonitoringStop
  /\ continue_monitoring paused = true
  /\ exists c',
       step "no" sample_server paused EndMonitoring = ([], Ok c')
       /\ continue_monitoring c' = false.
Proof.
  split; [reflexivity|]. split; [discriminate|]. split; [reflexivity|].
  eexists. split; reflexivity.
Qed.

Definition t (n : Z) : value := VDatetime n.

Definition observation : event :=
  Instrument "h1" "m.f" [0] 0 0 [7] (t 1) (t 2) (VInt 5) 0 None.

(** The events of one call. *)
Definition one_call : list event :=
  [Function ["h1"] "m.f" "start" (t 0); Trigger "h1" "m.f" 0 0]
    ++ [observation] ++ [Function ["h1"] "m.f" "end" (t 3)].

(** On a thread that just started, in test mode or not, these events
    send nothing: the end handler raises on the time of the
    transaction. *)
Lemma call_without_transaction_sends_nothing :
  consumption_thread_function "yes" sample_server one_call
    (start (sample_maps f1))
  = ([], Exc AttributeError)
  /\ consumption_thread_function "no" sample_server one_call
       (start (sample_maps f1))
     = ([], Exc AttributeError).
Proof. split; reflexivity. Qed.

(** A thread in test mode that was told the transaction of the
    test. *)
Definition in_test : consumer :=
  mk_consumer false (t 42) true None None (sample_maps f1) 0.

Lemma call_sends_nothing_outside_test_mode_witness :
  exists e,
    consumption_thread_function "no" sample_server
      ([Function ["h1"] "m.f" "start" (t 0); Trigger "h1" "m.f" 0 0]
         ++ [observation] ++ [Function ["h1"] "m.f" "end" (t 3)])
      (start (sample_maps f1))
    = ([], Exc e).
Proof.
  apply (call_sends_nothing_outside_test_mode "no" sample_server (sample_maps f1)
           "h1" "m.f" 0 (t 0) (t 3) [observation]); reflexivity.
Defined.

Example call_in_test_mode_sends_record_then_report_at_work :
  exists program_path verdicts c',
    consumption_thread_function "yes" sample_server one_call in_test
    = ([insert_function_call_data (mk_call_data 42 0 3 "m.f" program_path);
        register_verdicts (VInt 0) (VInt 0) verdicts "h1"],
       Ok c').
Proof.
  apply (call_in_test_mode_sends_record_then_report "yes" sample_server
           in_test "m.f" "h1" 0 42 0 3 (mk_maps (H := sample_module) f1 [] [] VNone [])
           [("h2", mk_maps (H := sample_module) f1 [] [] VNone [])] [observation]
           [("function_id", VInt 0); ("function_call_id", VInt 0)]
           (VInt 0) (VInt 0)).
  - reflexivity.
  - split; reflexivity.
  - reflexivity.
  - reflexivity.
  - constructor; [|constructor].
    exists (mk_maps (H := sample_module) f1 [] [] VNone []).
    split; [reflexivity | simpl; lia].
  - reflexivity.
  - reflexivity.
  - reflexivity.
Qed.

(** A server whose answer is not JSON: the record is handed over,
    [json.loads] raises, and no verdict report follows. *)
Example call_with_unreadable_answer :
  consumption_thread_function "yes" (fun _ => Exc ValueError) one_call in_test
  = ([insert_function_call_data (mk_call_data 42 0 3 "m.f" [])], Exc ValueError).
Proof. reflexivity. Qed.

(** The same call in test mode, after the transaction of the test was
    announced: one function call record, then one verdict report. *)
Example call_in_test_mode :
  fst (consumption_thread_function "yes" sample_server
         ([TestTransaction (t 42); Function ["h1"] "m.f" "start" (t 0);
           Trigger "h1" "m.f" 0 0; Path "h1" "m.f" 1; observation;
           Function ["h1"] "m.f" "end" (t 3)])
         (start (sample_maps f1)))
  = [insert_function_call_data (mk_call_data 42 0 3 "m.f" [1]);
     register_verdicts (VInt 0) (VInt 0) [] "h1"].
Proof. reflexivity. Qed.

(** A monitor that was advanced to the second bind variable. *)
Definition advanced : monitor sample_atom :=
  mk_monitor None [(KIndex 0, Some true); (KIndex 1, None)] [0; 1]
    [(0, [(0, VInt 5)])] [(0, [(0, 0)])] [(0, [(0, VNone)])] None None.

Lemma copy_atom_raises_witness :
  copy_atom f1 1 (Some 0) advanced (sample_new_monitor f1) (KIndex 0)
  = Exc KeyError.
Proof.
  apply (copy_atom_raises (H := sample_module) f1 1 (Some 0) advanced
           (sample_new_monitor f1) 0 0 (On 0)); try reflexivity.
  - simpl. lia.
  - intros key Hin. simpl in Hin.
    apply list_elem_of_In in Hin. simpl in Hin.
    destruct Hin as [<-|[<-|[]]]; eexists; reflexivity.
Defined.

(** The second trigger for the second bind variable finds that
    monitor and ends the thread. *)
Example second_trigger_raises :
  consumption_thread_function "yes" sample_server
    [Function ["h1"] "m.f" "start" (t 0); Trigger "h1" "m.f" 0 0;
     Trigger "h1" "m.f" 0 1; observation; Trigger "h1" "m.f" 0 1]
    (start (sample_maps f1))
  = ([], Exc KeyError).
Proof. reflexivity. Qed.

(** Two properties, each with a path recorded during the previous
    call. *)
Definition after_a_call : consumer :=
  mk_consumer false (VInt (-1)) true None None
    [("m.f", [("h1", mk_maps f1 [] [] VNone [1]); ("h2", mk_maps f1 [] [] VNone [2])])]
    0.

Lemma function_start_clears_one_path_witness :
  exists c',
    function_start ["h1"; "h2"] "m.f" (t 0) after_a_call = Ok c'
    /\ get_maps "m.f" "h1" c' = Ok (mk_maps f1 [] [] (t 0) [1])
    /\ get_maps "m.f" "h2" c' = Ok (mk_maps f1 [] [] (t 0) []).
Proof.
  apply (function_start_clears_one_path (H := sample_module) after_a_call
           "m.f" "h1" "h2" (t 0) (mk_maps (H := sample_module) f1 [] [] VNone [1])
           (mk_maps (H := sample_module) f1 [] [] VNone [2]));
    [discriminate | reflexivity | reflexivity].
Defined.

Lemma startup_fails_outside_test_mode_witness :
  Verification_init [("test_module", JString "tests")] = Exc UnboundLocalError.
Proof.
  apply (startup_fails_outside_test_mode [("test_module", JString "tests")]).
  reflexivity.
Defined.

End consumer_properties.

(** * More on the graph builder *)

Module graph_facts.

Import construction scfg_properties.

Section order.

Context {order : HashOrder}.

(** ** What a block leaves of the graph it is given *)






(** ** Statements that add one vertex *)

(** The fields of the graph that only grow by explicit appends. *)
Definition same_lists (g g' : CFG.t) : Prop :=
  CFG.vertices g' = CFG.vertices g
  /\ CFG.edges g' = CFG.edges g
  /\ CFG.return_statements g' = CFG.return_statements g
  /\ CFG.branch_initial_statements g' = CFG.branch_initial_statements g.

(** What is known of an edge object. *)
Definition edge_is (g : CFG.t) (e : edge_ref) (i : instruction)
    (source target : option vertex_ref) : Prop :=
  instruction_of g e = Some i
  /\ CFG.edge_store g !! e ≫= (fun x => Some (CFGEdge._source_state x)) = Some source
  /\ CFG.edge_store g !! e ≫= (fun x => Some (CFGEdge._target_state x)) = Some target.

Lemma new_edges_loop_spec (mk : result CFGEdge.t) instr sources :
  (forall ed, mk = Ok ed ->
     CFGEdge._instruction ed = instr /\ CFGEdge._target_state ed = None) ->
  forall acc g new_edges g',
  for_each (fun '(new_edges, g) vertex =>
      new_edge ← mk;
      let '(e, g) := CFG.new_edge new_edge g in
      Ok (new_edges ++ [e], CFG.add_outgoing_edge vertex e g))
    sources (acc, g) = Ok (new_edges, g') ->
  new_edges = acc ++ seq (length (CFG.edge_store g)) (length sources)
  /\ length (CFG.edge_store g') = length (CFG.edge_store g) + length sources
  /\ length (CFG.vertex_store g') = length (CFG.vertex_store g)
  /\ same_lists g g'
  /\ (forall e, e < length (CFG.edge_store g) ->
        CFG.edge_store g' !! e = CFG.edge_store g !! e)
  /\ (forall j w, sources !! j = Some w ->
        edge_is g' (length (CFG.edge_store g) + j) instr (Some w) None).
Proof.
  intros Hmk.
  induction sources as [|x l IH]; intros acc g new_edges g'.
  - cbn. intros [= <- <-]. rewrite app_nil_r, Nat.add_0_r.
    split; [reflexivity|]. split; [reflexivity|]. split; [reflexivity|].
    split; [repeat split|]. split; [reflexivity|]. intros j w Hj. discriminate.
  - destruct mk as [ed| |]; cbn -[CFG.new_edge CFG.add_outgoing_edge];
      try discriminate.
    intros Hrest.
    destruct (Hmk ed eq_refl) as [Hi Ht].
    set (n := length (CFG.edge_store g)) in *.
    set (g1 := CFG.add_outgoing_edge x n (CFG.new_edge ed g).2).
    assert (Hlen : length (CFG.edge_store g1) = S n).
    { unfold g1, CFG.add_outgoing_edge. cbn. rewrite length_alter, length_app.
      simpl. unfold n. lia. }
    assert (Hlenv : length (CFG.vertex_store g1) = length (CFG.vertex_store g)).
    { unfold g1, CFG.add_outgoing_edge. cbn. rewrite length_alter. reflexivity. }
    assert (Hn : CFG.edge_store g1 !! n = Some (CFGEdge.set_source_state x ed)).
    { unfold g1, CFG.add_outgoing_edge. cbn. rewrite list_lookup_alter.
      case_decide; [|congruence]. unfold n.
      rewrite list_lookup_middle by reflexivity. reflexivity. }
    assert (Hold : forall e, e < n -> CFG.edge_store g1 !! e = CFG.edge_store g !! e).
    { intros e He. unfold g1, CFG.add_outgoing_edge. cbn.
      rewrite list_lookup_alter_ne by lia. apply lookup_app_l. exact He. }
    destruct (IH (acc ++ [n]) g1 new_edges g' Hrest)
      as [Hnew [Hes [Hvs [Hlists [Hkeep Hedges]]]]].
    rewrite Hlen in *.
    split; [rewrite Hnew, <- app_assoc; reflexivity|].
    split; [rewrite Hes; simpl; lia|].
    split; [congruence|].
    split; [exact Hlists|].
    split.
    + intros e He. rewrite Hkeep by lia. apply Hold, He.
    + intros j w Hj. destruct j as [|j].
      * injection Hj as <-. rewrite Nat.add_0_r.
        unfold edge_is, instruction_of. rewrite (Hkeep n) by lia. rewrite Hn.
        simpl. rewrite Hi, Ht. auto.
      * replace (n + S j) with (S n + j) by lia. apply Hedges. exact Hj.
Qed.

Lemma edge_is_set_target g x t e i s0 t0 :
  edge_is g e i s0 t0 ->
  edge_is (CFG.set_target_state x t g) e i s0
    (if bool_decide (e = x) then Some t else t0).
Proof.
  intros [Hi [Hs Ht]]. unfold edge_is, instruction_of in *.
  unfold CFG.set_target_state. cbn. rewrite list_lookup_alter.
  destruct (CFG.edge_store g !! e) as [ed|] eqn:He; [|discriminate].
  simpl in *. case_bool_decide; case_decide; try congruence; simpl; auto.
  subst x. rewrite He. simpl. auto.
Qed.

(** Setting the target of edges leaves the rest of the graph. *)
Lemma set_targets_spec t new_edges :
  forall g,
  let g' := foldl (fun g edge => CFG.set_target_state edge t g) g new_edges in
  length (CFG.edge_store g') = length (CFG.edge_store g)
  /\ length (CFG.vertex_store g') = length (CFG.vertex_store g)
  /\ same_lists g g'
  /\ (forall v, edges_of g' v = edges_of g v)
  /\ (forall e i s0 t0, edge_is g e i s0 t0 ->
        edge_is g' e i s0 (if bool_decide (e ∈ new_edges) then Some t else t0)).
Proof.
  induction new_edges as [|x l IH]; intros g; cbn.
  - split; [reflexivity|]. split; [reflexivity|]. split; [repeat split|].
    split; [reflexivity|]. intros e i s0 t0 He. exact He.
  - destruct (IH (CFG.set_target_state x t g)) as [Hes [Hvs [Hlists [Hedges Hspec]]]].
    split; [rewrite Hes; unfold CFG.set_target_state; cbn; apply length_alter|].
    split; [rewrite Hvs; unfold CFG.set_target_state; cbn; apply length_alter|].
    split; [exact Hlists|].
    split.
    + intros v. rewrite Hedges. unfold CFG.set_target_state.
      rewrite edges_of_update_vertex by reflexivity. reflexivity.
    + intros e i s0 t0 [Hi [Hs Ht]].
      pose proof (edge_is_set_target g x t e i s0 t0 (conj Hi (conj Hs Ht))) as Hstep.
      apply Hspec in Hstep.
      rewrite (bool_decide_ext (e ∈ x :: l) (e = x \/ e ∈ l)) by apply elem_of_cons.
      repeat case_bool_decide; first [exact Hstep | exfalso; tauto].
Qed.

Lemma straight_line_spec entry rv ivc ls g ls' g' :
  straight_line entry rv ivc (ls, g) = Ok (ls', g') ->
  current_vertices ls' = [length (CFG.vertex_store g)]
  /\ length (CFG.vertex_store g') = S (length (CFG.vertex_store g))
  /\ length (CFG.edge_store g')
     = length (CFG.edge_store g) + length (current_vertices ls)
  /\ CFG.vertices g' = CFG.vertices g ++ [length (CFG.vertex_store g)]
  /\ CFG.edges g'
     = CFG.edges g ++ seq (length (CFG.edge_store g)) (length (current_vertices ls))
  /\ CFG.return_statements g' = CFG.return_statements g
  /\ edges_of g' (length (CFG.vertex_store g)) = Some []
  /\ (forall j w, current_vertices ls !! j = Some w ->
        edge_is g' (length (CFG.edge_store g) + j) (IStmt entry) (Some w)
          (Some (length (CFG.vertex_store g)))).
Proof.
  unfold straight_line, new_edges_from. intros Hrun.
  match type of Hrun with context [for_each ?f ?l ?st] =>
    destruct (for_each f l st) as [[new_edges g1]| |] eqn:Hloop
  end; cbn -[CFGVertex.__init__] in Hrun; try discriminate.
  destruct (CFGVertex.__init__ (Some entry) (Some (S (path_length ls))) None rv)
    as [vx| |] eqn:Hvx; cbn -[foldl] in Hrun; try discriminate.
  injection Hrun as <- <-. cbn [current_vertices].
  apply (new_edges_loop_spec _ (IStmt entry)) in Hloop
    as [Hnew [Hes [Hvs [[Hl1 [Hl2 [Hl3 Hl4]]] [Hkeep Hedges]]]]].
  2:{ intros ed Hed. apply edge_init_fields in Hed as [Hi [Ht _]]. auto. }
  cbn [app] in Hnew.
  pose proof (vertex_init_edges _ _ _ _ _ Hvx) as Hnone.
  match goal with |- context [foldl ?f ?a ?l] =>
    set (g2 := a);
    destruct (set_targets_spec (length (CFG.vertex_store g1)) new_edges g2)
      as [Hes2 [Hvs2 [[Hm1 [Hm2 [Hm3 Hm4]]] [Hedges2 Hspec]]]]
  end.
  rewrite Hvs in *.
  split; [reflexivity|].
  split; [rewrite Hvs2; unfold g2; cbn; rewrite length_app, Hvs; simpl; lia|].
  split; [rewrite Hes2; exact Hes|].
  split; [rewrite Hm1; unfold g2; cbn; rewrite Hl1, Hvs; reflexivity|].
  split; [rewrite Hm2; unfold g2; cbn; rewrite Hl2, Hnew; reflexivity|].
  split; [rewrite Hm3; unfold g2; cbn; exact Hl3|].
  split.
  - rewrite Hedges2. unfold edges_of, g2. cbn.
    rewrite list_lookup_middle by (symmetry; exact Hvs). simpl. rewrite Hnone.
    reflexivity.
  - intros j w Hj.
    pose proof (Hspec _ _ _ _ (Hedges j w Hj)) as Hedge.
    rewrite bool_decide_eq_true_2 in Hedge; [exact Hedge|].
    rewrite Hnew. apply elem_of_seq. apply lookup_lt_Some in Hj. lia.
Qed.

(** The statements for which [process_block] makes one vertex. *)
Definition straight (s : stmt) : bool :=
  match s with
  | Assign _ _ | Expr (Call _ _) | Pass | Raise _ | Return _ => true
  | _ => false
  end.

Definition is_return (s : stmt) : bool :=
  match s with Return _ => true | _ => false end.

(** X3: an assignment, a call, [pass], [raise] or [return] adds
    exactly one vertex, which becomes the only current vertex, and
    one edge from each current vertex, in their order, to that
    vertex; each edge carries the statement.  The vertex and the
    edges are appended to [vertices] and [edges]; the vertex of a
    [return], and only of a [return], is appended to
    [return_statements]. *)
Theorem straight_statement_step is_last ivc s ls g ls' g' :
  straight s = true ->
  process_entry is_last ivc s (ls, g) = Ok (ls', g') ->
  current_vertices ls' = [length (CFG.vertex_store g)]
  /\ length (CFG.vertex_store g') = S (length (CFG.vertex_store g))
  /\ length (CFG.edge_store g')
     = length (CFG.edge_store g) + length (current_vertices ls)
  /\ CFG.vertices g' = CFG.vertices g ++ [length (CFG.vertex_store g)]
  /\ CFG.edges g'
     = CFG.edges g ++ seq (length (CFG.edge_store g)) (length (current_vertices ls))
  /\ CFG.return_statements g'
     = CFG.return_statements g
       ++ (if is_return s then [length (CFG.vertex_store g)] else [])
  /\ edges_of g' (length (CFG.vertex_store g)) = Some []
  /\ (forall j w, current_vertices ls !! j = Some w ->
        edge_is g' (length (CFG.edge_store g) + j) (IStmt s) (Some w)
          (Some (length (CFG.vertex_store g)))).
Proof.
  intros Hs Hrun.
  assert (Hplain : forall rv,
            is_return s = false ->
            straight_line s rv ivc (ls, g) = Ok (ls', g') ->
            current_vertices ls' = [length (CFG.vertex_store g)]
            /\ length (CFG.vertex_store g') = S (length (CFG.vertex_store g))
            /\ length (CFG.edge_store g')
               = length (CFG.edge_store g) + length (current_vertices ls)
            /\ CFG.vertices g' = CFG.vertices g ++ [length (CFG.vertex_store g)]
            /\ CFG.edges g'
               = CFG.edges g
                 ++ seq (length (CFG.edge_store g)) (length (current_vertices ls))
            /\ CFG.return_statements g'
               = CFG.return_statements g
                 ++ (if is_return s then [length (CFG.vertex_store g)] else [])
            /\ edges_of g' (length (CFG.vertex_store g)) = Some []
            /\ (forall j w, current_vertices ls !! j = Some w ->
                  edge_is g' (length (CFG.edge_store g) + j) (IStmt s) (Some w)
                    (Some (length (CFG.vertex_store g))))).
  { intros rv Hnot Hline. rewrite Hnot, app_nil_r.
    apply (straight_line_spec _ _ _ _ _ _ _ Hline). }
  destruct s as [targets value|value|value|type| | | | | |]; try discriminate.
  - rewrite process_entry_assign in Hrun. eapply Hplain; [reflexivity | exact Hrun].
  - destruct value; try discriminate.
    rewrite process_entry_call in Hrun. eapply Hplain; [reflexivity | exact Hrun].
  - clear Hplain. rewrite process_entry_return in Hrun.
    destruct (straight_line (Return value) [] ivc (ls, g)) as [[ls1 g1]| |] eqn:Hline;
      cbn -[log_return] in Hrun; try discriminate.
    destruct (straight_line_spec _ _ _ _ _ _ _ Hline)
      as [Hcur [Hvs [Hes [Hv [He [Hr [Hnone Hedges]]]]]]].
    unfold log_return in Hrun. injection Hrun as <- <-.
    rewrite Hcur. cbn [foldl is_return].
    split; [reflexivity|]. split; [exact Hvs|]. split; [exact Hes|].
    split; [exact Hv|]. split; [exact He|].
    split; [cbn; rewrite Hr; reflexivity|].
    split; [exact Hnone|]. exact Hedges.
  - rewrite process_entry_raise in Hrun. eapply Hplain; [reflexivity | exact Hrun].
  - rewrite process_entry_pass in Hrun. eapply Hplain; [reflexivity | exact Hrun].
Qed.



(** ** The target of a [for] *)

Lemma link_all_total cond instr sources target :
  forall g, exists g', link_all cond instr sources target g = Ok g'.
Proof.
  unfold link_all. induction sources as [|x l IH]; intros g.
  - exists g. reflexivity.
  - cbn -[control_edge]. rewrite control_edge_eq. cbn -[control_edge]. apply IH.
Qed.

Lemma loop_head_total iter ls g :
  exists pre post g', loop_head iter ls g = Ok (pre, post, g').
Proof.
  unfold loop_head. cbn -[link_all].
  match goal with |- context [link_all ?c ?i ?s ?t ?x] =>
    destruct (link_all_total c i s t x) as [g' ->]
  end.
  cbn. eexists _, _, _. reflexivity.
Qed.

Definition is_name (e : expr) : bool :=
  match e with Name _ => true | _ => false end.

(** The exception a loop target leads to when no earlier loop of the
    block has bound [additional_input_variables]. *)
Definition loop_target_error (target : expr) : option exn :=
  match target with
  | Name _ => None
  | Tuple elts => if forallb is_name elts then None else Some AttributeError
  | _ => Some UnboundLocalError
  end.

Lemma ids_of_names elts :
  forallb is_name elts = false -> map_each id_of elts = Exc AttributeError.
Proof.
  induction elts as [|e elts IH]; [discriminate|].
  destruct e; cbn; try reflexivity.
  intros Hrest. rewrite (IH Hrest). reflexivity.
Qed.

(** X4: a block that starts with a [for] whose target is neither a
    name nor a tuple of names is not processed: with a tuple that
    holds something else than names, reading [item.id] raises
    [AttributeError]; with any other target, for instance [a.b] or
    [a[i]], the variable [additional_input_variables] was never
    assigned and reading it raises [UnboundLocalError]. *)
Theorem loop_target_raises target iter body rest starting_vertices conds ivs g e :
  loop_target_error target = Some e ->
  process_block (For target iter body :: rest) starting_vertices conds ivs g = Exc e.
Proof.
  intros Htarget. unfold process_block, process_block_with.
  cbn -[process_entry]. rewrite process_entry_for.
  match goal with |- context [loop_head ?i ?l ?x] =>
    destruct (loop_head_total i l x) as [pre [post [g' ->]]]
  end.
  cbn -[process_block loop_tail loop_input_variables].
  destruct target as [| | | | | | |elts| |]; try discriminate;
    try (injection Htarget as <-; reflexivity).
  cbn in Htarget. destruct (forallb is_name elts) eqn:Hnames; [discriminate|].
  injection Htarget as <-. cbn -[process_block loop_tail].
  rewrite (ids_of_names _ Hnames). reflexivity.
Qed.



(** ** The grammar of a graph *)

Lemma grammar_get_set k rules final_map v :
  grammar_get v (grammar_set k rules final_map)
  = if decide (k = v) then Some rules else grammar_get v final_map.
Proof.
  unfold grammar_get. induction final_map as [|[k' r'] m IH]; cbn.
  - destruct (Nat.eqb_spec k v); case_decide; try congruence; reflexivity.
  - destruct (decide (k' = k)) as [->|Hne]; cbn.
    + destruct (Nat.eqb_spec k v); case_decide; try congruence; reflexivity.
    + destruct (Nat.eqb_spec k' v) as [->|Hne']; cbn.
      * case_decide; [congruence | reflexivity].
      * exact IH.
Qed.

Lemma derive_grammar_loop g vertices :
  forall final_map final_map',
  for_each (fun final_map vertex =>
      rules ← rules_of g vertex;
      Ok (grammar_set vertex rules final_map)) vertices final_map = Ok final_map' ->
  forall v,
    match grammar_get v final_map' with
    | Some rules =>
        (v ∈ vertices /\ rules_of g v = Ok rules)
        \/ ((v ∉ vertices) /\ grammar_get v final_map = Some rules)
    | None => (v ∉ vertices) /\ grammar_get v final_map = None
    end.
Proof.
  induction vertices as [|x l IH]; intros m m'.
  - cbn. intros [= <-] v. destruct (grammar_get v m); [right|]; split; auto;
      apply not_elem_of_nil.
  - cbn -[rules_of]. destruct (rules_of g x) as [rules| |] eqn:Hx;
      cbn -[rules_of]; try discriminate.
    intros Hrest v. specialize (IH _ _ Hrest v).
    rewrite grammar_get_set in IH.
    destruct (grammar_get v m') as [r|].
    + destruct IH as [[Hin Hr]|[Hnot Hget]].
      * left. split; [right; exact Hin | exact Hr].
      * case_decide.
        -- subst x. injection Hget as <-. left. split; [left | exact Hx].
        -- right. split; [|exact Hget]. intros Hin.
           apply elem_of_cons in Hin as [?|?]; [congruence | contradiction].
    + destruct IH as [Hnot Hget]. case_decide; [discriminate|].
      split; [|exact Hget]. intros Hin.
      apply elem_of_cons in Hin as [?|?]; [congruence | contradiction].
Qed.

(** X5: when [derive_grammar] returns, the map it returns is defined
    on the vertices of the graph and on nothing else, and the rules
    of a vertex are those of the loop body for that vertex: they do
    not depend on the order of the vertices. *)
Theorem derive_grammar_defined g final_map :
  derive_grammar g = Ok final_map ->
  forall v,
    match grammar_get v final_map with
    | Some rules => v ∈ CFG.vertices g /\ rules_of g v = Ok rules
    | None => v ∉ CFG.vertices g
    end.
Proof.
  intros Hrun v. pose proof (derive_grammar_loop g _ _ _ Hrun v) as H.
  destruct (grammar_get v final_map) as [rules|].
  - destruct H as [H|[_ H]]; [exact H | discriminate].
  - apply H.
Qed.


(** The graph of [calling_loop]. *)
Definition calling_loop_graph : CFG.t :=
  Eval vm_compute in
    match process_entry true [] calling_loop (at_start, CFG.__init__ []) with
    | Ok (_, g) => g
    | _ => CFG.__init__ []
    end.


(** A rule of a vertex with the outgoing edges [edges]: one of the
    edges, alone or followed by the vertex it leads to, which a
    second vertex may follow. *)
Definition rule_of_edge (g : CFG.t) (edges : list edge_ref) (r : list symbol) : Prop :=
  exists e,
    e ∈ edges
    /\ (r = [SEdge e]
        \/ exists t,
             target_state g e = Ok t
             /\ (r = [SEdge e; SVertex t] \/ exists p, r = [SEdge e; SVertex t; SVertex p])).

Lemma edge_at_in edges i e : edge_at edges i = Ok e -> e ∈ edges.
Proof.
  unfold edge_at. destruct (edges !! i) as [x|] eqn:Hx; [|discriminate].
  intros [= <-]. eapply list_elem_of_lookup_2. exact Hx.
Qed.

Lemma flags_fst {B : Type} (f : edge_ref -> result B) edges :
  forall flags,
  map_each (fun e => n ← f e; Ok (e, n)) edges = Ok flags -> map fst flags = edges.
Proof.
  induction edges as [|e l IH]; intros flags; cbn.
  - intros [= <-]. reflexivity.
  - destruct (f e) as [n| |]; cbn; try discriminate.
    destruct (map_each (fun e => n ← f e; Ok (e, n)) l) as [r| |]; cbn; try discriminate.
    intros [= <-]. cbn. rewrite (IH r eq_refl). reflexivity.
Qed.

Lemma first_edge_where_in g p edges e :
  first_edge_where g p edges = Ok e -> e ∈ edges.
Proof.
  unfold first_edge_where.
  destruct (map_each (fun e => n ← target_name g e; Ok (e, p n)) edges)
    as [flags| |] eqn:Hflags; cbn; try discriminate.
  assert (Hfst : map fst flags = edges).
  { apply (flags_fst (fun e => n ← target_name g e; Ok (p n))).
    rewrite <- Hflags. clear. induction edges as [|x l IH]; cbn; [reflexivity|].
    destruct (target_name g x); cbn; try reflexivity. rewrite IH. reflexivity. }
  destruct (List.filter snd flags) as [|[x b] rest] eqn:Hfilter; [discriminate|].
  intros [= <-]. rewrite <- Hfst.
  assert (Hin : (x, b) ∈ List.filter snd flags) by (rewrite Hfilter; left).
  apply elem_of_filter_bool in Hin as [Hin _].
  apply (list_elem_of_fmap_2 fst) in Hin. exact Hin.
Qed.

Lemma plain_rule_shape g ends edges e r :
  e ∈ edges -> plain_rule g ends e = Ok r -> rule_of_edge g edges r.
Proof.
  unfold plain_rule. intros Hin.
  destruct (target_state g e) as [t| |] eqn:Ht; cbn; try discriminate.
  destruct (name_in _ ends); intros [= <-]; exists e; split; auto.
  right. exists t. auto.
Qed.

Lemma plain_rules_shape g ends edges :
  forall l rules,
  (forall e, e ∈ l -> e ∈ edges) ->
  map_each (plain_rule g ends) l = Ok rules ->
  length rules = length l /\ Forall (rule_of_edge g edges) rules.
Proof.
  induction l as [|e l IH]; intros rules Hsub; cbn.
  - intros [= <-]. split; [reflexivity | constructor].
  - destruct (plain_rule g ends e) as [r| |] eqn:Hr; cbn; try discriminate.
    destruct (map_each (plain_rule g ends) l) as [rs| |] eqn:Hrs; cbn; try discriminate.
    intros [= <-].
    destruct (IH rs) as [Hlen Hall]; [intros x Hx; apply Hsub; right; exact Hx | reflexivity|].
    split; [cbn; congruence|].
    constructor; [|exact Hall].
    eapply plain_rule_shape; [apply Hsub; left | exact Hr].
Qed.


Ltac rule_step H :=
  match type of H with
  | (if ?b then _ else _) = Ok _ => destruct b eqn:?
  | (?m ≫= _) = Ok _ =>
      let E := fresh "E" in
      destruct m eqn:E;
      cbn -[first_edge_where target_state plain_rule edge_at map_each head_rule
            name_in name_is target_name existsb] in H;
      try discriminate H
  end.

Ltac rule_edge :=
  match goal with
  | E : edge_at _ _ = Ok ?e |- ?e ∈ _ => apply edge_at_in in E; exact E
  | E : first_edge_where _ _ _ = Ok ?e |- ?e ∈ _ =>
      apply first_edge_where_in in E; exact E
  end.

Ltac one_rule :=
  match goal with
  | |- rule_of_edge _ _ [SEdge ?e] =>
      exists e; split; [rule_edge | left; reflexivity]
  | |- rule_of_edge _ _ [SEdge ?e; SVertex ?t] =>
      exists e; split;
      [rule_edge | right; exists t; split; [assumption | left; reflexivity]]
  | |- rule_of_edge _ _ [SEdge ?e; SVertex ?t; SVertex ?p] =>
      exists e; split;
      [rule_edge | right; exists t; split; [assumption | right; exists p; reflexivity]]
  | |- rule_of_edge _ _ _ => eapply plain_rule_shape; [|eassumption]; rule_edge
  end.

Lemma head_rule_shape g edges e0 t0 merge rules :
  e0 ∈ edges -> target_state g e0 = Ok t0 ->
  head_rule e0 t0 merge = Ok rules ->
  rules <> [] /\ Forall (rule_of_edge g edges) rules.
Proof.
  intros Hin Ht. unfold head_rule.
  destruct merge as [[post|]|]; intros [= <-]; (split; [discriminate|]);
    constructor; try constructor; exists e0; split; auto; right; exists t0;
    split; auto. right. exists post. reflexivity.
Qed.

(** The rules of one vertex. *)
Lemma rules_of_shape g v rules :
  rules_of g v = Ok rules ->
  match CFGVertex.edges (vertex_at g v) with
  | [] => rules = [[SNone]]
  | _ :: _ =>
      rules <> []
      /\ Forall (rule_of_edge g (CFGVertex.edges (vertex_at g v))) rules
  end.
Proof.
  unfold rules_of. intros H.
  destruct (CFGVertex.edges (vertex_at g v)) as [|x l] eqn:Hedges.
  - injection H as <-. reflexivity.
  - cbn [length Nat.eqb] in H. rewrite <- Hedges in *.
    repeat rule_step H;
      first
        [ eapply head_rule_shape; [|eassumption|exact H]; rule_edge
        | idtac ].
    all: try (injection H as <-; split; [discriminate|];
              repeat (constructor; [one_rule|]); constructor).
    apply plain_rules_shape with (edges := CFGVertex.edges (vertex_at g v)) in H as
      [Hlen Hall]; [|auto].
    split; [|exact Hall]. intros ->. rewrite Hedges in Hlen. discriminate.
Qed.


(** X6: in the grammar that [derive_grammar] returns, a vertex
    without outgoing edges has the single rule [[None]], the empty
    string; any other vertex has at least one rule, and each of its
    rules starts with one of its outgoing edges, which stands alone
    or is followed by the vertex the edge leads to and, at most, one
    more vertex. *)
Theorem derive_grammar_rules g final_map v rules :
  derive_grammar g = Ok final_map ->
  grammar_get v final_map = Some rules ->
  match CFGVertex.edges (vertex_at g v) with
  | [] => rules = [[SNone]]
  | _ :: _ =>
      rules <> []
      /\ Forall (rule_of_edge g (CFGVertex.edges (vertex_at g v))) rules
  end.
Proof.
  intros Hrun Hget. apply rules_of_shape.
  pose proof (derive_grammar_loop g _ _ _ Hrun v) as H.
  rewrite Hget in H. destruct H as [[_ H]|[_ H]]; [exact H | discriminate].
Qed.



(** ** Names *)

Lemma append_nil_r (s : string) : s +:+ "" = s.
Proof.
  induction s as [|c s IH]; [reflexivity|].
  change (String c (s +:+ "") = String c s). rewrite IH. reflexivity.
Qed.

Lemma append_assoc (a b c : string) : (a +:+ b) +:+ c = a +:+ (b +:+ c).
Proof.
  induction a as [|x a IH]; [reflexivity|].
  change (String x ((a +:+ b) +:+ c) = String x (a +:+ (b +:+ c))).
  rewrite IH. reflexivity.
Qed.

(** [base.attr1.attr2...] as an expression. *)
Definition attribute_chain (base : string) (attrs : list string) : expr :=
  foldl Attribute (Name base) attrs.

(** A string that can be an identifier of the program: not empty,
    without a dot, and not starting with a bracket. *)
Definition identifier (s : string) : Prop :=
  contains "."%char s = false
  /\ match s with
     | EmptyString => False
     | String c _ => c <> "["%char
     end.

Definition dotted (parts : list string) : string :=
  fold_right (fun part r => dot +:+ part +:+ r) "" parts.

Lemma join_dotted part parts : join dot (part :: parts) = part +:+ dotted parts.
Proof.
  revert part. induction parts as [|q r IH]; intros part.
  - change (part = part +:+ ""). rewrite append_nil_r. reflexivity.
  - change (join dot (part :: q :: r)) with (part +:+ dot +:+ join dot (q :: r)).
    rewrite IH. reflexivity.
Qed.

Lemma attr_string_loop_dotted len parts :
  forall n acc,
  0 < n -> Forall identifier parts ->
  attr_string_loop len n parts acc = Ok (Some (acc +:+ dotted parts)).
Proof.
  induction parts as [|part rest IH]; intros n acc Hn Hall.
  - change (Ok (Some acc) = Ok (Some (acc +:+ ""))). rewrite append_nil_r. reflexivity.
  - inversion Hall as [|? ? [Hdot Hfirst] Hrest]; subst.
    cbn. rewrite Hdot. cbn.
    destruct part as [|c part]; [contradiction|].
    destruct (decide (c = "["%char)) as [?|_]; [contradiction|].
    destruct n as [|n]; [lia|]. cbn [Nat.eqb].
    rewrite IH by (auto; lia). rewrite append_assoc. reflexivity.
Qed.

Lemma reversed_chain omit attrs :
  forall e l0,
  get_reversed_string_list e omit = Ok (Some l0) ->
  get_reversed_string_list (foldl Attribute e attrs) omit = Ok (Some (rev attrs ++ l0)).
Proof.
  induction attrs as [|a attrs IH]; intros e l0 He; [exact He|].
  cbn [foldl rev]. rewrite <- app_assoc. apply IH.
  cbn. rewrite He. reflexivity.
Qed.

(** X7: for a dotted name [base.a1...an] made of identifiers,
    [get_attr_name_string] returns the name as written, the parts
    joined by dots, whether subscripts are omitted or not. *)
Theorem dotted_name_string base attrs omit_subscripts :
  Forall identifier (base :: attrs) ->
  get_attr_name_string (attribute_chain base attrs) omit_subscripts
  = Ok (Some (join dot (base :: attrs))).
Proof.
  intros Hall. unfold get_attr_name_string, attribute_chain. rewrite join_dotted.
  pose proof (reversed_chain omit_subscripts attrs (Name base) [base] eq_refl) as Hr.
  assert (Hshape : match foldl Attribute (Name base) attrs with
                   | Load | Index _ => False
                   | _ => True
                   end).
  { destruct attrs as [|a attrs _] using rev_ind; [exact I|].
    rewrite foldl_app. exact I. }
  destruct (foldl Attribute (Name base) attrs); try contradiction;
    rewrite Hr; cbn -[attr_string_loop rev];
    rewrite rev_app_distr, rev_involutive; cbn [rev app];
    inversion Hall as [|? ? [Hdot Hfirst] Hrest]; subst;
    cbn; rewrite Hdot; cbn;
    (destruct base as [|c base]; [contradiction|]);
    (destruct (decide (c = "["%char)) as [?|_]; [contradiction|]);
    rewrite attr_string_loop_dotted by (auto; lia);
    reflexivity.
Qed.



Lemma callee_chain_attributes attrs :
  forall e l0,
  callee_chain e = Ok l0 ->
  callee_chain (foldl Attribute e attrs) = Ok (rev attrs ++ l0).
Proof.
  induction attrs as [|a attrs IH]; intros e l0 He; [exact He|].
  cbn [foldl rev]. rewrite <- app_assoc. apply IH.
  cbn. rewrite He. reflexivity.
Qed.

Lemma walk_root e :
  walk e = e :: flat_map (fun d => level d e) (seq 1 (height e)).
Proof. reflexivity. Qed.

Lemma values_from_permutation n (d : list (expr * list string)) :
  length d = n -> values_from n d ≡ₚ d.*2.
Proof.
  revert d. induction n as [|n IH]; intros d Hlen.
  - destruct d; [reflexivity | discriminate].
  - destruct d as [|[k v] [|kv d]]; [discriminate | reflexivity|].
    cbn -[Nat.modulo lookup delete length fmap].
    set (l := (k, v) :: kv :: d) in *.
    assert (Hi : next_value l mod length l < length l)
      by (apply Nat.mod_upper_bound; discriminate).
    destruct (lookup_lt_is_Some_2 l _ Hi) as [[k' v'] Hl]. rewrite Hl.
    transitivity (((k', v') :: delete (next_value l mod length l) l).*2);
      [|symmetry; apply fmap_Permutation, (delete_Permutation l _ _ Hl)].
    cbn [fmap list_fmap snd]. constructor. apply IH.
    rewrite length_delete by (eexists; exact Hl). cbn in Hlen |- *. lia.
Qed.

Lemma values_permutation (d : list (expr * list string)) : values d ≡ₚ d.*2.
Proof. apply values_from_permutation. reflexivity. Qed.

Lemma map_each_length {A B : Type} (f : A -> result B) l ys :
  map_each f l = Ok ys -> length ys = length l.
Proof.
  revert ys. induction l as [|x l IH]; intros ys Hrun; cbn in Hrun.
  - injection Hrun as <-. reflexivity.
  - destruct (f x); cbn in Hrun; try discriminate.
    destruct (map_each f l) as [zs| |]; cbn in Hrun; try discriminate.
    injection Hrun as <-. cbn. rewrite (IH zs eq_refl). reflexivity.
Qed.

(** X8: when [get_function_name_strings] returns for a call
    [base.a1...an(args)], the dotted name [base.a1...an] of the call
    itself is among the names, and there is one name for each call
    node of the subtree.  Where it stands among them is for the
    dict to say. *)
Theorem call_name_returned base attrs args names :
  get_function_name_strings (Call (attribute_chain base attrs) args) = Ok names ->
  join dot (base :: attrs) ∈ names
  /\ length names
     = length (List.filter is_call (walk (Call (attribute_chain base attrs) args))).
Proof.
  unfold get_function_name_strings, function_names_of. rewrite walk_root.
  cbn [List.filter is_call].
  set (rest := List.filter is_call _).
  assert (Hcall : callee_chain (Call (attribute_chain base attrs) args)
                  = Ok (rev attrs ++ [base]))
    by exact (callee_chain_attributes attrs (Name base) [base] eq_refl).
  cbn [map_each]. rewrite Hcall. cbn [mbind result_bind].
  destruct (map_each _ rest) as [chains| |] eqn:Hrest; cbn [mbind result_bind];
    try discriminate.
  intros [= <-]. split.
  - apply (list_elem_of_fmap_2' _ _ (rev attrs ++ [base])).
    + rewrite values_permutation. left.
    + rewrite rev_app_distr, rev_involutive. reflexivity.
  - rewrite length_map, values_permutation, length_fmap. cbn [length].
    rewrite (map_each_length _ _ _ Hrest). reflexivity.
Qed.

(** The node at which the loop over the callee of a call ends. *)
Fixpoint callee_end (e : expr) : expr :=
  match e with
  | Call func _ => callee_end func
  | Attribute value _ | Subscript value _ => callee_end value
  | _ => e
  end.

Definition ends_chain (e : expr) : bool :=
  match e with Name _ | Str _ => true | _ => false end.

Lemma callee_chain_loops e :
  ends_chain (callee_end e) = false -> callee_chain e = Loops.
Proof.
  induction e; cbn; intros Hend; try discriminate; try reflexivity.
  - rewrite IHe by exact Hend. reflexivity.
  - apply IHe1, Hend.
  - apply IHe, Hend.
Qed.

(** X9: [get_function_name_strings] does not return on a call whose
    callee, followed through calls, attributes and subscripts, ends
    in a node that is neither a name nor a string, as in
    [(a + b).strip()] or [[].append(x)]: no branch of its loop
    applies to such a node.  So [process_block] does not return on a
    block that starts with such a call. *)
Theorem call_never_returns func args :
  ends_chain (callee_end func) = false ->
  get_function_name_strings (Call func args) = Loops
  /\ forall rest starting_vertices conds ivs g,
       process_block (Expr (Call func args) :: rest) starting_vertices conds ivs g
       = Loops.
Proof.
  intros Hend.
  assert (Hnames : get_function_name_strings (Call func args) = Loops).
  { unfold get_function_name_strings, function_names_of. rewrite walk_root.
    cbn [List.filter is_call map_each].
    change (callee_chain (Call func args)) with (callee_chain func).
    rewrite (callee_chain_loops _ Hend). reflexivity. }
  split; [exact Hnames|].
  intros rest sv conds ivs g. unfold process_block, process_block_with.
  cbn -[process_entry]. rewrite process_entry_call.
  unfold straight_line, new_edges_from.
  destruct (match sv with Some vs => vs | None => [CFG.starting_vertices g] end)
    as [|v l].
  - cbn -[get_function_name_strings]. rewrite Hnames. reflexivity.
  - cbn -[get_function_name_strings]. rewrite Hnames. reflexivity.
Qed.

(** C8: a node of a kind outside the contract does not always make
    the extraction fail: below the callee of a call, as in
    [(a + b).strip()], it makes [get_reversed_string_list] and
    [get_attr_name_string] run forever, as [get_function_name_strings]
    does, and nothing is raised.  So [process_block] does not return
    either on a block that starts with an assignment to an attribute
    of such a call. *)
Theorem unsupported_callee_never_fails func args attr omit_subscripts :
  ends_chain (callee_end func) = false ->
  get_reversed_string_list (Call func args) omit_subscripts = Loops
  /\ get_attr_name_string (Call func args) omit_subscripts = Loops
  /\ get_attr_name_string (Attribute (Call func args) attr) omit_subscripts = Loops
  /\ forall value rest starting_vertices condition input_variables g,
       process_block (Assign [Attribute (Call func args) attr] value :: rest)
         starting_vertices condition input_variables g
       = Loops.
Proof.
  intros Hend.
  assert (Hnames : get_function_name_strings (Call func args) = Loops).
  { unfold get_function_name_strings, function_names_of. rewrite walk_root.
    cbn [List.filter is_call map_each].
    change (callee_chain (Call func args)) with (callee_chain func).
    rewrite (callee_chain_loops _ Hend). reflexivity. }
  assert (Hlist : forall o, get_reversed_string_list (Call func args) o = Loops).
  { intros o. cbn -[get_function_name_strings]. rewrite Hnames. reflexivity. }
  assert (Hattr : forall o,
            get_attr_name_string (Attribute (Call func args) attr) o = Loops).
  { intros o. unfold get_attr_name_string.
    change (get_reversed_string_list (Attribute (Call func args) attr) o)
      with (r ← get_reversed_string_list (Call func args) o; cons_to attr r).
    rewrite Hlist. reflexivity. }
  split; [apply Hlist|]. split.
  { unfold get_attr_name_string. rewrite Hlist. reflexivity. }
  split; [apply Hattr|].
  intros value rest starting_vertices condition input_variables g.
  set (target := Attribute (Call func args) attr) in *.
  assert (Hedge : forall cond ivs,
            CFGEdge.__init__ cond (IStmt (Assign [target] value)) ivs = Loops).
  { intros. unfold CFGEdge.__init__, CFGEdge.operates_on_of.
    destruct value; cbn -[get_attr_name_string get_function_name_strings];
      rewrite Hattr; reflexivity. }
  assert (Hvertex : forall pl so rv,
            CFGVertex.__init__ (Some (Assign [target] value)) pl so rv = Loops).
  { intros. unfold CFGVertex.__init__, CFGVertex.name_changed_of.
    destruct value;
      cbn -[get_attr_name_string get_function_name_strings_assign];
      rewrite Hattr; reflexivity. }
  unfold process_block, process_block_with. cbn -[process_entry].
  rewrite process_entry_assign.
  unfold straight_line, new_edges_from.
  destruct (match starting_vertices with
            | Some vs => vs
            | None => [CFG.starting_vertices g]
            end) as [|v0 vs]; cbn -[CFGEdge.__init__ CFGVertex.__init__].
  - rewrite Hvertex. reflexivity.
  - rewrite Hedge. reflexivity.
Qed.



End order.

(** ** The properties at work, with a dict that keeps the order of
    insertion *)

#[local] Existing Instance insertion_order.


Lemma straight_statement_step_witness :
  exists ls' g',
    process_entry true [] (Return (Some (Name "y"))) (at_start, CFG.__init__ [])
    = Ok (ls', g')
    /\ current_vertices ls' = [1]
    /\ length (CFG.vertex_store g') = 2
    /\ CFG.vertices g' = [0; 1]
    /\ CFG.edges g' = [0]
    /\ CFG.return_statements g' = [1]
    /\ edge_is g' 0 (IStmt (Return (Some (Name "y")))) (Some 0) (Some 1).
Proof.
  destruct (process_entry true [] (Return (Some (Name "y")))
              (at_start, CFG.__init__ [])) as [[ls' g']| |] eqn:Hrun.
  - exists ls', g'. split; [reflexivity|].
    destruct (straight_statement_step true [] (Return (Some (Name "y"))) at_start
                (CFG.__init__ []) ls' g' eq_refl Hrun)
      as [Hcur [Hvs [_ [Hv [He [Hr [_ Hedges]]]]]]].
    split; [exact Hcur|]. split; [exact Hvs|]. split; [exact Hv|].
    split; [exact He|]. split; [exact Hr|]. apply (Hedges 0 0 eq_refl).
  - vm_compute in Hrun. discriminate.
  - vm_compute in Hrun. discriminate.
Defined.

Lemma loop_target_raises_witness :
  process_block
    [For (Attribute (Name "self") "item") (Name "xs") [Pass]] None [] []
    (CFG.__init__ [])
  = Exc UnboundLocalError
  /\ process_block
       [For (Tuple [Name "k"; Attribute (Name "self") "v"]) (Name "xs") [Pass]]
       None [] [] (CFG.__init__ [])
     = Exc AttributeError.
Proof.
  split; apply loop_target_raises; reflexivity.
Defined.

Lemma derive_grammar_defined_witness :
  exists final_map,
    derive_grammar calling_loop_graph = Ok final_map
    /\ grammar_get 1 final_map = Some [[SEdge 4]; [SEdge 1; SVertex 3]]
    /\ 1 ∈ CFG.vertices calling_loop_graph
    /\ rules_of calling_loop_graph 1 = Ok [[SEdge 4]; [SEdge 1; SVertex 3]].
Proof.
  destruct (derive_grammar calling_loop_graph) as [final_map| |] eqn:Hgrammar.
  - exists final_map. split; [reflexivity|].
    pose proof (derive_grammar_defined _ _ Hgrammar 1) as H.
    vm_compute in Hgrammar. injection Hgrammar as <-.
    split; [reflexivity|]. exact H.
  - vm_compute in Hgrammar. discriminate.
  - vm_compute in Hgrammar. discriminate.
Defined.

Lemma derive_grammar_rules_witness :
  exists final_map,
    derive_grammar calling_loop_graph = Ok final_map
    /\ grammar_get 1 final_map = Some [[SEdge 4]; [SEdge 1; SVertex 3]]
    /\ Forall (rule_of_edge calling_loop_graph [1; 4])
         [[SEdge 4]; [SEdge 1; SVertex 3]]
    /\ grammar_get 2 final_map = Some [[SNone]].
Proof.
  destruct (derive_grammar calling_loop_graph) as [final_map| |] eqn:Hgrammar.
  - exists final_map. split; [reflexivity|].
    pose proof (derive_grammar_rules _ _ 1 [[SEdge 4]; [SEdge 1; SVertex 3]] Hgrammar)
      as H1.
    vm_compute in Hgrammar. injection Hgrammar as <-.
    split; [reflexivity|]. split; [apply (H1 eq_refl)|]. reflexivity.
  - vm_compute in Hgrammar. discriminate.
  - vm_compute in Hgrammar. discriminate.
Defined.

Lemma dotted_name_string_witness :
  get_attr_name_string (Attribute (Attribute (Name "self") "cache") "size") false
  = Ok (Some "self.cache.size").
Proof.
  apply (dotted_name_string "self" ["cache"; "size"] false).
  repeat constructor; discriminate.
Defined.


Lemma call_never_returns_witness :
  get_function_name_strings
    (Call (Attribute (OtherExpr "BinOp" [Name "a"; Name "b"]) "strip") [])
  = Loops
  /\ process_block
       [Expr (Call (Attribute (OtherExpr "BinOp" [Name "a"; Name "b"]) "strip") [])]
       None [] [] (CFG.__init__ [])
     = Loops.
Proof.
  destruct (call_never_returns
              (Attribute (OtherExpr "BinOp" [Name "a"; Name "b"]) "strip") []
              eq_refl) as [Hnames Hblock].
  split; [exact Hnames | apply Hblock].
Defined.

(** [(a + b).strip()] *)
Definition stripped_sum : expr :=
  Call (Attribute (OtherExpr "BinOp" [Name "a"; Name "b"]) "strip") [].

Lemma unsupported_callee_never_fails_witness :
  get_reversed_string_list stripped_sum false = Loops
  /\ get_attr_name_string stripped_sum false = Loops
  /\ get_attr_name_string (Attribute stripped_sum "n") false = Loops
  /\ process_block [Assign [Attribute stripped_sum "n"] (Num 1)] None [] []
       (CFG.__init__ [])
     = Loops.
Proof.
  destruct (unsupported_callee_never_fails
              (Attribute (OtherExpr "BinOp" [Name "a"; Name "b"]) "strip") [] "n"
              false eq_refl) as (Hlist & Hcall & Hattr & Hblock).
  split; [exact Hlist|]. split; [exact Hcall|]. split; [exact Hattr|].
  apply Hblock.
Defined.

(** [os.path.join(str(x))] *)
Definition joined_path : expr :=
  Call (attribute_chain "os" ["path"; "join"]) [Call (Name "str") [Name "x"]].

Lemma call_name_returned_witness :
  get_function_name_strings joined_path = Ok ["os.path.join"; "str"]
  /\ join dot ["os"; "path"; "join"] ∈ ["os.path.join"; "str"]
  /\ length ["os.path.join"; "str"] = length (List.filter is_call (walk joined_path)).
Proof.
  split; [reflexivity|].
  apply (call_name_returned "os" ["path"; "join"] [Call (Name "str") [Name "x"]]
           ["os.path.join"; "str"]).
  reflexivity.
Defined.

(** A hash table that hands out the entry inserted last first. *)
Definition last_first : HashOrder := fun d => length d - 1.

(** The names of one and the same call, with a dict that keeps the
    order of insertion and with one that does not. *)
Example names_follow_the_dict :
  get_function_name_strings (order := insertion_order) joined_path
  = Ok ["os.path.join"; "str"]
  /\ get_function_name_strings (order := last_first) joined_path
     = Ok ["str"; "os.path.join"].
Proof. split; reflexivity. Qed.

End graph_facts.

(** * More on the event consumer *)

Module thread_facts.

Import init_verification consumer_properties.

Section thread.

Context `{FormulaModule}.
Variable TEST_FRAMEWORK : string.
Variable verdict_server : post -> result answer.

#[local] Abbreviation step := (step TEST_FRAMEWORK verdict_server).
#[local] Abbreviation consumption_thread_function :=
  (consumption_thread_function TEST_FRAMEWORK verdict_server).

(** ** The end of the loop *)

Lemma stopped_thread queue (c : consumer) :
  continue_monitoring c = false -> consumption_thread_function queue c = ([], Ok c).
Proof. intros Hc. destruct queue; cbn; rewrite Hc; reflexivity. Qed.

(** X10: what is in the queue behind an [end-monitoring] event is
    never consumed: the thread does with the queue what it does with
    the queue cut after the first [end-monitoring]. *)
Theorem events_after_end_monitoring (before after : list event) (c : consumer) :
  consumption_thread_function (before ++ EndMonitoring :: after) c
  = consumption_thread_function (before ++ [EndMonitoring]) c.
Proof.
  revert c. induction before as [|ev before IH]; intros c.
  - cbn. destruct (continue_monitoring c); [|reflexivity].
    cbn. rewrite stopped_thread by reflexivity. reflexivity.
  - cbn -[init_verification.step]. destruct (continue_monitoring c); [|reflexivity].
    destruct (step c ev) as [l [c'| |]]; cbn -[init_verification.step];
      [rewrite IH|..]; reflexivity.
Qed.

(** ** Pause and resume *)

Lemma paused_step (c : consumer) (ev : event) :
  INACTIVE_MONITORING c = true ->
  ev <> EndMonitoring -> ev <> InactiveMonitoringStop ->
  step c ev = ([], Ok c).
Proof.
  intros Hc Hend Hstop. unfold init_verification.step. rewrite Hc.
  destruct ev; try reflexivity; congruence.
Qed.

Lemma paused_events (events queue : list event) (c : consumer) :
  INACTIVE_MONITORING c = true ->
  continue_monitoring c = true ->
  Forall (fun ev => ev <> EndMonitoring /\ ev <> InactiveMonitoringStop) events ->
  consumption_thread_function (events ++ queue) c
  = consumption_thread_function queue c.
Proof.
  intros Hc Hcont Hall. induction Hall as [|ev events [Hend Hstop] _ IH];
    [reflexivity|].
  cbn -[init_verification.step]. rewrite Hcont, (paused_step c ev Hc Hend Hstop).
  cbn -[init_verification.step]. rewrite IH.
  destruct (consumption_thread_function queue c). reflexivity.
Qed.

(** X11: between [inactive-monitoring-start] and
    [inactive-monitoring-stop] nothing is monitored: when the thread
    runs and the events in between hold neither [end-monitoring] nor
    [inactive-monitoring-stop], the thread goes on after the stop
    event exactly as if none of these events had been in the queue:
    in the same state and with nothing sent. *)
Theorem pause_then_resume (events queue : list event) (c : consumer) :
  running c ->
  Forall (fun ev => ev <> EndMonitoring /\ ev <> InactiveMonitoringStop) events ->
  consumption_thread_function
    (InactiveMonitoringStart :: events ++ InactiveMonitoringStop :: queue) c
  = consumption_thread_function queue c.
Proof.
  intros [Hactive Hcont] Hall.
  set (paused := set_control true (transaction c) (continue_monitoring c) c).
  assert (Hstart : step c InactiveMonitoringStart = ([], Ok paused)).
  { unfold init_verification.step. rewrite Hactive. reflexivity. }
  assert (Hstop : step paused InactiveMonitoringStop = ([], Ok c)).
  { destruct c. cbn in *. subst. reflexivity. }
  assert (Hgo : forall ev q c1 c2, continue_monitoring c1 = true ->
            step c1 ev = ([], Ok c2) ->
            consumption_thread_function (ev :: q) c1
            = consumption_thread_function q c2).
  { intros ev q c1 c2 H1 H2.
    cbn -[init_verification.step] in *. rewrite H1, H2.
    cbn -[init_verification.step].
    destruct (init_verification.consumption_thread_function _ _ q c2).
    reflexivity. }
  rewrite (Hgo _ _ c paused Hcont Hstart).
  rewrite paused_events by (auto; exact Hcont).
  rewrite (Hgo _ _ paused c Hcont Hstop).
  reflexivity.
Qed.

(** ** Events the thread cannot take *)

Lemma run_raises (c : consumer) (ev : event) (queue : list event) e :
  continue_monitoring c = true ->
  step c ev = ([], Exc e) ->
  consumption_thread_function (ev :: queue) c = ([], Exc e).
Proof.
  intros Hcont Hstep. cbn -[init_verification.step]. rewrite Hcont, Hstep.
  reflexivity.
Qed.

(** X12: [resume_monitoring] without a pause before it ends the
    thread: a running thread that takes [inactive-monitoring-stop]
    raises [IndexError] on the one-element tuple, and nothing is
    sent. *)
Theorem resume_without_pause_raises (queue : list event) (c : consumer) :
  running c ->
  consumption_thread_function (InactiveMonitoringStop :: queue) c
  = ([], Exc IndexError).
Proof.
  intros [Hactive Hcont]. apply run_raises; [exact Hcont|].
  unfold init_verification.step. rewrite Hactive. reflexivity.
Qed.

(** The property and the function an event of the second kind names:
    its first and its third element. *)
Definition property_of (top_pair : event) : option (string * string) :=
  match top_pair with
  | Trigger property_hash function_name _ _
  | Path property_hash function_name _
  | Instrument property_hash function_name _ _ _ _ _ _ _ _ _
  | TestStatus property_hash function_name _ _ _ _ _
  | Other property_hash _ function_name => Some (property_hash, function_name)
  | _ => None
  end.

Lemma get_maps_raises fn h (c : consumer) :
  (forall m, get_maps fn h c <> Ok m) -> get_maps fn h c = Exc KeyError.
Proof.
  unfold get_maps, dict_getitem. intros Hno.
  destruct (dict_get fn (function_to_maps c)) as [groups|]; [|reflexivity].
  cbn in *. destruct (dict_get h groups) as [m|]; [|reflexivity].
  destruct (Hno m). reflexivity.
Qed.

(** X13: an event for a property that [function_to_maps] does not
    hold for the function it names ends a running thread with
    [KeyError], whatever its instrument type, and nothing is sent. *)
Theorem unregistered_property_raises
    (top_pair : event) (h fn : string) (queue : list event) (c : consumer) :
  running c ->
  property_of top_pair = Some (h, fn) ->
  (forall m, get_maps fn h c <> Ok m) ->
  consumption_thread_function (top_pair :: queue) c = ([], Exc KeyError).
Proof.
  intros [Hactive Hcont] Hev Hno. apply run_raises; [exact Hcont|].
  apply get_maps_raises in Hno.
  unfold init_verification.step. rewrite Hactive.
  destruct top_pair; try discriminate Hev; injection Hev as -> ->;
    unfold property_event, bind_maps; rewrite Hno; reflexivity.
Qed.

(** X14: outside test mode no call is ever reported: a function event
    with scope ["end"] ends a running thread with an exception before
    anything is sent, and with [AttributeError] when the function has
    a property, as the record is stamped with the scope of the
    event. *)
Theorem function_end_outside_test_mode
    (property_hash_list : list string) (function_name : string) (timestamp : value)
    (queue : list event) (c : consumer) :
  substring_in "yes" TEST_FRAMEWORK = false ->
  running c ->
  (exists e,
     consumption_thread_function
       (Function property_hash_list function_name "end" timestamp :: queue) c
     = ([], Exc e))
  /\ (forall k m groups,
        dict_get function_name (function_to_maps c) = Some ((k, m) :: groups) ->
        consumption_thread_function
          (Function property_hash_list function_name "end" timestamp :: queue) c
        = ([], Exc AttributeError)).
Proof.
  intros Hmode [Hactive Hcont].
  assert (Hstep : step c (Function property_hash_list function_name "end" timestamp)
                  = function_end TEST_FRAMEWORK verdict_server property_hash_list
                      function_name (VStr "end") timestamp c).
  { unfold init_verification.step. rewrite Hactive. reflexivity. }
  split.
  - destruct (function_end_raises TEST_FRAMEWORK verdict_server
                property_hash_list function_name timestamp c Hmode) as [e He].
    exists e. apply run_raises; [exact Hcont|]. rewrite Hstep. exact He.
  - intros k m groups Hget. apply run_raises; [exact Hcont|]. rewrite Hstep.
    unfold function_end, dict_getitem. rewrite Hmode, Hget. cbn.
    destruct (decide (k = k)); [|congruence]. reflexivity.
Qed.

(** ** What the loop never does *)

Lemma io_for_each_invariant {A S : Type} (P : S -> Prop) (f : S -> A -> io S) :
  (forall s x out s', P s -> f s x = (out, Ok s') -> P s') ->
  forall l s out s', P s -> io_for_each f l s = (out, Ok s') -> P s'.
Proof.
  intros Hf l. induction l as [|x l IH]; cbn; intros s out s' Hs Hrun.
  - injection Hrun as _ <-. exact Hs.
  - destruct (f s x) as [out1 [s1| |]] eqn:Hx; cbn in Hrun; try discriminate.
    destruct (io_for_each f l s1) as [out2 r] eqn:Hl.
    injection Hrun as _ ->. eapply IH; [eapply Hf; eassumption | exact Hl].
Qed.

Lemma running_register_verdicts_of monitors (st : VerdictReport * consumer) :
  running (snd st) -> running (snd (register_verdicts_of monitors st)).
Proof.
  unfold register_verdicts_of. revert st.
  induction monitors as [|[qd l] monitors IH]; intros st Hst; [exact Hst|].
  cbn [foldl]. apply IH. clear IH. revert st Hst.
  induction l as [|m l IH]; intros st Hst; [exact Hst|].
  cbn [foldl]. apply IH. destruct st as [report c].
  destruct (collapsing_atom_index m); exact Hst.
Qed.

Lemma io_bind_ok {A B : Type} (m : io A) (f : A -> io B) out b :
  m ≫= f = (out, Ok b) ->
  exists out1 a out2, m = (out1, Ok a) /\ f a = (out2, Ok b).
Proof.
  destruct m as [out1 [a| |]]; cbn; try discriminate.
  destruct (f a) as [out2 r] eqn:Hf. intros [= _ ->].
  eexists _, _, _. split; [reflexivity | exact Hf].
Qed.

Lemma running_function_end phl fn scope ts c out c' :
  function_end TEST_FRAMEWORK verdict_server phl fn scope ts c = (out, Ok c') ->
  running c -> running c'.
Proof.
  unfold function_end. intros Hrun Hc.
  apply io_bind_ok in Hrun as (_ & groups & ? & _ & Hrun).
  apply io_bind_ok in Hrun as (_ & k & ? & _ & Hrun).
  apply io_bind_ok in Hrun as (_ & first & ? & _ & Hrun).
  apply io_bind_ok in Hrun as (_ & insertion_data & ? & _ & Hrun).
  revert Hrun. apply io_for_each_invariant; [|exact Hc].
  clear. intros s h out s' Hs Hstep.
  apply io_bind_ok in Hstep as (? & [m s1] & ? & Hb & Hstep).
  injection Hb as _ Hb.
  pose proof (running_register_verdicts_of (static_qd_to_monitors m)
                (verdict_report m, s1)) as Hreg.
  destruct (register_verdicts_of _ _) as [report s2].
  apply io_bind_ok in Hstep as (_ & function_id & ? & _ & Hstep).
  apply io_bind_ok in Hstep as (_ & function_call_id & ? & _ & Hstep).
  apply io_bind_ok in Hstep as (_ & _ & ? & _ & Hstep).
  injection Hstep as _ <-.
  apply running_put_maps. apply Hreg. cbn.
  eapply running_bind_maps; eassumption.
Qed.

Lemma step_goes_on (c : consumer) (ev : event) out c' :
  ev <> EndMonitoring ->
  continue_monitoring c = true ->
  step c ev = (out, Ok c') ->
  continue_monitoring c' = true.
Proof.
  intros Hev Hcont. unfold init_verification.step.
  destruct (INACTIVE_MONITORING c) eqn:Hactive.
  - destruct ev; try congruence; intros [= _ <-]; exact Hcont.
  - assert (Hc : running c) by (split; assumption).
    destruct ev as [ | | | tx | phl fn scope ts | ph fn qd k | ph fn label
       | ph fn qds ai si ids t1 t2 v th sd | ph fn fl er t1 t2 name | ph ty fn ];
      try congruence.
    + intros [= _ <-]. exact Hcont.
    + discriminate.
    + intros [= _ <-]. exact Hcont.
    + destruct (bool_decide (scope = "end")).
      { intros Hrun. eapply running_function_end; eassumption. }
      destruct (bool_decide (scope = "start")); [|intros [= _ <-]; exact Hcont].
      unfold lift. intros [= _ Hrun]. eapply running_function_start; eassumption.
    + intros Hrun.
      destruct (step_within_call TEST_FRAMEWORK verdict_server c
                  (Trigger ph fn qd k) eq_refl Hc) as [[c1 [Hs Hc1]]|[e Hs]];
        unfold init_verification.step in Hs; rewrite Hactive in Hs;
        rewrite Hs in Hrun; [|discriminate].
      injection Hrun as _ <-. apply Hc1.
    + intros Hrun.
      destruct (step_within_call TEST_FRAMEWORK verdict_server c
                  (Path ph fn label) eq_refl Hc) as [[c1 [Hs Hc1]]|[e Hs]];
        unfold init_verification.step in Hs; rewrite Hactive in Hs;
        rewrite Hs in Hrun; [|discriminate].
      injection Hrun as _ <-. apply Hc1.
    + intros Hrun.
      destruct (step_within_call TEST_FRAMEWORK verdict_server c
                  (Instrument ph fn qds ai si ids t1 t2 v th sd) eq_refl Hc)
        as [[c1 [Hs Hc1]]|[e Hs]];
        unfold init_verification.step in Hs; rewrite Hactive in Hs;
        rewrite Hs in Hrun; [|discriminate].
      injection Hrun as _ <-. apply Hc1.
    + unfold property_event. intros Hrun.
      apply io_bind_ok in Hrun as (? & [m c1] & ? & Hb & Hrun).
      injection Hb as _ Hb.
      apply io_bind_ok in Hrun as (? & ? & ? & _ & Hrun).
      injection Hrun as _ <-. eapply running_bind_maps; eassumption.
    + unfold property_event. intros Hrun.
      apply io_bind_ok in Hrun as (? & [m c1] & ? & Hb & Hrun).
      injection Hb as _ Hb.
      injection Hrun as _ <-. eapply running_bind_maps; eassumption.
Qed.

(** X15: the loop ends on [end-monitoring] or on an exception, and on
    nothing else: when no event of the queue is [end-monitoring] and
    the thread took them all without raising, it goes on waiting for
    events. *)
Theorem loop_ends_only_on_end_monitoring
    (queue : list event) (c : consumer) out c' :
  continue_monitoring c = true ->
  EndMonitoring ∉ queue ->
  consumption_thread_function queue c = (out, Ok c') ->
  continue_monitoring c' = true.
Proof.
  revert c out. induction queue as [|ev queue IH]; intros c out Hcont Hno Hrun.
  - cbn in Hrun. rewrite Hcont in Hrun. injection Hrun as _ <-. exact Hcont.
  - cbn -[init_verification.step] in Hrun. rewrite Hcont in Hrun.
    destruct (step c ev) as [out1 [c1| |]] eqn:Hstep;
      cbn -[init_verification.step] in Hrun; try discriminate.
    destruct (consumption_thread_function queue c1) as [out2 r] eqn:Hrest.
    injection Hrun as _ ->.
    apply (IH c1 out2); [|intros Hin; apply Hno; right; exact Hin|exact Hrest].
    eapply step_goes_on; [|exact Hcont|exact Hstep].
    intros ->. apply Hno. left.
Qed.

(** The events whose handlers post to the verdict server: the end of
    a call and the status of a test. *)
Definition sends (top_pair : event) : bool :=
  match top_pair with
  | Function _ _ scope_event _ => bool_decide (scope_event = "end")
  | TestStatus _ _ _ _ _ _ _ => true
  | _ => false
  end.

Lemma step_silent (c : consumer) (ev : event) :
  sends ev = false -> fst (step c ev) = [].
Proof.
  intros Hev. unfold init_verification.step.
  destruct ev; try discriminate Hev; try reflexivity;
    destruct (INACTIVE_MONITORING c); try reflexivity.
  - cbn in Hev. rewrite Hev. destruct (bool_decide (_ = "start")); reflexivity.
  - unfold property_event. destruct (bind_maps _ _ c) as [[m c1]| |]; reflexivity.
  - unfold property_event. destruct (bind_maps _ _ c) as [[m c1]| |]; reflexivity.
  - unfold property_event. destruct (bind_maps _ _ c) as [[m c1]| |]; reflexivity.
  - unfold property_event. destruct (bind_maps _ _ c) as [[m c1]| |]; reflexivity.
Qed.

(** X16: the verdict server hears of nothing but ended calls and test
    results: a queue without a function event of scope ["end"] and
    without a test status makes the thread send nothing, in whatever
    state it is and whether or not it raises. *)
Theorem requests_only_on_end_or_test_status (queue : list event) (c : consumer) :
  Forall (fun top_pair => sends top_pair = false) queue ->
  fst (consumption_thread_function queue c) = [].
Proof.
  intros Hq. revert c. induction Hq as [|ev queue Hev _ IH]; intros c.
  - cbn. destruct (continue_monitoring c); reflexivity.
  - cbn -[init_verification.step]. destruct (continue_monitoring c); [|reflexivity].
    pose proof (step_silent c ev Hev) as Hstep.
    destruct (step c ev) as [out1 [c1| |]]; cbn -[init_verification.step] in *;
      try exact Hstep.
    specialize (IH c1).
    destruct (consumption_thread_function queue c1) as [out2 r].
    cbn in *. subst. reflexivity.
Qed.

(** ** Program paths *)

Lemma path_step h fn label (c : consumer) m :
  running c ->
  get_maps fn h c = Ok m ->
  exists c',
    step c (Path h fn label) = ([], Ok c')
    /\ get_maps fn h c'
       = Ok (mk_maps (formula_structure m) (static_qd_to_monitors m)
               (verdict_report m) (latest_time_of_call m)
               (program_path m ++ [label]))
    /\ (forall fn' h', (fn', h') <> (fn, h) ->
          get_maps fn' h' c' = get_maps fn' h' c)
    /\ running c'.
Proof.
  intros [Hactive Hcont] Hm. unfold init_verification.step. rewrite Hactive.
  unfold property_event, bind_maps. rewrite Hm. cbn.
  eexists. split; [reflexivity|]. split; [|split].
  - apply lookup_write_eq.
  - intros fn' h' Hne. apply lookup_write_ne. congruence.
  - split; assumption.
Qed.

(** X17: path events are recorded in the order in which they are
    taken: after the path events of one registered property the
    thread goes on with the labels appended, in order, to the program
    path of that property; its other fields and the maps of every
    other property are as before, and nothing was sent. *)
Theorem paths_are_recorded_in_order
    (h fn : string) (labels : list nat) (queue : list event) (c : consumer) m :
  running c ->
  get_maps fn h c = Ok m ->
  exists c',
    consumption_thread_function (map (Path h fn) labels ++ queue) c
    = consumption_thread_function queue c'
    /\ get_maps fn h c'
       = Ok (mk_maps (formula_structure m) (static_qd_to_monitors m)
               (verdict_report m) (latest_time_of_call m)
               (program_path m ++ labels))
    /\ (forall fn' h', (fn', h') <> (fn, h) ->
          get_maps fn' h' c' = get_maps fn' h' c)
    /\ running c'.
Proof.
  revert c m. induction labels as [|label labels IH]; intros c m Hc Hm.
  - exists c. split; [reflexivity|]. split; [|split; [reflexivity | exact Hc]].
    rewrite app_nil_r, Hm. destruct m; reflexivity.
  - destruct (path_step h fn label c m Hc Hm) as (c1 & Hstep & Hm1 & Hothers1 & Hc1).
    destruct (IH c1 _ Hc1 Hm1) as (c' & Hrun & Hm' & Hothers & Hc').
    exists c'. split; [|split; [|split]].
    + cbn [map app]. rewrite <- Hrun.
      eapply run_step; [exact Hc | exact Hstep].
    + rewrite Hm'. cbn. rewrite <- app_assoc. reflexivity.
    + intros fn' h' Hne. rewrite Hothers, Hothers1 by exact Hne. reflexivity.
    + exact Hc'.
Qed.

(** ** Triggers *)

(** What a trigger for bind variable [k] does to a monitor of the
    bucket: one that has timestamps for the bind variables before
    [k] only gets one more, any other is left as it is. *)
Definition advanced (k : nat) (m m' : monitor atom) : Prop :=
  if Nat.eqb (length (_monitor_instantiation_time m)) k then
    exists t,
      m' = set_instantiation_time (_monitor_instantiation_time m ++ [t]) m
  else m' = m.

(** The monitors of the bucket that have a timestamp for bind
    variable [k], by their timestamps before it. *)
Definition prefix_of (k : nat) (monitors : list (monitor atom)) (p : list nat)
  : Prop :=
  exists m, m ∈ monitors
            /\ length (_monitor_instantiation_time m) = k + 1
            /\ p = take k (_monitor_instantiation_time m).

Lemma trigger_monitor_spec fs k st m st' :
  trigger_monitor fs k st m = Ok st' ->
  NoDup (subsequences_processed st) ->
  length (new_monitors st) = length (subsequences_processed st) ->
  exists m' clones added,
    bucket st' = bucket st ++ [m'] /\ advanced k m m'
    /\ new_monitors st' = new_monitors st ++ clones
    /\ subsequences_processed st' = subsequences_processed st ++ added
    /\ length clones = length added
    /\ NoDup (subsequences_processed st')
    /\ (forall p, p ∈ added ->
          length (_monitor_instantiation_time m) = k + 1
          /\ p = take k (_monitor_instantiation_time m))
    /\ (length (_monitor_instantiation_time m) = k + 1 ->
        take k (_monitor_instantiation_time m) ∈ subsequences_processed st').
Proof.
  unfold trigger_monitor, advanced. intros Hrun Hnodup Hlen.
  assert (Hnone : forall p : list nat, p ∈ [] ->
            length (_monitor_instantiation_time m) = k + 1
            /\ p = take k (_monitor_instantiation_time m))
    by (intros p Hp; inversion Hp).
  destruct (Nat.eqb _ (k + 1)) eqn:Hk1.
  - apply Nat.eqb_eq in Hk1.
    assert (Hk : Nat.eqb (length (_monitor_instantiation_time m)) k = false)
      by (apply Nat.eqb_neq; lia).
    rewrite Hk. destruct (bool_decide _) eqn:Hseen.
    + apply bool_decide_eq_true in Hseen. injection Hrun as <-. cbn.
      exists m, [], []. rewrite !app_nil_r.
      split; [reflexivity|]. split; [reflexivity|]. split; [reflexivity|].
      split; [reflexivity|]. split; [reflexivity|]. split; [exact Hnodup|].
      split; [exact Hnone|]. intros _. exact Hseen.
    + apply bool_decide_eq_false in Hseen. cbn in Hrun.
      destruct (for_each _ _ _) as [clone| |]; cbn in Hrun; try discriminate.
      injection Hrun as <-. cbn.
      exists m, [clone], [take k (_monitor_instantiation_time m)].
      split; [reflexivity|]. split; [reflexivity|]. split; [reflexivity|].
      split; [reflexivity|]. split; [reflexivity|]. split; [|split].
      * apply NoDup_app. split; [exact Hnodup|]. split; [|apply NoDup_singleton].
        intros p Hp Hp'. apply list_elem_of_singleton in Hp'. congruence.
      * intros p Hp. apply list_elem_of_singleton in Hp. split; assumption.
      * intros _. apply elem_of_app. right. apply list_elem_of_singleton.
        reflexivity.
  - apply Nat.eqb_neq in Hk1.
    destruct (Nat.eqb _ k) eqn:Hk.
    + injection Hrun as <-. cbn. eexists _, [], []. rewrite !app_nil_r.
      split; [reflexivity|]. split; [eexists; reflexivity|].
      split; [reflexivity|]. split; [reflexivity|]. split; [reflexivity|].
      split; [exact Hnodup|]. split; [exact Hnone|]. intros Hk'. contradiction.
    + injection Hrun as <-. cbn. exists m, [], []. rewrite !app_nil_r.
      split; [reflexivity|]. split; [reflexivity|]. split; [reflexivity|].
      split; [reflexivity|]. split; [reflexivity|]. split; [exact Hnodup|].
      split; [exact Hnone|]. intros Hk'. contradiction.
Qed.

Lemma trigger_loop_spec fs k monitors st st' :
  for_each (trigger_monitor fs k) monitors st = Ok st' ->
  NoDup (subsequences_processed st) ->
  length (new_monitors st) = length (subsequences_processed st) ->
  exists kept clones added,
    bucket st' = bucket st ++ kept /\ Forall2 (advanced k) monitors kept
    /\ new_monitors st' = new_monitors st ++ clones
    /\ subsequences_processed st' = subsequences_processed st ++ added
    /\ length clones = length added
    /\ NoDup (subsequences_processed st')
    /\ (forall p, p ∈ added -> prefix_of k monitors p)
    /\ (forall p, prefix_of k monitors p -> p ∈ subsequences_processed st').
Proof.
  revert st. induction monitors as [|m monitors IH]; intros st Hrun Hnodup Hlen.
  - injection Hrun as <-. exists [], [], []. rewrite !app_nil_r.
    repeat split; auto.
    + intros p Hp. inversion Hp.
    + intros p (m & Hm & _). inversion Hm.
  - cbn in Hrun.
    destruct (trigger_monitor fs k st m) as [st1| |] eqn:Hm; cbn in Hrun;
      try discriminate.
    destruct (trigger_monitor_spec _ _ _ _ _ Hm Hnodup Hlen)
      as (m' & clones1 & added1 & Hb1 & Hadv & Hn1 & Hs1 & Hl1 & Hnd1 & Hin1 & Hout1).
    assert (Hlen1 : length (new_monitors st1) = length (subsequences_processed st1))
      by (rewrite Hn1, Hs1, !length_app; lia).
    destruct (IH st1 Hrun Hnd1 Hlen1)
      as (kept & clones & added & Hb & Hall & Hn & Hs & Hl & Hnd & Hin & Hout).
    exists (m' :: kept), (clones1 ++ clones), (added1 ++ added).
    split; [rewrite Hb, Hb1, <- app_assoc; reflexivity|].
    split; [constructor; assumption|].
    split; [rewrite Hn, Hn1, <- app_assoc; reflexivity|].
    split; [rewrite Hs, Hs1, <- app_assoc; reflexivity|].
    split; [rewrite !length_app; lia|].
    split; [exact Hnd|]. split.
    + intros p Hp. apply elem_of_app in Hp as [Hp|Hp].
      * destruct (Hin1 p Hp) as [Hk ->]. exists m. split; [left|split; auto].
      * destruct (Hin p Hp) as (m0 & Hm0 & Hk). exists m0. split; [right|]; auto.
    + intros p (m0 & Hm0 & Hk & ->). apply elem_of_cons in Hm0 as [->|Hm0].
      * rewrite Hs. apply elem_of_app. left. apply Hout1, Hk.
      * apply Hout. exists m0. auto.
Qed.

(** X18: a trigger for a bind variable after the first keeps every
    monitor of its bucket, in order: a monitor is either left as it is
    or, when it has timestamps for the earlier bind variables only,
    gets the time of the trigger as one more.  Behind them it puts one
    clone for each different sequence of earlier timestamps found on
    the monitors that have a timestamp for this bind variable. *)
Theorem trigger_keeps_monitors
    (h fn : string) (static_qd_index bind_variable_index : nat)
    (c : consumer) m (monitors : list (monitor atom)) out c' :
  running c ->
  get_maps fn h c = Ok m ->
  dict_get static_qd_index (static_qd_to_monitors m) = Some monitors ->
  bind_variable_index <> 0 ->
  step c (Trigger h fn static_qd_index bind_variable_index) = (out, Ok c') ->
  exists kept clones prefixes,
    get_maps fn h c'
    = Ok (with_monitors
            (dict_set static_qd_index (kept ++ clones) (static_qd_to_monitors m)) m)
    /\ Forall2 (advanced bind_variable_index) monitors kept
    /\ length clones = length prefixes
    /\ NoDup prefixes
    /\ (forall p, p ∈ prefixes <-> prefix_of bind_variable_index monitors p).
Proof.
  intros [Hactive Hcont] Hm Hbucket Hk. unfold init_verification.step.
  rewrite Hactive. unfold property_event, bind_maps. rewrite Hm. cbn.
  unfold trigger, dict_getitem.
  apply Nat.eqb_neq in Hk. rewrite Hk, Hbucket. cbn.
  destruct (for_each _ monitors _) as [st| |] eqn:Hloop; cbn; try discriminate.
  intros [= _ <-].
  destruct (trigger_loop_spec _ _ _ _ _ Hloop (NoDup_nil_2 (A := list nat)) eq_refl)
    as (kept & clones & added & Hb & Hall & Hn & Hs & Hl & Hnd & Hin & Hout).
  cbn in Hb, Hn, Hs. subst kept clones added.
  exists (bucket st), (new_monitors st), (subsequences_processed st).
  split; [apply lookup_write_eq|]. split; [exact Hall|]. split; [exact Hl|].
  split; [exact Hnd|]. intros p. split; [apply Hin | apply Hout].
Qed.

End thread.

(** ** The properties at work *)

Import sample.

(** A thread that just started, with the two properties of [m.f]. *)
Definition fresh : consumer := start (sample_maps f1).

Lemma pause_then_resume_witness :
  consumption_thread_function "yes" sample_server
    (InactiveMonitoringStart
       :: [Path "h1" "m.f" 1; Trigger "h1" "m.f" 0 0]
       ++ InactiveMonitoringStop :: [Path "h1" "m.f" 2]) fresh
  = consumption_thread_function "yes" sample_server
      [Path "h1" "m.f" 2] fresh.
Proof.
  apply (pause_then_resume "yes" sample_server
           [Path "h1" "m.f" 1; Trigger "h1" "m.f" 0 0] [Path "h1" "m.f" 2] fresh).
  - split; reflexivity.
  - repeat constructor; discriminate.
Defined.

Lemma resume_without_pause_raises_witness :
  consumption_thread_function "yes" sample_server
    [InactiveMonitoringStop; Path "h1" "m.f" 1] fresh
  = ([], Exc IndexError).
Proof.
  apply (resume_without_pause_raises "yes" sample_server
           [Path "h1" "m.f" 1] fresh).
  split; reflexivity.
Defined.

Lemma unregistered_property_raises_witness :
  consumption_thread_function "yes" sample_server
    [Path "h3" "m.f" 1; Path "h1" "m.f" 2] fresh
  = ([], Exc KeyError).
Proof.
  apply (unregistered_property_raises "yes" sample_server
           (Path "h3" "m.f" 1) "h3" "m.f" [Path "h1" "m.f" 2] fresh).
  - split; reflexivity.
  - reflexivity.
  - intros m. discriminate.
Defined.

Lemma function_end_outside_test_mode_witness :
  consumption_thread_function "no" sample_server
    [Function ["h1"] "m.f" "end" (t 3); Path "h1" "m.f" 2] in_test
  = ([], Exc AttributeError).
Proof.
  apply (function_end_outside_test_mode "no" sample_server
           ["h1"] "m.f" (t 3) [Path "h1" "m.f" 2] in_test eq_refl
           (conj eq_refl eq_refl))
    with (k := "h1") (m := mk_maps (H := sample_module) f1 [] [] VNone [])
         (groups := [("h2", mk_maps (H := sample_module) f1 [] [] VNone [])]).
  reflexivity.
Defined.

(** A call up to its end, with a pause in it. *)
Definition open_call : list event :=
  [Function ["h1"] "m.f" "start" (t 0); Trigger "h1" "m.f" 0 0;
   InactiveMonitoringStart; observation; InactiveMonitoringStop; Path "h1" "m.f" 1].

Lemma loop_ends_only_on_end_monitoring_witness :
  exists out c',
    consumption_thread_function "yes" sample_server open_call fresh
    = (out, Ok c')
    /\ continue_monitoring c' = true.
Proof.
  destruct (consumption_thread_function "yes" sample_server open_call fresh)
    as [out [c'| |]] eqn:Hrun.
  - exists out, c'. split; [reflexivity|].
    apply (loop_ends_only_on_end_monitoring "yes" sample_server
             open_call fresh out c'); [reflexivity | | exact Hrun].
    intros Hin. unfold open_call in Hin.
    repeat (apply elem_of_cons in Hin as [Hin|Hin]; [discriminate|]).
    inversion Hin.
  - vm_compute in Hrun. discriminate.
  - vm_compute in Hrun. discriminate.
Defined.

Lemma requests_only_on_end_or_test_status_witness :
  fst (consumption_thread_function "yes" sample_server open_call fresh)
  = [].
Proof.
  apply (requests_only_on_end_or_test_status "yes" sample_server
           open_call fresh).
  repeat constructor.
Defined.

Lemma paths_are_recorded_in_order_witness :
  exists c',
    consumption_thread_function "yes" sample_server
      (map (Path "h1" "m.f") [1; 2; 3] ++ [EndMonitoring]) after_a_call
    = consumption_thread_function "yes" sample_server [EndMonitoring] c'
    /\ get_maps "m.f" "h1" c' = Ok (mk_maps f1 [] [] VNone ([1] ++ [1; 2; 3]))
    /\ (forall fn' h', (fn', h') <> ("m.f", "h1") ->
          get_maps fn' h' c' = get_maps fn' h' after_a_call)
    /\ running c'.
Proof.
  apply (paths_are_recorded_in_order "yes" sample_server
           "h1" "m.f" [1; 2; 3] [EndMonitoring] after_a_call
           (mk_maps (H := sample_module) f1 [] [] VNone [1])).
  - split; reflexivity.
  - reflexivity.
Defined.

(** A formula whose atoms are negations, and a bucket of three of its
    monitors: one waits for the second bind variable, two have it,
    after the same first timestamp. *)
Definition f2 : sample_formula := ([Neg (On 0)], [0; 1]).

Definition bucket_of_three : list (monitor sample_atom) :=
  [set_instantiation_time [5] (sample_new_monitor f2);
   set_instantiation_time [5; 7] (sample_new_monitor f2);
   set_instantiation_time [5; 9] (sample_new_monitor f2)].

Definition in_bucket : PropertyMapGroup :=
  mk_maps (H := sample_module) f2 [(0, bucket_of_three)] [] VNone [].

Definition triggered : consumer :=
  mk_consumer false (VInt (-1)) true None None [("m.f", [("h1", in_bucket)])] 20.

Lemma trigger_keeps_monitors_witness :
  exists kept clones prefixes,
    (exists out c',
       step "yes" sample_server triggered (Trigger "h1" "m.f" 0 1)
       = (out, Ok c')
       /\ get_maps "m.f" "h1" c'
          = Ok (with_monitors
                  (dict_set 0 (kept ++ clones) (static_qd_to_monitors in_bucket))
                  in_bucket))
    /\ Forall2 (advanced 1) bucket_of_three kept
    /\ length clones = length prefixes
    /\ NoDup prefixes
    /\ (forall p, p ∈ prefixes <-> prefix_of 1 bucket_of_three p).
Proof.
  destruct (step "yes" sample_server triggered (Trigger "h1" "m.f" 0 1))
    as [out [c'| |]] eqn:Hrun.
  - destruct (trigger_keeps_monitors "yes" sample_server
                "h1" "m.f" 0 1 triggered in_bucket bucket_of_three out c'
                (conj eq_refl eq_refl) eq_refl eq_refl (Nat.neq_succ_0 0) Hrun)
      as (kept & clones & prefixes & Hm & Hrest).
    exists kept, clones, prefixes. split; [|exact Hrest].
    exists out, c'. split; [reflexivity | exact Hm].
  - vm_compute in Hrun. discriminate.
  - vm_compute in Hrun. discriminate.
Defined.

Lemma startup_in_test_mode_witness :
  (Verification_init [("test", JString "yes"); ("test_module", JString "tests")]
   = Exc SystemExit
   <-> get_or "test_module" (JString "")
         [("test", JString "yes"); ("test_module", JString "tests")]
       = JString "")
  /\ (Verification_init [("test", JString "yes"); ("test_module", JString "tests")]
      <> Exc SystemExit
      -> exists s,
           Verification_init
             [("test", JString "yes"); ("test_module", JString "tests")]
           = Ok s).
Proof.
  apply (startup_in_test_mode
           [("test", JString "yes"); ("test_module", JString "tests")]).
  reflexivity.
Defined.

End thread_facts.

(** * The search for calls *)

Module search_facts.

Import construction.

Section search.

Context {order : HashOrder}.
Variable g : CFG.t.

(** An edge of the store that models a call of [function]. *)
Definition call_edge (function : string) (edge : edge_ref) : Prop :=
  exists e,
    CFG.edge_store g !! edge = Some e
    /\ models_call function (CFGEdge._instruction e) = Ok true.

(** The lists are only added to: by call edges and by vertices that were not
    marked. *)
Definition extended (function : string) (st st' : search) : Prop :=
  exists new_calls new_marked,
    calls st' = calls st ++ new_calls
    /\ marked_vertices st' = marked_vertices st ++ new_marked
    /\ Forall (call_edge function) new_calls
    /\ (NoDup (marked_vertices st) -> NoDup (marked_vertices st')).

Lemma extended_refl function st : extended function st st.
Proof.
  exists [], []. rewrite !app_nil_r.
  split; [reflexivity|]. split; [reflexivity|]. split; [constructor | exact id].
Qed.

Lemma extended_trans function st1 st2 st3 :
  extended function st1 st2 -> extended function st2 st3 -> extended function st1 st3.
Proof.
  intros (c1 & m1 & Hc1 & Hm1 & Hf1 & Hn1) (c2 & m2 & Hc2 & Hm2 & Hf2 & Hn2).
  exists (c1 ++ c2), (m1 ++ m2).
  split; [rewrite Hc2, Hc1, app_assoc; reflexivity|].
  split; [rewrite Hm2, Hm1, app_assoc; reflexivity|].
  split; [apply Forall_app; split; assumption | auto].
Qed.

Lemma extended_marked function st st' v :
  extended function st st' -> v ∈ marked_vertices st -> v ∈ marked_vertices st'.
Proof.
  intros (c & m & _ & Hm & _) Hv. rewrite Hm. apply elem_of_app. left. exact Hv.
Qed.

Lemma extended_calls function st st' e :
  extended function st st' -> e ∈ calls st -> e ∈ calls st'.
Proof.
  intros (c & m & Hc & _) He. rewrite Hc. apply elem_of_app. left. exact He.
Qed.

Lemma extended_mark function st vertex :
  vertex ∉ marked_vertices st ->
  extended function st (mk_search (calls st) (marked_vertices st ++ [vertex])).
Proof.
  intros Hv. exists [], [vertex]. cbn. rewrite app_nil_r.
  split; [reflexivity|]. split; [reflexivity|]. split; [constructor|].
  intros Hnodup. apply NoDup_app. split; [exact Hnodup|].
  split; [|apply NoDup_singleton].
  intros x Hx Hx'. apply list_elem_of_singleton in Hx'. congruence.
Qed.

Lemma extended_call function st edge :
  call_edge function edge ->
  extended function st (mk_search (calls st ++ [edge]) (marked_vertices st)).
Proof.
  intros He. exists [edge], []. cbn. rewrite app_nil_r.
  split; [reflexivity|]. split; [reflexivity|].
  split; [repeat constructor; exact He | exact id].
Qed.

(** ** What a search leaves in the lists *)

Definition visit_extends (function : string)
    (visit : option vertex_ref -> search -> option (search * result unit)) : Prop :=
  forall target st res, visit target st = Some res -> extended function st (fst res).

Lemma next_calls_loop_extends function visit edges st res :
  visit_extends function visit ->
  next_calls_loop visit g function edges st = Some res ->
  extended function st (fst res)
  /\ (snd res = Ok tt ->
      forall edge, edge ∈ edges -> call_edge function edge -> edge ∈ calls (fst res)).
Proof.
  intros Hvisit. revert st.
  induction edges as [|edge rest IH]; intros st Hrun.
  - injection Hrun as <-. split; [apply extended_refl|].
    intros _ edge Hin. inversion Hin.
  - cbn in Hrun.
    destruct (CFG.edge_store g !! edge) as [e|] eqn:He.
    2:{ injection Hrun as <-. split; [apply extended_refl | discriminate]. }
    destruct (models_call function (CFGEdge._instruction e)) as [[|]| |] eqn:Hcall.
    + destruct (IH _ Hrun) as [Hgrows Hall].
      assert (Hedge : call_edge function edge) by (exists e; split; assumption).
      split; [eapply extended_trans; [apply extended_call, Hedge | exact Hgrows]|].
      intros Hok edge' Hin Hcall'. apply elem_of_cons in Hin as [->|Hin].
      * eapply extended_calls; [exact Hgrows|]. cbn. apply elem_of_app. right.
        apply list_elem_of_singleton. reflexivity.
      * apply Hall; assumption.
    + destruct (visit (CFGEdge._target_state e) st) as [[st1 [[]| |]]|] eqn:Hv;
        try discriminate.
      * pose proof (Hvisit _ _ _ Hv) as Hg1. cbn in Hg1.
        destruct (IH _ Hrun) as [Hgrows Hall].
        split; [eapply extended_trans; eassumption|].
        intros Hok edge' Hin Hcall'. apply elem_of_cons in Hin as [->|Hin].
        -- destruct Hcall' as (e' & He' & Hcall'). congruence.
        -- apply Hall; assumption.
      * injection Hrun as <-. split; [exact (Hvisit _ _ _ Hv) | discriminate].
      * injection Hrun as <-. split; [exact (Hvisit _ _ _ Hv) | discriminate].
    + injection Hrun as <-. split; [apply extended_refl | discriminate].
    + injection Hrun as <-. split; [apply extended_refl | discriminate].
Qed.

Lemma next_calls_within_extends function depth :
  forall vertex st res,
    next_calls_within depth g vertex function st = Some res ->
    extended function st (fst res) /\ vertex ∈ marked_vertices (fst res).
Proof.
  induction depth as [|depth IH]; intros vertex st res Hrun; cbn in Hrun.
  - destruct (bool_decide _) eqn:Hm; [|discriminate].
    apply bool_decide_eq_true in Hm. injection Hrun as <-.
    split; [apply extended_refl | exact Hm].
  - destruct (bool_decide _) eqn:Hm.
    + apply bool_decide_eq_true in Hm. injection Hrun as <-.
      split; [apply extended_refl | exact Hm].
    + apply bool_decide_eq_false in Hm.
      pose proof (extended_mark function st vertex Hm) as Hmark.
      assert (Hin : vertex ∈ marked_vertices st ++ [vertex])
        by (apply elem_of_app; right; apply list_elem_of_singleton; reflexivity).
      destruct vertex as [v|].
      * apply next_calls_loop_extends in Hrun as [Hgrows _].
        2:{ intros target s r Hr. apply (IH _ _ _ Hr). }
        split; [eapply extended_trans; eassumption|].
        eapply extended_marked; [exact Hgrows | exact Hin].
      * injection Hrun as <-. split; [exact Hmark | exact Hin].
Qed.

(** ** The search returns *)

(** The targets of the edges of the graph; [None] is that of an edge
    without one. *)
Definition targets : list (option vertex_ref) :=
  map CFGEdge._target_state (CFG.edge_store g).

(** How many of them are not marked. *)
Fixpoint unmarked (marked : list (option vertex_ref))
    (l : list (option vertex_ref)) : nat :=
  match l with
  | [] => 0
  | u :: l' => (if bool_decide (u ∈ marked) then 0 else 1) + unmarked marked l'
  end.

Lemma unmarked_le_length marked l : unmarked marked l <= length l.
Proof.
  induction l as [|u l IH]; cbn; [lia|]. destruct (bool_decide _); lia.
Qed.

Lemma unmarked_mono marked marked' l :
  (forall u, u ∈ marked -> u ∈ marked') ->
  unmarked marked' l <= unmarked marked l.
Proof.
  intros Hsub. induction l as [|u l IH]; cbn; [lia|].
  destruct (bool_decide (u ∈ marked)) eqn:Hu.
  - apply bool_decide_eq_true in Hu.
    rewrite (bool_decide_eq_true_2 _ (Hsub u Hu)). lia.
  - destruct (bool_decide (u ∈ marked')); lia.
Qed.

Lemma unmarked_mark marked l u :
  u ∈ l -> u ∉ marked -> unmarked (marked ++ [u]) l < unmarked marked l.
Proof.
  intros Hin Hu.
  assert (Hsub : forall x, x ∈ marked -> x ∈ marked ++ [u])
    by (intros x Hx; apply elem_of_app; left; exact Hx).
  induction l as [|x l IH]; [inversion Hin|]. cbn.
  pose proof (unmarked_mono marked (marked ++ [u]) l Hsub) as Hle.
  apply elem_of_cons in Hin as [<-|Hin].
  - rewrite (bool_decide_eq_false_2 _ Hu).
    rewrite bool_decide_eq_true_2; [lia|].
    apply elem_of_app. right. apply list_elem_of_singleton. reflexivity.
  - specialize (IH Hin).
    destruct (bool_decide (x ∈ marked)) eqn:Hx.
    + apply bool_decide_eq_true in Hx.
      rewrite (bool_decide_eq_true_2 _ (Hsub x Hx)). lia.
    + destruct (bool_decide (x ∈ marked ++ [u])); lia.
Qed.

Lemma extended_unmarked function st st' l :
  extended function st st' ->
  unmarked (marked_vertices st') l <= unmarked (marked_vertices st) l.
Proof.
  intros Hext. apply unmarked_mono. intros u. apply (extended_marked _ _ _ _ Hext).
Qed.

Lemma next_calls_loop_returns function visit depth edges st :
  visit_extends function visit ->
  (forall target s,
     target ∈ targets -> unmarked (marked_vertices s) targets <= depth ->
     is_Some (visit target s)) ->
  unmarked (marked_vertices st) targets <= depth ->
  is_Some (next_calls_loop visit g function edges st).
Proof.
  intros Hext Hvisit. revert st.
  induction edges as [|edge rest IH]; intros st Hst; cbn; [eexists; reflexivity|].
  destruct (CFG.edge_store g !! edge) as [e|] eqn:He; [|eexists; reflexivity].
  assert (Htarget : CFGEdge._target_state e ∈ targets).
  { apply list_elem_of_fmap_2. eapply list_elem_of_lookup_2. exact He. }
  destruct (models_call function (CFGEdge._instruction e)) as [[|]| |];
    try (eexists; reflexivity).
  - apply IH. exact Hst.
  - destruct (Hvisit _ st Htarget Hst) as [[st1 r] Hv]. rewrite Hv.
    destruct r as [[]| |]; try (eexists; reflexivity).
    apply IH. pose proof (extended_unmarked _ _ _ targets (Hext _ _ _ Hv)) as Hle.
    cbn in Hle. lia.
Qed.

Lemma visit_within_extends function depth :
  visit_extends function
    (fun target st => next_calls_within depth g target function st).
Proof. intros target st res Hrun. apply (next_calls_within_extends _ _ _ _ _ Hrun). Qed.

Lemma next_calls_within_returns function depth :
  forall vertex st,
    vertex ∈ targets ->
    unmarked (marked_vertices st) targets <= depth ->
    is_Some (next_calls_within depth g vertex function st).
Proof.
  induction depth as [|depth IH]; intros vertex st Hin Hst; cbn;
    destruct (bool_decide (vertex ∈ marked_vertices st)) eqn:Hm;
    try (eexists; reflexivity);
    apply bool_decide_eq_false in Hm;
    pose proof (unmarked_mark _ _ _ Hin Hm) as Hlt; [lia|].
  destruct vertex as [v|]; [|eexists; reflexivity].
  apply next_calls_loop_returns with (depth := depth).
  - apply visit_within_extends.
  - intros target s Ht Hs. apply IH; assumption.
  - cbn. lia.
Qed.

Lemma next_calls_enough function depth vertex st :
  length (CFG.edge_store g) < depth ->
  is_Some (next_calls_within depth g vertex function st).
Proof.
  destruct depth as [|depth]; [lia|]. intros Hdepth. cbn.
  destruct (bool_decide (vertex ∈ marked_vertices st)); [eexists; reflexivity|].
  destruct vertex as [v|]; [|eexists; reflexivity].
  assert (Hall : forall s, unmarked (marked_vertices s) targets <= depth).
  { intros s. pose proof (unmarked_le_length (marked_vertices s) targets) as Hle.
    unfold targets in Hle at 2. rewrite length_map in Hle. lia. }
  apply next_calls_loop_returns with (depth := depth).
  - apply visit_within_extends.
  - intros target s Ht Hs. apply next_calls_within_returns; assumption.
  - apply Hall.
Qed.

Lemma next_calls_loop_more function visit visit' edges st res :
  (forall target s r, visit target s = Some r -> visit' target s = Some r) ->
  next_calls_loop visit g function edges st = Some res ->
  next_calls_loop visit' g function edges st = Some res.
Proof.
  intros Hmore. revert st. induction edges as [|edge rest IH]; intros st Hrun;
    cbn in *; [exact Hrun|].
  destruct (CFG.edge_store g !! edge) as [e|]; [|exact Hrun].
  destruct (models_call function (CFGEdge._instruction e)) as [[|]| |];
    try exact Hrun.
  - apply IH. exact Hrun.
  - destruct (visit (CFGEdge._target_state e) st) as [[st1 r]|] eqn:Hv;
      [|discriminate].
    rewrite (Hmore _ _ _ Hv). destruct r as [[]| |]; try exact Hrun.
    apply IH. exact Hrun.
Qed.

Lemma next_calls_within_more function depth :
  forall depth' vertex st res,
    depth <= depth' ->
    next_calls_within depth g vertex function st = Some res ->
    next_calls_within depth' g vertex function st = Some res.
Proof.
  induction depth as [|depth IH]; intros depth' vertex st res Hle Hrun.
  - cbn in Hrun. destruct (bool_decide _) eqn:Hm; [|discriminate].
    destruct depth'; cbn; rewrite Hm; exact Hrun.
  - destruct depth' as [|depth']; [lia|]. cbn in *.
    destruct (bool_decide _); [exact Hrun|].
    destruct vertex as [v|]; [|exact Hrun].
    revert Hrun. apply next_calls_loop_more.
    intros target s r. apply IH. lia.
Qed.

(** [get_function_name_strings] does not return on the call that
    some edge of the graph carries, as a statement or as the value of
    an assignment. *)
Definition names_never_return : Prop :=
  exists edge e value,
    CFG.edge_store g !! edge = Some e
    /\ (CFGEdge._instruction e = IStmt (Expr value)
        \/ exists targets, CFGEdge._instruction e = IStmt (Assign targets value))
    /\ get_function_name_strings value = Loops.

Lemma models_call_loops function i :
  models_call function i = Loops ->
  exists value,
    (i = IStmt (Expr value) \/ exists targets, i = IStmt (Assign targets value))
    /\ get_function_name_strings value = Loops.
Proof.
  destruct i as [[targets value|value| | | | | | | |]|]; try discriminate;
    destruct value; try discriminate; cbn -[get_function_name_strings];
    match goal with |- context [get_function_name_strings ?v] =>
      destruct (get_function_name_strings v) eqn:Hnames
    end; try discriminate; intros _; eexists;
    (split; [|exact Hnames]); [right; eexists; reflexivity | left; reflexivity].
Qed.

Lemma next_calls_loop_hangs function visit edges st st' :
  (forall target s s', visit target s = Some (s', Loops) -> names_never_return) ->
  next_calls_loop visit g function edges st = Some (st', Loops) ->
  names_never_return.
Proof.
  intros Hvisit. revert st. induction edges as [|edge rest IH]; intros st Hrun;
    cbn in Hrun; [discriminate|].
  destruct (CFG.edge_store g !! edge) as [e|] eqn:He; [|discriminate].
  destruct (models_call function (CFGEdge._instruction e)) as [[|]| |] eqn:Hcall;
    try discriminate.
  - apply (IH _ Hrun).
  - destruct (visit (CFGEdge._target_state e) st) as [[st1 [[]| |]]|] eqn:Hv;
      try discriminate.
    + apply (IH _ Hrun).
    + injection Hrun as <-. apply (Hvisit _ _ _ Hv).
  - destruct (models_call_loops _ _ Hcall) as (value & Hshape & Hnames).
    exists edge, e, value. split; [exact He|]. split; assumption.
Qed.

Lemma next_calls_within_hangs function depth :
  forall vertex st st',
    next_calls_within depth g vertex function st = Some (st', Loops) ->
    names_never_return.
Proof.
  induction depth as [|depth IH]; intros vertex st st' Hrun; cbn in Hrun;
    destruct (bool_decide _); try discriminate.
  destruct vertex as [v|]; [|discriminate].
  revert Hrun. apply next_calls_loop_hangs. exact IH.
Qed.

(** X20: the recursion of [next_calls] ends on every graph, from every
    vertex and with any lists, whatever cycles the graph has: it is
    never deeper than the number of edge objects plus one, and a
    greater bound on its depth gives the same lists and the same
    outcome.  So [next_calls] returns or raises, unless
    [get_function_name_strings] does not return on the call of some
    edge of the graph. *)
Theorem next_calls_returns (vertex : option vertex_ref) (function : string)
    (st : search) :
  exists st' r,
    next_calls g vertex function st = Some (st', r)
    /\ (forall depth,
          length (CFG.edge_store g) < depth ->
          next_calls_within depth g vertex function st = Some (st', r))
    /\ (r = Loops -> names_never_return).
Proof.
  destruct (next_calls_enough function (S (length (CFG.edge_store g))) vertex st)
    as [[st' r] Hres]; [lia|].
  exists st', r. split; [exact Hres|]. split.
  - intros depth Hdepth. revert Hres. apply next_calls_within_more. lia.
  - intros ->. apply (next_calls_within_hangs _ _ _ _ _ Hres).
Qed.

(** ** What a search finds *)


(** X22: the lists remember a search.  With the lists a search from a
    vertex has left, as with the default lists of the function, a
    second search from that vertex returns at once and finds nothing,
    whatever function it looks for. *)
Theorem searched_vertex_is_skipped (vertex : option vertex_ref)
    (function function' : string) (st st' : search) (r : result unit) :
  next_calls g vertex function st = Some (st', r) ->
  next_calls g vertex function' st' = Some (st', Ok tt).
Proof.
  intros Hrun. apply next_calls_within_extends in Hrun as [_ Hin].
  unfold next_calls. cbn. rewrite bool_decide_eq_true_2 by exact Hin. reflexivity.
Qed.

(** The search is done with an edge: it is in [calls], or it models
    no call of the function and its target is marked. *)
Definition processed (function : string) (st : search) (edge : edge_ref) : Prop :=
  exists e,
    CFG.edge_store g !! edge = Some e
    /\ ((models_call function (CFGEdge._instruction e) = Ok true
         /\ edge ∈ calls st)
        \/ (models_call function (CFGEdge._instruction e) = Ok false
            /\ CFGEdge._target_state e ∈ marked_vertices st)).

(** The search is done with a vertex: with each of its edges. *)
Definition closed (function : string) (st : search) (u : option vertex_ref) : Prop :=
  exists v,
    u = Some v
    /\ forall edge, edge ∈ CFGVertex.edges (vertex_at g v) -> processed function st edge.

Lemma processed_extended function st st' edge :
  extended function st st' -> processed function st edge -> processed function st' edge.
Proof.
  intros Hext (e & He & [[Hcall Hin]|[Hcall Hin]]); exists e; (split; [exact He|]).
  - left. split; [exact Hcall | eapply extended_calls; eassumption].
  - right. split; [exact Hcall | eapply extended_marked; eassumption].
Qed.

Lemma closed_extended function st st' u :
  extended function st st' -> closed function st u -> closed function st' u.
Proof.
  intros Hext (v & -> & Hall). exists v. split; [reflexivity|].
  intros edge Hin. eapply processed_extended; [exact Hext | apply Hall, Hin].
Qed.

Definition visit_closes (function : string)
    (visit : option vertex_ref -> search -> option (search * result unit)) : Prop :=
  forall target st st',
    visit target st = Some (st', Ok tt) ->
    target ∈ marked_vertices st'
    /\ forall u, u ∈ marked_vertices st' -> u ∉ marked_vertices st ->
                 closed function st' u.

Lemma next_calls_loop_closes function visit edges st st' :
  visit_extends function visit ->
  visit_closes function visit ->
  next_calls_loop visit g function edges st = Some (st', Ok tt) ->
  (forall edge, edge ∈ edges -> processed function st' edge)
  /\ (forall u, u ∈ marked_vertices st' -> u ∉ marked_vertices st ->
                closed function st' u).
Proof.
  intros Hext Hcl. revert st.
  induction edges as [|edge rest IH]; intros st Hrun.
  - injection Hrun as <-. split; [intros edge Hin; inversion Hin|].
    intros u Hu Hu'. contradiction.
  - cbn in Hrun.
    destruct (CFG.edge_store g !! edge) as [e|] eqn:He; [|discriminate].
    destruct (models_call function (CFGEdge._instruction e)) as [[|]| |] eqn:Hcall;
      try discriminate.
    + pose proof (next_calls_loop_extends _ _ _ _ _ Hext Hrun) as [Hgrows _].
      destruct (IH _ Hrun) as [Hall Hnew]. cbn in *. split.
      * intros edge' Hin. apply elem_of_cons in Hin as [->|Hin]; [|apply Hall, Hin].
        exists e. split; [exact He|]. left. split; [exact Hcall|].
        eapply extended_calls; [exact Hgrows|]. cbn.
        apply elem_of_app. right. apply list_elem_of_singleton. reflexivity.
      * exact Hnew.
    + destruct (visit (CFGEdge._target_state e) st) as [[st1 [[]| |]]|] eqn:Hv;
        try discriminate.
      pose proof (next_calls_loop_extends _ _ _ _ _ Hext Hrun) as [Hgrows _].
      cbn in Hgrows.
      destruct (Hcl _ _ _ Hv) as [Htarget Hnew1].
      destruct (IH _ Hrun) as [Hall Hnew]. split.
      * intros edge' Hin. apply elem_of_cons in Hin as [->|Hin]; [|apply Hall, Hin].
        exists e. split; [exact He|]. right. split; [exact Hcall|].
        eapply extended_marked; eassumption.
      * intros u Hu Hu'.
        destruct (decide (u ∈ marked_vertices st1)) as [Hu1|Hu1].
        -- eapply closed_extended; [exact Hgrows | apply Hnew1; assumption].
        -- apply Hnew; assumption.
Qed.

Lemma next_calls_within_closes function depth :
  visit_closes function
    (fun target st => next_calls_within depth g target function st).
Proof.
  induction depth as [|depth IH]; intros vertex st st' Hrun; cbn in Hrun.
  - destruct (bool_decide _) eqn:Hm; [|discriminate].
    apply bool_decide_eq_true in Hm. injection Hrun as <-.
    split; [exact Hm|]. intros u Hu Hu'. contradiction.
  - destruct (bool_decide _) eqn:Hm.
    + apply bool_decide_eq_true in Hm. injection Hrun as <-.
      split; [exact Hm|]. intros u Hu Hu'. contradiction.
    + apply bool_decide_eq_false in Hm.
      destruct vertex as [v|]; [|discriminate].
      pose proof (next_calls_loop_extends _ _ _ _ _
                    (visit_within_extends function depth) Hrun) as [Hgrows _].
      cbn in Hgrows.
      apply next_calls_loop_closes in Hrun as [Hall Hnew];
        [|apply visit_within_extends|exact IH].
      assert (Hin : Some v ∈ marked_vertices st').
      { eapply extended_marked; [exact Hgrows|]. cbn.
        apply elem_of_app. right. apply list_elem_of_singleton. reflexivity. }
      split; [exact Hin|].
      intros u Hu Hu'. cbn in Hnew.
      destruct (decide (u = Some v)) as [->|Hne].
      * exists v. split; [reflexivity | exact Hall].
      * apply Hnew; [exact Hu|].
        intros Hu0. apply elem_of_app in Hu0 as [Hu0|Hu0]; [contradiction|].
        apply list_elem_of_singleton in Hu0. contradiction.
Qed.

(** The call edge [edge] is a next call after [vertex]: a path of
    edges that model no call of [function] leads from [vertex] to the
    source of [edge], over vertices that are not in [marked]. *)
Inductive leads_to (function : string) (marked : list (option vertex_ref))
  : option vertex_ref -> edge_ref -> Prop :=
| leads_here v edge :
    Some v ∉ marked ->
    edge ∈ CFGVertex.edges (vertex_at g v) ->
    call_edge function edge ->
    leads_to function marked (Some v) edge
| leads_on v via e edge :
    Some v ∉ marked ->
    via ∈ CFGVertex.edges (vertex_at g v) ->
    CFG.edge_store g !! via = Some e ->
    models_call function (CFGEdge._instruction e) = Ok false ->
    leads_to function marked (CFGEdge._target_state e) edge ->
    leads_to function marked (Some v) edge.


End search.

#[local] Existing Instance insertion_order.

(** ** The properties at work *)

(** The graph of [for x in xs: f(x)]: edge 1 is the call, from the
    loop vertex 1 into the body. *)
Definition loop_graph : CFG.t := graph_facts.calling_loop_graph.

Definition nothing : search := mk_search [] [].

(** The lists after a search for [f] from the first vertex, and after
    one for [g]. *)
Definition found : search := mk_search [1] [Some 0; Some 1; Some 2].
Definition not_found : search := mk_search [] [Some 0; Some 1; Some 3; Some 2].


(** After a search for [g], which is not called, one for [f] with the
    same lists does not find the call of [f]. *)
Lemma searched_vertex_is_skipped_witness :
  next_calls loop_graph (Some 0) "g" nothing = Some (not_found, Ok tt)
  /\ next_calls loop_graph (Some 0) "f" not_found = Some (not_found, Ok tt).
Proof.
  split; [reflexivity|].
  apply (searched_vertex_is_skipped loop_graph (Some 0) "g" "f" nothing not_found
           (Ok tt)).
  reflexivity.
Defined.


End search_facts.

(** * The configuration file *)

Module configuration_facts.

Import init_verification.

(** A line that is left out wherever it stands: one that starts with
    [#] or [//] or ends with [*/], spaces aside. *)
Definition comment_line (line : string) : bool :=
  let li := strip line in
  startswith li "#" || startswith li "//" || endswith li "*/".

(** The lines one after the other. *)
Definition joined (lines : list string) : string := foldr String.append "" lines.

Lemma lines_outside_comments (lines : list string) (content : string) :
  Forall (fun line => startswith (strip line) "/*" = false) lines ->
  foldl read_configuration_line (content, false) lines
  = (content +:+ joined (List.filter (fun line => negb (comment_line line)) lines),
     false).
Proof.
  intros Hall. revert content.
  induction Hall as [|line lines Hline _ IH]; intros content.
  - cbn. rewrite graph_facts.append_nil_r. reflexivity.
  - cbn [foldl List.filter]. unfold read_configuration_line at 2, comment_line.
    rewrite Hline.
    destruct (endswith (strip line) "*/"), (startswith (strip line) "#"),
      (startswith (strip line) "//"); cbn [orb negb andb]; try apply IH.
    rewrite IH. cbn [joined foldr]. rewrite graph_facts.append_assoc. reflexivity.
Qed.

(** X24: in a file without a line that starts with [/*], the text that
    is parsed is made of the lines of the file, in their order and as
    they are, without those that start with [#] or [//] or end with
    [*/]. *)
Theorem configuration_without_block_comments (lines : list string) :
  Forall (fun line => startswith (strip line) "/*" = false) lines ->
  read_configuration_content lines
  = joined (List.filter (fun line => negb (comment_line line)) lines).
Proof.
  intros Hall. unfold read_configuration_content.
  rewrite (lines_outside_comments lines "" Hall). reflexivity.
Qed.

Lemma lines_inside_comment (lines : list string) (content : string) :
  Forall (fun line => endswith (strip line) "*/" = false) lines ->
  foldl read_configuration_line (content, true) lines = (content, true).
Proof.
  intros Hall. induction Hall as [|line lines Hline _ IH]; [reflexivity|].
  cbn [foldl]. unfold read_configuration_line at 2. rewrite Hline.
  destruct (startswith (strip line) "/*"); rewrite andb_false_r; exact IH.
Qed.

(** X25: a block comment that is not closed takes the rest of the
    file with it: after a line that starts with [/*], when neither it
    nor a later line ends with [*/], nothing more is parsed. *)
Theorem unclosed_comment_swallows_rest (before : list string) (opening : string)
    (rest : list string) :
  startswith (strip opening) "/*" = true ->
  Forall (fun line => endswith (strip line) "*/" = false) (opening :: rest) ->
  read_configuration_content (before ++ opening :: rest)
  = read_configuration_content before.
Proof.
  intros Hopen Hall. apply Forall_cons in Hall as [Hline Hrest].
  unfold read_configuration_content. rewrite foldl_app.
  destruct (foldl read_configuration_line ("", false) before) as [content skip].
  cbn [foldl]. unfold read_configuration_line at 2. rewrite Hopen, Hline.
  rewrite andb_false_r. rewrite (lines_inside_comment rest content Hrest).
  reflexivity.
Qed.

(** ** The properties at work *)

Definition line (s : string) : string := s +:+ String (ascii_of_nat 10) "".

(** A configuration with two comments, one of them indented. *)
Definition commented : list string :=
  [line "# where the verdicts go";
   line "{";
   line "  // the server";
   line "  'test': 'yes'";
   line "}"].

Lemma configuration_without_block_comments_witness :
  read_configuration_content commented
  = line "{" +:+ line "  'test': 'yes'" +:+ line "}".
Proof.
  rewrite (configuration_without_block_comments commented).
  - reflexivity.
  - repeat constructor.
Defined.

Lemma unclosed_comment_swallows_rest_witness :
  read_configuration_content
    ([line "{"] ++ line "/* the rest is for later" :: [line "  'test': 'yes'"; line "}"])
  = line "{".
Proof.
  rewrite (unclosed_comment_swallows_rest [line "{"]
             (line "/* the rest is for later") [line "  'test': 'yes'"; line "}"]).
  - reflexivity.
  - reflexivity.
  - repeat constructor.
Defined.

End configuration_facts.
